(** * NebuSwap: a constant-product liquidity pool, its share ledger and its
    pair registry

    Shallow embedding of the Solidity contracts [NebuPool], [NebuSwap] and
    [NebulaLiquidityToken], and of the pure functions [uint2str] and
    [generateTokenURI] of [AgentNFT].  A [uint256] is a [Z] whose range checks are
    written out; a Solidity [mapping] is a finite map read with default [0];
    a transaction is a function from the state to either a revert or a
    result paired with the new state, so that a reverted call leaves the
    state it started from. *)

From Stdlib Require Import ZArith NArith String Ascii List Lia.
From stdpp Require Import base option gmap.
From Equations Require Import Equations.
Import ListNotations.
Local Open Scope Z_scope.

(** ** Machine types *)

Abbreviation address := Z (only parsing).
Abbreviation uint256 := Z (only parsing).

Definition MAX_UINT256 : Z := 2 ^ 256 - 1.

Definition is_uint256 (x : Z) : Prop := 0 <= x <= MAX_UINT256.

(** ** Reverts and the transaction monad *)

Inductive revert : Type :=
| Error (reason : string)
| ArithmeticError
| CallToNonContract
| CreateCollision
| ERC20InsufficientBalance
| ERC20InsufficientAllowance
| AccessControlUnauthorizedAccount.

Inductive result (A : Type) : Type :=
| Ok (a : A)
| Revert (e : revert).
Arguments Ok {A} a.
Arguments Revert {A} e.

Definition M (S A : Type) : Type := S -> result (A * S).

#[global] Instance M_ret {S} : MRet (M S) :=
  fun A a s => Ok (a, s).

#[global] Instance M_bind {S} : MBind (M S) :=
  fun A B f m s =>
    match m s with
    | Ok (a, s') => f a s'
    | Revert e => Revert e
    end.

Definition throw {S A} (e : revert) : M S A := fun _ => Revert e.

Definition get {S} : M S S := fun s => Ok (s, s).

Definition gets {S A} (f : S -> A) : M S A := fun s => Ok (f s, s).

Definition modify {S} (f : S -> S) : M S unit := fun s => Ok (tt, f s).

Definition require {S} (cond : bool) (reason : string) : M S unit :=
  if cond then mret tt else throw (Error reason).

(** ** Checked 256-bit arithmetic

    Solidity 0.8 operators revert on overflow, underflow and division by
    zero. *)

Module Checked.

Definition add {S} (a b : uint256) : M S uint256 :=
  if a + b <=? MAX_UINT256 then mret (a + b) else throw ArithmeticError.

Definition sub {S} (a b : uint256) : M S uint256 :=
  if b <=? a then mret (a - b) else throw ArithmeticError.

Definition mul {S} (a b : uint256) : M S uint256 :=
  if a * b <=? MAX_UINT256 then mret (a * b) else throw ArithmeticError.

Definition div {S} (a b : uint256) : M S uint256 :=
  if b =? 0 then throw ArithmeticError else mret (a / b).

End Checked.

(** Modelled from the spec: the library [SafeMath.sol] that [NebuPool]
    attaches to [uint256] is not among the sources; the spec asks for
    fixed-width unsigned arithmetic in which any overflow or underflow fails
    the operation, never wraps. *)
Module SafeMath.

Definition add {S} (a b : uint256) : M S uint256 := Checked.add a b.
Definition sub {S} (a b : uint256) : M S uint256 := Checked.sub a b.
Definition mul {S} (a b : uint256) : M S uint256 := Checked.mul a b.
Definition div {S} (a b : uint256) : M S uint256 := Checked.div a b.

End SafeMath.

(** Modelled from the spec: the library [Math.sol] is not among the sources;
    the spec reads [Math.sqrt] as the floor of the square root and
    [Math.min] as the smaller of two numbers. *)
Module Math.

Definition sqrt (a : uint256) : uint256 := Z.sqrt a.
Definition min (a b : uint256) : uint256 := Z.min a b.

End Math.

(** ** Fungible-token ledgers *)

(** Modelled from the spec: the [ERC20] base contract, of which the share
    token is an instance and which the traded assets implement, is not among
    the sources.  The spec's ledger has a total supply and a balance per
    holder. *)
Record ERC20 : Type := mkERC20 {
  totalSupply : uint256;
  balances : gmap Z Z;
  allowances : gmap (Z * Z) Z
}.

Definition balanceOf (t : ERC20) (account : address) : uint256 :=
  default 0 (balances t !! account).

Definition allowance (t : ERC20) (owner spender : address) : uint256 :=
  default 0 (allowances t !! (owner, spender)).

Definition set_balance (account : address) (v : uint256) (t : ERC20) : ERC20 :=
  mkERC20 (totalSupply t) (<[account := v]> (balances t)) (allowances t).

Definition set_allowance (owner spender : address) (v : uint256) (t : ERC20) : ERC20 :=
  mkERC20 (totalSupply t) (balances t) (<[(owner, spender) := v]> (allowances t)).

Definition set_totalSupply (v : uint256) (t : ERC20) : ERC20 :=
  mkERC20 v (balances t) (allowances t).

(** Modelled from the spec: the functions of the [ERC20] base contract.
    [mint] increases the holder's balance and the supply, [burn] fails when
    the holder's balance is below the amount and otherwise decreases both; a
    transfer is rejected for an insufficient balance or allowance. *)
Module ERC20.

Definition _transfer (from to : address) (value : uint256) : M ERC20 unit :=
  t ← get;
  if balanceOf t from <? value then throw ERC20InsufficientBalance
  else
    modify (set_balance from (balanceOf t from - value));;
    t ← get;
    modify (set_balance to (balanceOf t to + value)).

Definition _spendAllowance (owner spender : address) (value : uint256) : M ERC20 unit :=
  t ← get;
  if allowance t owner spender <? value then throw ERC20InsufficientAllowance
  else modify (set_allowance owner spender (allowance t owner spender - value)).

Definition transfer (msg_sender to : address) (value : uint256) : M ERC20 bool :=
  _transfer msg_sender to value;;
  mret true.

Definition transferFrom (msg_sender from to : address) (value : uint256) : M ERC20 bool :=
  _spendAllowance from msg_sender value;;
  _transfer from to value;;
  mret true.

Definition approve (msg_sender spender : address) (value : uint256) : M ERC20 bool :=
  modify (set_allowance msg_sender spender value);;
  mret true.

Definition _mint (account : address) (value : uint256) : M ERC20 unit :=
  t ← get;
  supply ← Checked.add (totalSupply t) value;
  modify (set_totalSupply supply);;
  modify (set_balance account (balanceOf t account + value)).

Definition _burn (account : address) (value : uint256) : M ERC20 unit :=
  t ← get;
  if balanceOf t account <? value then throw ERC20InsufficientBalance
  else
    modify (set_balance account (balanceOf t account - value));;
    modify (set_totalSupply (totalSupply t - value)).

End ERC20.

(** ** The liquidity-share token

    [NebulaLiquidityToken] is the ledger above with [mint] and [burn]
    restricted to the holders of [DEFAULT_ADMIN_ROLE]; its constructor
    grants that role to the deployer, which is the pool. *)

Record NebulaLiquidityToken : Type := mkNebulaLiquidityToken {
  name : string;
  symbol : string;
  erc20 : ERC20;
  DEFAULT_ADMIN_ROLE : gset Z
}.

Definition set_erc20 (t : ERC20) (l : NebulaLiquidityToken) : NebulaLiquidityToken :=
  mkNebulaLiquidityToken (name l) (symbol l) t (DEFAULT_ADMIN_ROLE l).

Module NebulaLiquidityToken.

Definition constructor (msg_sender : address) (_name _symbol : string) : NebulaLiquidityToken :=
  mkNebulaLiquidityToken _name _symbol (mkERC20 0 ∅ ∅) {[ msg_sender ]}.

Definition onlyRole (msg_sender : address) : M NebulaLiquidityToken unit :=
  l ← get;
  if bool_decide (msg_sender ∈ DEFAULT_ADMIN_ROLE l) then mret tt
  else throw AccessControlUnauthorizedAccount.

(** Runs a function of the base ledger on the token's own ledger. *)
Definition super {A} (f : M ERC20 A) : M NebulaLiquidityToken A :=
  fun l =>
    match f (erc20 l) with
    | Ok (a, t) => Ok (a, set_erc20 t l)
    | Revert e => Revert e
    end.

Definition mint (msg_sender to : address) (amount : uint256) : M NebulaLiquidityToken unit :=
  onlyRole msg_sender;;
  super (ERC20._mint to amount).

Definition burn (msg_sender from : address) (amount : uint256) : M NebulaLiquidityToken unit :=
  onlyRole msg_sender;;
  super (ERC20._burn from amount).

End NebulaLiquidityToken.

(** ** Events *)

Inductive Event : Type :=
| PairCreated (token1 token2 pair : address)
| LiquidityAdded (provider : address) (amountToken1 amountToken2 liquidity : uint256)
| LiquidityRemoved (provider : address) (amountToken1 amountToken2 liquidity : uint256)
| Swap (sender : address) (amountIn amountOut : uint256) (tokenIn tokenOut : address).

(** ** The pool *)

Record NebuPool : Type := mkNebuPool {
  token1 : address;
  token2 : address;
  reserve1 : uint256;
  reserve2 : uint256;
  constantK : uint256;
  liquidityToken : NebulaLiquidityToken
}.

(** What a call on a pool can read and write: the pool's own storage, the
    token contracts it calls, and the event log. *)
Record Ctx : Type := mkCtx {
  self : NebuPool;
  erc20s : gmap Z ERC20;
  logs : list Event
}.

Definition set_self (p : NebuPool) (c : Ctx) : Ctx := mkCtx p (erc20s c) (logs c).

Definition set_reserve1 (v : uint256) (p : NebuPool) : NebuPool :=
  mkNebuPool (token1 p) (token2 p) v (reserve2 p) (constantK p) (liquidityToken p).

Definition set_reserve2 (v : uint256) (p : NebuPool) : NebuPool :=
  mkNebuPool (token1 p) (token2 p) (reserve1 p) v (constantK p) (liquidityToken p).

Definition set_constantK (v : uint256) (p : NebuPool) : NebuPool :=
  mkNebuPool (token1 p) (token2 p) (reserve1 p) (reserve2 p) v (liquidityToken p).

Definition set_liquidityToken (l : NebulaLiquidityToken) (p : NebuPool) : NebuPool :=
  mkNebuPool (token1 p) (token2 p) (reserve1 p) (reserve2 p) (constantK p) l.

Definition store (f : NebuPool -> NebuPool) : M Ctx unit :=
  modify (fun c => set_self (f (self c)) c).

Definition emit (e : Event) : M Ctx unit :=
  modify (fun c => mkCtx (self c) (erc20s c) (logs c ++ [e])).

(** An external call to the token contract at [token]; calling an address
    that holds no contract reverts. *)
Definition IERC20 {A} (token : address) (f : M ERC20 A) : M Ctx A :=
  fun c =>
    match erc20s c !! token with
    | None => Revert CallToNonContract
    | Some t =>
        match f t with
        | Ok (a, t') => Ok (a, mkCtx (self c) (<[token := t']> (erc20s c)) (logs c))
        | Revert e => Revert e
        end
    end.

(** A call to the pool's own share token. *)
Definition LP {A} (f : M NebulaLiquidityToken A) : M Ctx A :=
  fun c =>
    match f (liquidityToken (self c)) with
    | Ok (a, l) => Ok (a, set_self (set_liquidityToken l (self c)) c)
    | Revert e => Revert e
    end.

(** [console.log] prints and changes nothing. *)
Definition console_log {A} (_ : string) (_ : A) : M Ctx unit := mret tt.

Module NebuPool.

Definition constructor (this _token1 _token2 : address)
    (_liquidityTokenName _liquidityTokenSymbol : string) : NebuPool :=
  mkNebuPool _token1 _token2 0 0 0
    (NebulaLiquidityToken.constructor this _liquidityTokenName _liquidityTokenSymbol).

Definition getExpectedOutput (fromToken : address) (amountIn : uint256) : M Ctx uint256 :=
  p ← gets self;
  require (0 <? amountIn) "AmountIn must be greater than 0";;
  require ((fromToken =? token1 p) || (fromToken =? token2 p)) "Invalid fromToken";;
  if fromToken =? token1 p then
    d ← Checked.add (reserve1 p) amountIn;
    q ← Checked.div (constantK p) d;
    Checked.sub (reserve2 p) q
  else
    d ← Checked.add (reserve2 p) amountIn;
    q ← Checked.div (constantK p) d;
    Checked.sub (reserve1 p) q.

Definition _updateConstantFormula : M Ctx unit :=
  p ← gets self;
  if (reserve1 p =? 0) || (reserve2 p =? 0) then
    store (set_constantK 0);;
    console_log "Constant formula reset to 0 as reserves are empty." tt
  else
    k ← SafeMath.mul (reserve1 p) (reserve2 p);
    store (set_constantK k);;
    require (0 <? k) "Constant formula not updated";;
    console_log "Updated Constant K:" k.

Definition addLiquidity (this msg_sender : address) (amountToken1 amountToken2 : uint256)
    : M Ctx unit :=
  p ← gets self;
  let totalSupplyOfToken := totalSupply (erc20 (liquidityToken p)) in
  a1 ← IERC20 (token1 p) (t ← get; mret (allowance t msg_sender this));
  console_log "Token1 Allowance:" a1;;
  a2 ← IERC20 (token2 p) (t ← get; mret (allowance t msg_sender this));
  console_log "Token2 Allowance:" a2;;
  b1 ← IERC20 (token1 p) (t ← get; mret (balanceOf t msg_sender));
  console_log "Token1 Balance of User:" b1;;
  b2 ← IERC20 (token2 p) (t ← get; mret (balanceOf t msg_sender));
  console_log "Token2 Balance of User:" b2;;
  IERC20 (token1 p) (ERC20.transferFrom this msg_sender this amountToken1);;
  IERC20 (token2 p) (ERC20.transferFrom this msg_sender this amountToken2);;
  b1 ← IERC20 (token1 p) (t ← get; mret (balanceOf t this));
  console_log "Token1 Balance of Pool After:" b1;;
  b2 ← IERC20 (token2 p) (t ← get; mret (balanceOf t this));
  console_log "Token2 Balance of Pool After:" b2;;
  liquidity ←
    (if totalSupplyOfToken =? 0 then
       m ← SafeMath.mul amountToken1 amountToken2;
       let liquidity := Math.sqrt m in
       require (0 <? liquidity) "Insufficient liquidity created";;
       store (set_reserve1 amountToken1);;
       store (set_reserve2 amountToken2);;
       mret liquidity
     else
       m1 ← SafeMath.mul amountToken1 totalSupplyOfToken;
       liquidityFromToken1 ← SafeMath.div m1 (reserve1 p);
       m2 ← SafeMath.mul amountToken2 totalSupplyOfToken;
       liquidityFromToken2 ← SafeMath.div m2 (reserve2 p);
       let liquidity := Math.min liquidityFromToken1 liquidityFromToken2 in
       r1 ← SafeMath.add (reserve1 p) amountToken1;
       store (set_reserve1 r1);;
       r2 ← SafeMath.add (reserve2 p) amountToken2;
       store (set_reserve2 r2);;
       mret liquidity);
  LP (NebulaLiquidityToken.mint this msg_sender liquidity);;
  _updateConstantFormula;;
  emit (LiquidityAdded msg_sender amountToken1 amountToken2 liquidity).

Definition removeLiquidity (this msg_sender : address) (liquidity : uint256) : M Ctx unit :=
  p ← gets self;
  let totalSupplyOfToken := totalSupply (erc20 (liquidityToken p)) in
  require (0 <? totalSupplyOfToken) "No liquidity available";;
  m1 ← SafeMath.mul liquidity (reserve1 p);
  amountToken1 ← SafeMath.div m1 totalSupplyOfToken;
  m2 ← SafeMath.mul liquidity (reserve2 p);
  amountToken2 ← SafeMath.div m2 totalSupplyOfToken;
  LP (NebulaLiquidityToken.burn this msg_sender liquidity);;
  r1 ← SafeMath.sub (reserve1 p) amountToken1;
  store (set_reserve1 r1);;
  r2 ← SafeMath.sub (reserve2 p) amountToken2;
  store (set_reserve2 r2);;
  _updateConstantFormula;;
  IERC20 (token1 p) (ERC20.transfer this msg_sender amountToken1);;
  IERC20 (token2 p) (ERC20.transfer this msg_sender amountToken2);;
  emit (LiquidityRemoved msg_sender amountToken1 amountToken2 liquidity).

Definition swapTokens (this msg_sender fromToken toToken : address)
    (amountIn amountOut : uint256) : M Ctx unit :=
  p ← gets self;
  require ((0 <? amountIn) && (0 <? amountOut)) "Amount must be greater than 0";;
  require (((fromToken =? token1 p) && (toToken =? token2 p))
           || ((fromToken =? token1 p) && (toToken =? token2 p)))
    "Tokens need to be pairs of this liquidity pool";;
  balanceFrom ← IERC20 fromToken (t ← get; mret (balanceOf t msg_sender));
  require (amountIn <? balanceFrom) "Insufficient balance of tokenFrom";;
  balanceTo ← IERC20 toToken (t ← get; mret (balanceOf t this));
  require (amountOut <? balanceTo) "Insufficient balance of tokenTo";;
  expectedAmount ←
    (if fromToken =? token1 p then
       d ← Checked.add (reserve1 p) amountIn;
       q ← Checked.div (constantK p) d;
       Checked.sub (reserve2 p) q
     else
       d ← Checked.add (reserve2 p) amountIn;
       q ← Checked.div (constantK p) d;
       Checked.sub (reserve1 p) q);
  require (amountOut <=? expectedAmount) "Swap does not preserve constant formula";;
  ok ← IERC20 fromToken (ERC20.transferFrom this msg_sender this amountIn);
  require ok "Transfer of token failed";;
  ok ← IERC20 toToken (ERC20.transfer this msg_sender expectedAmount);
  require ok "Transfer of token to failed";;
  (if (fromToken =? token1 p) && (toToken =? token2 p) then
     r1 ← SafeMath.add (reserve1 p) amountIn;
     store (set_reserve1 r1);;
     r2 ← SafeMath.sub (reserve2 p) expectedAmount;
     store (set_reserve2 r2)
   else
     r1 ← SafeMath.sub (reserve1 p) expectedAmount;
     store (set_reserve1 r1);;
     r2 ← SafeMath.add (reserve2 p) amountIn;
     store (set_reserve2 r2));;
  p' ← gets self;
  k ← SafeMath.mul (reserve1 p') (reserve2 p');
  require (k =? constantK p') "Swap does not preserve constant formula";;
  emit (Swap msg_sender amountIn expectedAmount fromToken toToken).

Definition getReserves : M Ctx (uint256 * uint256) :=
  p ← gets self;
  mret (reserve1 p, reserve2 p).

End NebuPool.

(** ** The registry and the chain it lives on *)

Record NebuSwap : Type := mkNebuSwap {
  allPairs : list Z;
  getPair : gmap (Z * Z) Z
}.

(** [getPair[a][b]], with the zero address for a missing entry. *)
Definition pairOf (r : NebuSwap) (a b : address) : address :=
  default 0 (getPair r !! (a, b)).

(** The registry, the pools it has deployed, the token contracts of the
    environment, the event log, and the number of contracts the registry
    has created so far. *)
Record World : Type := mkWorld {
  nebuSwap : NebuSwap;
  pools : gmap Z NebuPool;
  tokens : gmap Z ERC20;
  events : list Event;
  nonce : nat
}.

Definition initial (ts : gmap Z ERC20) : World :=
  mkWorld (mkNebuSwap [] ∅) ∅ ts [] 0.

Definition set_nebuSwap (r : NebuSwap) (w : World) : World :=
  mkWorld r (pools w) (tokens w) (events w) (nonce w).

Definition set_tokens (ts : gmap Z ERC20) (w : World) : World :=
  mkWorld (nebuSwap w) (pools w) ts (events w) (nonce w).

Definition set_getPair (a b pair : address) (r : NebuSwap) : NebuSwap :=
  mkNebuSwap (allPairs r) (<[(a, b) := pair]> (getPair r)).

Definition push_allPairs (pair : address) (r : NebuSwap) : NebuSwap :=
  mkNebuSwap (allPairs r ++ [pair]) (getPair r).

(** A transaction sent to the pool at address [pool]. *)
Definition call_pool {A} (pool : address) (f : M Ctx A) : M World A :=
  fun w =>
    match pools w !! pool with
    | None => Revert CallToNonContract
    | Some p =>
        match f (mkCtx p (tokens w) (events w)) with
        | Ok (a, c) =>
            Ok (a, mkWorld (nebuSwap w) (<[pool := self c]> (pools w))
                     (erc20s c) (logs c) (nonce w))
        | Revert e => Revert e
        end
    end.

Section Deployment.

(** The address at which the registry's [n]-th [new NebuPool] lands; the
    chain derives it from the registry's address and creation count. *)
Variable pool_address : nat -> address.

Definition new_NebuPool (_token1 _token2 : address)
    (_liquidityTokenName _liquidityTokenSymbol : string) : M World address :=
  fun w =>
    let this := pool_address (nonce w) in
    match pools w !! this with
    | Some _ => Revert CreateCollision
    | None =>
        Ok (this,
            mkWorld (nebuSwap w)
              (<[this := NebuPool.constructor this _token1 _token2
                           _liquidityTokenName _liquidityTokenSymbol]> (pools w))
              (tokens w) (events w) (S (nonce w)))
    end.

(** The registry's functions. *)

Definition createPairs (token1 token2 : address) (token1Name token2Name : string)
    : M World address :=
  r ← gets nebuSwap;
  require (negb (token1 =? token2)) "Identical address is not allowed";;
  require (pairOf r token1 token2 =? 0) "Pair already exists";;
  let liquidityTokenName :=
    String.append "Liquidity-" (String.append token1Name (String.append "-" token2Name)) in
  let liquidityTokenSymbol :=
    String.append "LP-" (String.append token1Name (String.append "-" token2Name)) in
  nebuPool ← new_NebuPool token1 token2 liquidityTokenName liquidityTokenSymbol;
  modify (fun w => set_nebuSwap (set_getPair token1 token2 nebuPool (nebuSwap w)) w);;
  modify (fun w => set_nebuSwap (set_getPair token2 token1 nebuPool (nebuSwap w)) w);;
  modify (fun w => set_nebuSwap (push_allPairs nebuPool (nebuSwap w)) w);;
  modify (fun w => mkWorld (nebuSwap w) (pools w) (tokens w)
                     (events w ++ [PairCreated token1 token2 nebuPool]) (nonce w));;
  mret nebuPool.

Definition allPairsLength : M World uint256 :=
  r ← gets nebuSwap;
  mret (Z.of_nat (length (allPairs r))).

Definition getPairs : M World (list Z) :=
  r ← gets nebuSwap;
  mret (allPairs r).

(** ** Reachable states

    One step is one successful transaction: a call of the registry, a call
    of a deployed pool, a holder moving shares of a pool's ledger, or any
    change of the token contracts, which the environment owns. *)

Inductive step : World -> World -> Prop :=
| step_createPairs token1 token2 n1 n2 w a w' :
    createPairs token1 token2 n1 n2 w = Ok (a, w') ->
    step w w'
| step_addLiquidity pool sender amountToken1 amountToken2 w w' :
    is_uint256 amountToken1 -> is_uint256 amountToken2 ->
    call_pool pool (NebuPool.addLiquidity pool sender amountToken1 amountToken2) w
      = Ok (tt, w') ->
    step w w'
| step_removeLiquidity pool sender liquidity w w' :
    is_uint256 liquidity ->
    call_pool pool (NebuPool.removeLiquidity pool sender liquidity) w = Ok (tt, w') ->
    step w w'
| step_swapTokens pool sender fromToken toToken amountIn amountOut w w' :
    is_uint256 amountIn -> is_uint256 amountOut ->
    call_pool pool (NebuPool.swapTokens pool sender fromToken toToken amountIn amountOut) w
      = Ok (tt, w') ->
    step w w'
| step_share_transfer pool holder to value ok w w' :
    is_uint256 value ->
    call_pool pool (LP (NebulaLiquidityToken.super (ERC20.transfer holder to value))) w
      = Ok (ok, w') ->
    step w w'
| step_share_approve pool holder spender value ok w w' :
    is_uint256 value ->
    call_pool pool (LP (NebulaLiquidityToken.super (ERC20.approve holder spender value))) w
      = Ok (ok, w') ->
    step w w'
| step_share_transferFrom pool spender from to value ok w w' :
    is_uint256 value ->
    call_pool pool
      (LP (NebulaLiquidityToken.super (ERC20.transferFrom spender from to value))) w
      = Ok (ok, w') ->
    step w w'
| step_environment ts w :
    step w (set_tokens ts w).

Inductive reachable : World -> Prop :=
| reachable_initial ts : reachable (initial ts)
| reachable_step w w' : reachable w -> step w w' -> reachable w'.

Inductive steps : World -> World -> Prop :=
| steps_refl w : steps w w
| steps_step w w' w'' : steps w w' -> step w' w'' -> steps w w''.

End Deployment.

(** ** The quote as the spec words it

    The spec recomputes the product from the reserves at every quote:
    [amountOut = reserveOut - K / (reserveIn + amountIn)] with
    [K = reserveIn * reserveOut]. *)
Definition spec_quote (fromToken : address) (amountIn : uint256) : M Ctx uint256 :=
  p ← gets self;
  require (0 <? amountIn) "AmountIn must be greater than 0";;
  require ((fromToken =? token1 p) || (fromToken =? token2 p)) "Invalid fromToken";;
  let (reserveIn, reserveOut) :=
    if fromToken =? token1 p then (reserve1 p, reserve2 p) else (reserve2 p, reserve1 p) in
  let K := reserveIn * reserveOut in
  d ← Checked.add reserveIn amountIn;
  q ← Checked.div K d;
  Checked.sub reserveOut q.

(** The spec's sentence that the product is never stored, read on one
    transaction: no pool's field [constantK] holds another value after the
    transaction than before it. *)
Definition records_no_product (w w' : World) : Prop :=
  forall a p p', pools w !! a = Some p -> pools w' !! a = Some p' ->
    constantK p' = constantK p.

(** ** Predicates used by the statements *)

(** The stored product agrees with the reserves. *)
Definition pool_inv (p : NebuPool) : Prop :=
  constantK p = reserve1 p * reserve2 p.

Definition world_inv (w : World) : Prop :=
  forall a p, pools w !! a = Some p -> pool_inv p.

(** Every deployed pool is registered under its own pair, in both orders,
    and the registry is symmetric. *)
Definition registry_inv (w : World) : Prop :=
  pools w !! 0 = None /\
  (forall a p, pools w !! a = Some p ->
     pairOf (nebuSwap w) (token1 p) (token2 p) = a /\
     pairOf (nebuSwap w) (token2 p) (token1 p) = a) /\
  (forall X Y, pairOf (nebuSwap w) X Y = pairOf (nebuSwap w) Y X).

(** The token contract [token] exists, and [from] holds and has approved to
    [spender] at least [value] of it. *)
Definition can_pull (ts : gmap Z ERC20) (token spender from : address) (value : uint256)
    : Prop :=
  exists t, ts !! token = Some t /\
    value <= allowance t from spender /\ value <= balanceOf t from.

(** The token contract [token] exists and [holder] holds at least [value]. *)
Definition can_pay (ts : gmap Z ERC20) (token holder : address) (value : uint256) : Prop :=
  exists t, ts !! token = Some t /\ value <= balanceOf t holder.

(** The shares of [holder] in a pool. *)
Definition sharesOf (p : NebuPool) (holder : address) : uint256 :=
  balanceOf (erc20 (liquidityToken p)) holder.

Definition shareSupply (p : NebuPool) : uint256 :=
  totalSupply (erc20 (liquidityToken p)).

(** The outcome of a call without the state it leaves. *)
Definition outcome {S A} (r : result (A * S)) : result A :=
  match r with
  | Ok (a, _) => Ok a
  | Revert e => Revert e
  end.

(** ** A concrete chain

    Two funded token contracts, a provider and a trader who have approved
    the first pool, and the states the spec's scenarios walk through. *)
Module Scenario.

Definition tokenA : address := 1001.
Definition tokenB : address := 1002.
Definition alice : address := 2001.
Definition bob : address := 2002.

Definition pool_address (n : nat) : address := 5000 + Z.of_nat n.
Definition pool0 : address := 5000.

Definition funded : ERC20 :=
  mkERC20 2000000
    (<[alice := 1000000]> (<[bob := 1000000]> ∅))
    (<[(alice, pool0) := 1000000]> (<[(bob, pool0) := 1000000]> ∅)).

Definition exec {A} (m : M World A) (w : World) : World :=
  match m w with
  | Ok (_, w') => w'
  | Revert _ => w
  end.

Definition w0 : World := initial (<[tokenA := funded]> (<[tokenB := funded]> ∅)).

(** The pair is created. *)
Definition w1 : World := exec (createPairs pool_address tokenA tokenB "A" "B") w0.

(** First deposit: reserves (100, 400), 200 shares. *)
Definition w2 : World := exec (call_pool pool0 (NebuPool.addLiquidity pool0 alice 100 400)) w1.

(** Proportional deposit: reserves (110, 440), 220 shares. *)
Definition w3 : World := exec (call_pool pool0 (NebuPool.addLiquidity pool0 alice 10 40)) w2.

(** A swap that divides evenly: 100 of the first asset for 200 of the
    second leaves reserves (200, 200). *)
Definition w2_swapped : World :=
  exec (call_pool pool0 (NebuPool.swapTokens pool0 bob tokenA tokenB 100 200)) w2.

(** A lopsided deposit into the funded pool. *)
Definition w2_lopsided : World :=
  exec (call_pool pool0 (NebuPool.addLiquidity pool0 bob 1000 1)) w2.

(** The pool's storage and surroundings in a state of the chain. *)
Definition ctx_of (w : World) : Ctx :=
  mkCtx (default (NebuPool.constructor pool0 tokenA tokenB "" "") (pools w !! pool0))
    (tokens w) (events w).

Definition pool_of (w : World) : NebuPool := self (ctx_of w).

(** The ledger of a token contract in a state of the chain. *)
Definition token_of (w : World) (token : address) : ERC20 :=
  default (mkERC20 0 ∅ ∅) (tokens w !! token).

End Scenario.

(** ** Well-formed ledgers and pools *)

(** The sum of all balances of a ledger. *)
Definition sum_balances (t : ERC20) : Z :=
  map_fold (fun (_ : Z) (v acc : Z) => v + acc) 0 (balances t).

(** No balance is negative, the balances add up to the total supply, and the
    supply fits in 256 bits. *)
Definition ledger_ok (t : ERC20) : Prop :=
  (forall a v, balances t !! a = Some v -> 0 <= v) /\
  sum_balances t = totalSupply t /\
  totalSupply t <= MAX_UINT256.

(** The shape of a pool deployed at address [a]: its share ledger is
    consistent and administered by the pool alone, its reserves and stored
    product are 256-bit values, it holds reserves exactly when it has
    issued shares, the square of the share supply does not exceed the
    product of the reserves, and its two assets differ. *)
Definition pool_ok (a : address) (p : NebuPool) : Prop :=
  ledger_ok (erc20 (liquidityToken p)) /\
  DEFAULT_ADMIN_ROLE (liquidityToken p) = {[ a ]} /\
  is_uint256 (reserve1 p) /\ is_uint256 (reserve2 p) /\
  constantK p = reserve1 p * reserve2 p /\
  constantK p <= MAX_UINT256 /\
  (shareSupply p = 0 -> reserve1 p = 0 /\ reserve2 p = 0) /\
  (0 < shareSupply p -> 0 < reserve1 p /\ 0 < reserve2 p) /\
  shareSupply p * shareSupply p <= constantK p /\
  token1 p <> token2 p.

Definition world_ok (w : World) : Prop :=
  forall a p, pools w !! a = Some p -> pool_ok a p.

(** ** Holdings of the traded assets *)

(** What [holder] holds of the asset at [token]; zero where no contract is
    deployed. *)
Definition holding (ts : gmap Z ERC20) (token holder : address) : uint256 :=
  match ts !! token with
  | Some t => balanceOf t holder
  | None => 0
  end.

(** The change of [holder]'s holding of the asset [tk] when [value] of the
    asset [token] moves from [from] to [to]. *)
Definition moved (token from to : address) (value : uint256) (tk holder : address) : Z :=
  if decide (tk = token) then
    (if decide (holder = to) then value else 0)
    - (if decide (holder = from) then value else 0)
  else 0.

(** ** The shape of the registry *)

(** The shape of the registry in a state of the chain: [allPairs] lists the
    addresses of the deployed pools in the order of their creation, without
    repetition, and every entry of [getPair] that is not the zero address
    is a deployed pool that trades the two assets of the entry. *)
Definition registry_ok (pool_address : nat -> address) (w : World) : Prop :=
  allPairs (nebuSwap w) = pool_address <$> seq 0 (nonce w) /\
  NoDup (allPairs (nebuSwap w)) /\
  (forall a, a ∈ allPairs (nebuSwap w) <-> is_Some (pools w !! a)) /\
  (forall X Y, pairOf (nebuSwap w) X Y <> 0 ->
     exists p, pools w !! pairOf (nebuSwap w) X Y = Some p /\
       ((token1 p = X /\ token2 p = Y) \/ (token1 p = Y /\ token2 p = X))).

(** ** The token-id numerals and token URIs of [AgentNFT]

    [uint2str] is a pure function over [uint256] and a byte buffer.  Its
    arithmetic is checked and its buffer writes are bounds-checked, so a
    run either returns the string or stops with a panic.
    [generateTokenURI] builds its text around two calls of it. *)
Module AgentNFT.

Local Open Scope N_scope.

Definition MAX : N := 2 ^ 256 - 1.

Inductive Panic : Type :=
| Overflow
| ArrayOutOfBounds.

Definition add (a b : N) : Panic + N :=
  if a + b <=? MAX then inr (a + b) else inl Overflow.

Definition sub (a b : N) : Panic + N :=
  if b <=? a then inr (a - b) else inl Overflow.

(** [buffer[i] = b]. *)
Definition index_write (buffer : list N) (i : N) (b : N) : Panic + list N :=
  if i <? N.of_nat (length buffer) then inr (<[N.to_nat i := b]> buffer)
  else inl ArrayOutOfBounds.

Definition uint8 (x : N) : N := x mod 256.

(** Both loops divide their counter by ten until it is zero; the binary
    size of the counter shrinks at every round. *)
Definition size_div_10 (n : N) :
  n <> 0 -> (N.to_nat (N.size (n / 10)) < N.to_nat (N.size n))%nat.
Proof.
  intros Hn. destruct (N.eq_dec (n / 10) 0) as [E|E].
  - rewrite E, (N.size_log2 n) by assumption. cbn. lia.
  - rewrite !N.size_log2 by assumption.
    assert (N.log2 (n / 10) < N.log2 n) as Hlt; [|clear E Hn; lia].
    assert (H2 : 2 * (n / 10) <= n).
    { pose proof (N.Div0.mul_div_le n 10). clear E Hn. lia. }
    apply N.log2_le_mono in H2.
    rewrite N.log2_double in H2 by (apply N.neq_0_lt_0; exact E).
    apply N.le_succ_l. exact H2.
Defined.

(** [while (temp != 0) { digits++; temp /= 10; }] *)
Equations count_digits (temp digits : N) : Panic + N by wf (N.to_nat (N.size temp)) lt :=
  count_digits temp digits :=
    match N.eq_dec temp 0 with
    | left _ => inr digits
    | right H =>
        match add digits 1 with
        | inl e => inl e
        | inr d => count_digits (temp / 10) d
        end
    end.
Next Obligation. apply size_div_10. assumption. Defined.

(** [while (value != 0) { digits -= 1;
      buffer[digits] = bytes1(uint8(48 + uint256(value % 10))); value /= 10; }] *)
Equations write_digits (value digits : N) (buffer : list N) : Panic + list N
    by wf (N.to_nat (N.size value)) lt :=
  write_digits value digits buffer :=
    match N.eq_dec value 0 with
    | left _ => inr buffer
    | right H =>
        match sub digits 1 with
        | inl e => inl e
        | inr d =>
            match add 48 (value mod 10) with
            | inl e => inl e
            | inr c =>
                match index_write buffer d (uint8 c) with
                | inl e => inl e
                | inr buffer' => write_digits (value / 10) d buffer'
                end
            end
        end
    end.
Next Obligation. apply size_div_10. assumption. Defined.

(** [string(buffer)]. *)
Definition string_of_bytes (b : list N) : string :=
  string_of_list_ascii (map ascii_of_N b).

Definition uint2str (value : N) : Panic + string :=
  if value =? 0 then inr "0"%string
  else
    match count_digits value 0 with
    | inl e => inl e
    | inr digits =>
        match write_digits value digits (replicate (N.to_nat digits) 0) with
        | inl e => inl e
        | inr buffer => inr (string_of_bytes buffer)
        end
    end.

(** The double-quote character of the JSON text. *)
Definition dquote : string := String "034"%char EmptyString.

(** [abi.encodePacked] of strings. *)
Definition encodePacked (parts : list string) : string :=
  fold_right String.append EmptyString parts.

Section TokenURI.

(** [Base64.encode] of the OpenZeppelin library, which is not among the
    sources; the function is kept abstract. *)
Variable Base64_encode : string -> string.

Definition generateTokenURI (tokenId : N) : Panic + string :=
  match uint2str tokenId with
  | inl e => inl e
  | inr number =>
      let svg := encodePacked [
        "<svg xmlns='http://www.w3.org/2000/svg' viewBox='0 0 400 400'>";
        "<style>.base { fill: white; font-family: sans-serif; }</style>";
        "<rect width='100%' height='100%' fill='#1A1A1A'/>";
        "<text x='50%' y='35%' class='base' text-anchor='middle' font-size='24'>AI Minted NFT</text>";
        "<text x='50%' y='50%' class='base' text-anchor='middle' font-size='18'>#";
        number; "</text>";
        "</svg>" ]%string in
      let imageURI :=
        encodePacked [ "data:image/svg+xml;base64,"%string; Base64_encode svg ] in
      match uint2str tokenId with
      | inl e => inl e
      | inr number' =>
          let json := encodePacked [
            String.append "{" (String.append dquote
              (String.append "name" (String.append dquote
                 (String.append ": " (String.append dquote "AI Minted NFT #")))));
            number';
            String.append dquote ", ";
            String.append dquote
              (String.append "description" (String.append dquote
                 (String.append ": " (String.append dquote
                    (String.append "A unique AI-generated NFT"
                       (String.append dquote ", "))))));
            String.append dquote
              (String.append "image" (String.append dquote
                 (String.append ": " dquote)));
            imageURI;
            String.append dquote "}" ] in
          inr (encodePacked [ "data:application/json;base64,"%string; Base64_encode json ])
      end
  end.

End TokenURI.

End AgentNFT.

(** ** Decimal numerals, as the reference for [uint2str]

    The character codes of the decimal digits of a number, most significant
    first; the empty list for zero. *)
Equations decimal_digits (n : N) : list N by wf (N.to_nat (N.size n)) lt :=
  decimal_digits n :=
    match N.eq_dec n 0%N with
    | left _ => []
    | right H => decimal_digits (n / 10)%N ++ [(48 + n mod 10)%N]
    end.
Next Obligation. apply AgentNFT.size_div_10. assumption. Defined.

(** The number a string of decimal digits denotes. *)
Definition parse_uint (s : string) : N :=
  fold_left (fun acc c => (10 * acc + (N_of_ascii c - 48))%N) (list_ascii_of_string s) 0%N.

Definition is_digit (c : ascii) : bool :=
  ((48 <=? N_of_ascii c) && (N_of_ascii c <=? 57))%N.

(** ** Withdrawals on the concrete chain *)
Module Withdrawals.

(** The shares of the proportional deposit are handed back: reserves
    (100, 400) and 200 shares again. *)
Definition w3_withdrawn : World :=
  Scenario.exec
    (call_pool Scenario.pool0 (NebuPool.removeLiquidity Scenario.pool0 Scenario.alice 20))
    Scenario.w3.

(** The only provider withdraws everything. *)
Definition w2_emptied : World :=
  Scenario.exec
    (call_pool Scenario.pool0 (NebuPool.removeLiquidity Scenario.pool0 Scenario.alice 200))
    Scenario.w2.

End Withdrawals.

(** * Verification *)

(** ** Inversion of successful runs *)

Lemma bind_Ok {S A B} (m : M S A) (f : A -> M S B) (s : S) (r : B * S) :
  (m ≫= f) s = Ok r -> exists a s', m s = Ok (a, s') /\ f a s' = Ok r.
Proof.
  unfold mbind, M_bind. destruct (m s) as [[a s']|e]; [eauto | discriminate].
Qed.

Lemma bind_eval {S A B} (m : M S A) (f : A -> M S B) (s s' : S) (a : A) :
  m s = Ok (a, s') -> (m ≫= f) s = f a s'.
Proof. unfold mbind, M_bind. intros ->. reflexivity. Qed.

Lemma bind_Revert {S A B} (m : M S A) (f : A -> M S B) (s : S) (e : revert) :
  m s = Revert e -> (m ≫= f) s = Revert e.
Proof. unfold mbind, M_bind. intros ->. reflexivity. Qed.

Lemma mret_Ok {S A} (a : A) (s : S) (r : A * S) :
  (mret a : M S A) s = Ok r -> r = (a, s).
Proof. unfold mret, M_ret. congruence. Qed.

Lemma gets_Ok {S A} (f : S -> A) (s : S) (r : A * S) :
  gets f s = Ok r -> r = (f s, s).
Proof. unfold gets. congruence. Qed.

Lemma get_Ok {S} (s : S) (r : S * S) : get s = Ok r -> r = (s, s).
Proof. unfold get. congruence. Qed.

Lemma modify_Ok {S} (f : S -> S) (s : S) (r : unit * S) :
  modify f s = Ok r -> r = (tt, f s).
Proof. unfold modify. congruence. Qed.

Lemma throw_Ok {S A} (e : revert) (s : S) (r : A * S) : throw e s = Ok r -> False.
Proof. discriminate. Qed.

Lemma require_Ok {S} (cond : bool) (reason : string) (s : S) (r : unit * S) :
  require cond reason s = Ok r -> cond = true /\ r = (tt, s).
Proof.
  unfold require, throw, mret, M_ret.
  destruct cond; [split; congruence | discriminate].
Qed.

Lemma add_Ok {S} (a b : Z) (s : S) (r : Z * S) :
  Checked.add a b s = Ok r -> a + b <= MAX_UINT256 /\ r = (a + b, s).
Proof.
  unfold Checked.add, throw, mret, M_ret. destruct (Z.leb_spec (a + b) MAX_UINT256);
    [split; congruence | discriminate].
Qed.

Lemma sub_Ok {S} (a b : Z) (s : S) (r : Z * S) :
  Checked.sub a b s = Ok r -> b <= a /\ r = (a - b, s).
Proof.
  unfold Checked.sub, throw, mret, M_ret. destruct (Z.leb_spec b a);
    [split; congruence | discriminate].
Qed.

Lemma mul_Ok {S} (a b : Z) (s : S) (r : Z * S) :
  Checked.mul a b s = Ok r -> a * b <= MAX_UINT256 /\ r = (a * b, s).
Proof.
  unfold Checked.mul, throw, mret, M_ret. destruct (Z.leb_spec (a * b) MAX_UINT256);
    [split; congruence | discriminate].
Qed.

Lemma div_Ok {S} (a b : Z) (s : S) (r : Z * S) :
  Checked.div a b s = Ok r -> b <> 0 /\ r = (a / b, s).
Proof.
  unfold Checked.div, throw, mret, M_ret. destruct (Z.eqb_spec b 0);
    [discriminate | split; congruence].
Qed.

Lemma IERC20_Ok {A} (token : address) (f : M ERC20 A) (c : Ctx) (r : A * Ctx) :
  IERC20 token f c = Ok r ->
  exists t a t', erc20s c !! token = Some t /\ f t = Ok (a, t') /\
    r = (a, mkCtx (self c) (<[token := t']> (erc20s c)) (logs c)).
Proof.
  unfold IERC20. destruct (erc20s c !! token) as [t|]; [|discriminate].
  destruct (f t) as [[a t']|e] eqn:E; [|discriminate].
  intros [= <-]. exists t, a, t'. auto.
Qed.

Lemma LP_Ok {A} (f : M NebulaLiquidityToken A) (c : Ctx) (r : A * Ctx) :
  LP f c = Ok r ->
  exists a l, f (liquidityToken (self c)) = Ok (a, l) /\
    r = (a, set_self (set_liquidityToken l (self c)) c).
Proof.
  unfold LP. destruct (f _) as [[a l]|e]; [|discriminate].
  intros [= <-]. eauto.
Qed.

Lemma call_pool_Ok {A} (pool : address) (f : M Ctx A) (w : World) (r : A * World) :
  call_pool pool f w = Ok r ->
  exists p a c, pools w !! pool = Some p /\
    f (mkCtx p (tokens w) (events w)) = Ok (a, c) /\
    r = (a, mkWorld (nebuSwap w) (<[pool := self c]> (pools w)) (erc20s c) (logs c) (nonce w)).
Proof.
  unfold call_pool. destruct (pools w !! pool) as [p|]; [|discriminate].
  destruct (f _) as [[a c]|e] eqn:E; [|discriminate].
  intros [= <-]. exists p, a, c. auto.
Qed.

(** Splits a successful run of a sequence of statements into the successful
    runs of its statements. *)
Ltac inv_pair H := inversion H; subst; clear H.

Ltac monad_inv1 :=
  match goal with
  | H : (_ ≫= _) _ = Ok _ |- _ =>
      apply bind_Ok in H; destruct H as (? & ? & ? & H)
  | H : @mret _ _ _ _ _ = Ok _ |- _ => apply mret_Ok in H
  | H : gets _ _ = Ok _ |- _ => apply gets_Ok in H
  | H : get _ = Ok _ |- _ => apply get_Ok in H
  | H : modify _ _ = Ok _ |- _ => apply modify_Ok in H
  | H : store _ _ = Ok _ |- _ => apply modify_Ok in H
  | H : emit _ _ = Ok _ |- _ => apply modify_Ok in H
  | H : console_log _ _ _ = Ok _ |- _ => apply mret_Ok in H
  | H : throw _ _ = Ok _ |- _ => destruct (throw_Ok _ _ _ H)
  | H : require _ _ _ = Ok _ |- _ => apply require_Ok in H; destruct H as [? H]
  | H : Checked.add _ _ _ = Ok _ |- _ => apply add_Ok in H; destruct H as [? H]
  | H : Checked.sub _ _ _ = Ok _ |- _ => apply sub_Ok in H; destruct H as [? H]
  | H : Checked.mul _ _ _ = Ok _ |- _ => apply mul_Ok in H; destruct H as [? H]
  | H : Checked.div _ _ _ = Ok _ |- _ => apply div_Ok in H; destruct H as [? H]
  | H : SafeMath.add _ _ _ = Ok _ |- _ => apply add_Ok in H; destruct H as [? H]
  | H : SafeMath.sub _ _ _ = Ok _ |- _ => apply sub_Ok in H; destruct H as [? H]
  | H : SafeMath.mul _ _ _ = Ok _ |- _ => apply mul_Ok in H; destruct H as [? H]
  | H : SafeMath.div _ _ _ = Ok _ |- _ => apply div_Ok in H; destruct H as [? H]
  | H : (if ?b then _ else _) _ = Ok _ |- _ => destruct b eqn:?
  | H : (_, _) = (_, _) |- _ => inv_pair H
  | H : ?x = (_, _) |- _ => is_var x; subst x
  end.

Ltac monad_inv := repeat monad_inv1.

(** ** The stored product *)

Lemma updateConstantFormula_Ok (c : Ctx) (r : unit * Ctx) :
  NebuPool._updateConstantFormula c = Ok r ->
  r = (tt, set_self (set_constantK (reserve1 (self c) * reserve2 (self c)) (self c)) c).
Proof.
  unfold NebuPool._updateConstantFormula. intros H. monad_inv.
  - f_equal. unfold set_self, set_constantK. cbn.
    apply orb_true_iff in Heqb. destruct Heqb as [E|E]; apply Z.eqb_eq in E;
      rewrite E; rewrite ?Z.mul_0_l, ?Z.mul_0_r; reflexivity.
  - reflexivity.
Qed.

Ltac call_inv1 :=
  match goal with
  | H : IERC20 _ _ _ = Ok _ |- _ =>
      apply IERC20_Ok in H; destruct H as (? & ? & ? & ? & ? & H)
  | H : LP _ _ = Ok _ |- _ =>
      apply LP_Ok in H; destruct H as (? & ? & ? & H)
  | H : NebuPool._updateConstantFormula _ = Ok _ |- _ =>
      apply updateConstantFormula_Ok in H
  end.

Ltac pool_inv :=
  repeat ((monad_inv1 || call_inv1);
          cbn [self erc20s logs set_self fst snd] in * ).

Lemma addLiquidity_pool_inv this sender a1 a2 (c c' : Ctx) :
  NebuPool.addLiquidity this sender a1 a2 c = Ok (tt, c') -> pool_inv (self c').
Proof.
  unfold NebuPool.addLiquidity. intros H. pool_inv; unfold pool_inv; reflexivity.
Qed.

Lemma removeLiquidity_pool_inv this sender liquidity (c c' : Ctx) :
  NebuPool.removeLiquidity this sender liquidity c = Ok (tt, c') -> pool_inv (self c').
Proof.
  unfold NebuPool.removeLiquidity. intros H. pool_inv; unfold pool_inv; reflexivity.
Qed.

Lemma swapTokens_product this sender fromToken toToken amountIn amountOut (c c' : Ctx) :
  NebuPool.swapTokens this sender fromToken toToken amountIn amountOut c = Ok (tt, c') ->
  reserve1 (self c') * reserve2 (self c') = constantK (self c) /\
  constantK (self c') = constantK (self c).
Proof.
  unfold NebuPool.swapTokens. intros H. pool_inv; cbn in *;
    match goal with E : (_ =? _) = true |- _ => apply Z.eqb_eq in E; rewrite E end;
    split; reflexivity.
Qed.

Lemma share_ledger_call {A} (f : M ERC20 A) (c c' : Ctx) (a : A) :
  LP (NebulaLiquidityToken.super f) c = Ok (a, c') ->
  reserve1 (self c') = reserve1 (self c) /\
  reserve2 (self c') = reserve2 (self c) /\
  constantK (self c') = constantK (self c).
Proof.
  intros H. apply LP_Ok in H. destruct H as (a' & l & _ & H). inv_pair H.
  repeat split; reflexivity.
Qed.

(** ** What a pool call leaves alone *)

Lemma addLiquidity_tokens this sender a1 a2 (c c' : Ctx) :
  NebuPool.addLiquidity this sender a1 a2 c = Ok (tt, c') ->
  token1 (self c') = token1 (self c) /\ token2 (self c') = token2 (self c).
Proof.
  unfold NebuPool.addLiquidity. intros H. pool_inv; split; reflexivity.
Qed.

Lemma removeLiquidity_tokens this sender liquidity (c c' : Ctx) :
  NebuPool.removeLiquidity this sender liquidity c = Ok (tt, c') ->
  token1 (self c') = token1 (self c) /\ token2 (self c') = token2 (self c).
Proof.
  unfold NebuPool.removeLiquidity. intros H. pool_inv; split; reflexivity.
Qed.

Lemma swapTokens_tokens this sender fromToken toToken amountIn amountOut (c c' : Ctx) :
  NebuPool.swapTokens this sender fromToken toToken amountIn amountOut c = Ok (tt, c') ->
  token1 (self c') = token1 (self c) /\ token2 (self c') = token2 (self c).
Proof.
  unfold NebuPool.swapTokens. intros H. pool_inv; split; reflexivity.
Qed.

Lemma share_ledger_tokens {A} (f : M ERC20 A) (c c' : Ctx) (a : A) :
  LP (NebulaLiquidityToken.super f) c = Ok (a, c') ->
  token1 (self c') = token1 (self c) /\ token2 (self c') = token2 (self c).
Proof.
  intros H. apply LP_Ok in H. destruct H as (a' & l & _ & H). inv_pair H.
  split; reflexivity.
Qed.

(** ** Invariants of the reachable states *)

Section Reachability.

Variable pool_address : nat -> address.

Lemma createPairs_Ok token1 token2 n1 n2 (w w' : World) (a : address) :
  createPairs pool_address token1 token2 n1 n2 w = Ok (a, w') ->
  token1 <> token2 /\ pairOf (nebuSwap w) token1 token2 = 0 /\
  a = pool_address (nonce w) /\ pools w !! a = None /\
  exists nm sy,
    w' = mkWorld
           (push_allPairs a (set_getPair token2 token1 a
                               (set_getPair token1 token2 a (nebuSwap w))))
           (<[a := NebuPool.constructor a token1 token2 nm sy]> (pools w))
           (tokens w) (events w ++ [PairCreated token1 token2 a]) (S (nonce w)).
Proof.
  unfold createPairs. intros H. monad_inv.
  repeat match goal with
  | E : negb _ = true |- _ => apply negb_true_iff, Z.eqb_neq in E
  | E : (_ =? _) = true |- _ => apply Z.eqb_eq in E
  | E : new_NebuPool _ _ _ _ _ _ = Ok _ |- _ =>
      unfold new_NebuPool in E;
      destruct (pools _ !! pool_address _) eqn:?; [discriminate|]; inv_pair E
  end.
  cbn. repeat split; eauto.
Qed.

Lemma call_pool_world_inv {A} pool (f : M Ctx A) (w w' : World) (a : A) :
  (forall c c', f c = Ok (a, c') -> pool_inv (self c) -> pool_inv (self c')) ->
  call_pool pool f w = Ok (a, w') ->
  world_inv w -> world_inv w'.
Proof.
  intros Hf H Hw. apply call_pool_Ok in H. destruct H as (p & a' & c & Hp & Hc & H).
  inv_pair H. intros b q. cbn. rewrite lookup_insert.
  case_decide.
  - intros [= <-]. eapply Hf; [eassumption|]. cbn. eauto.
  - apply Hw.
Qed.

Lemma step_world_inv (w w' : World) :
  step pool_address w w' -> world_inv w -> world_inv w'.
Proof.
  intros Hs Hw. destruct Hs.
  - apply createPairs_Ok in H. destruct H as (_ & _ & _ & _ & nm & sy & ->).
    intros b q. cbn. rewrite lookup_insert. case_decide.
    + intros [= <-]. reflexivity.
    + apply Hw.
  - eapply call_pool_world_inv; [|eassumption|assumption].
    intros c c' Hc _. eapply addLiquidity_pool_inv; eassumption.
  - eapply call_pool_world_inv; [|eassumption|assumption].
    intros c c' Hc _. eapply removeLiquidity_pool_inv; eassumption.
  - eapply call_pool_world_inv; [|eassumption|assumption].
    intros c c' Hc Hi. apply swapTokens_product in Hc. destruct Hc as [E1 E2].
    unfold pool_inv. congruence.
  - eapply call_pool_world_inv; [|eassumption|assumption].
    intros c c' Hc Hi. apply share_ledger_call in Hc. destruct Hc as (E1 & E2 & E3).
    unfold pool_inv in *. congruence.
  - eapply call_pool_world_inv; [|eassumption|assumption].
    intros c c' Hc Hi. apply share_ledger_call in Hc. destruct Hc as (E1 & E2 & E3).
    unfold pool_inv in *. congruence.
  - eapply call_pool_world_inv; [|eassumption|assumption].
    intros c c' Hc Hi. apply share_ledger_call in Hc. destruct Hc as (E1 & E2 & E3).
    unfold pool_inv in *. congruence.
  - exact Hw.
Qed.

Lemma reachable_world_inv (w : World) :
  reachable pool_address w -> world_inv w.
Proof.
  induction 1 as [ts | w w' _ IH Hs].
  - intros a p. cbn. rewrite lookup_empty. discriminate.
  - eapply step_world_inv; eassumption.
Qed.

(** C9. In every state reachable through successful createPairs,
    addLiquidity, removeLiquidity and swapTokens calls, every pool's stored
    [constantK] is the product of its two reserves when both are nonzero,
    and is zero when either reserve is zero. *)
Theorem constantK_tracks_reserves (w : World) (pool : address) (p : NebuPool) :
  reachable pool_address w ->
  pools w !! pool = Some p ->
  (reserve1 p <> 0 -> reserve2 p <> 0 -> constantK p = reserve1 p * reserve2 p) /\
  (reserve1 p = 0 \/ reserve2 p = 0 -> constantK p = 0).
Proof.
  intros Hr Hp. pose proof (reachable_world_inv w Hr pool p Hp) as Hi.
  unfold pool_inv in Hi. split.
  - intros _ _. exact Hi.
  - intros [E|E]; rewrite Hi, E; lia.
Qed.

(** C1. In every reachable state, a swap that completes successfully leaves
    the product of the pool's reserves greater than or equal to the product
    before the swap. *)
Theorem swap_never_decreases_product (w w' : World) (pool sender fromToken toToken : address)
    (amountIn amountOut : uint256) (p : NebuPool) :
  reachable pool_address w ->
  pools w !! pool = Some p ->
  call_pool pool (NebuPool.swapTokens pool sender fromToken toToken amountIn amountOut) w
    = Ok (tt, w') ->
  exists p', pools w' !! pool = Some p' /\
    reserve1 p' * reserve2 p' >= reserve1 p * reserve2 p.
Proof.
  intros Hr Hp H. pose proof (reachable_world_inv w Hr pool p Hp) as Hi.
  apply call_pool_Ok in H. destruct H as (q & a & c & Hq & Hc & H). inv_pair H.
  rewrite Hp in Hq. injection Hq as <-.
  exists (self c). cbn. rewrite lookup_insert_eq. split; [reflexivity|].
  apply swapTokens_product in Hc. destruct Hc as [E _]. cbn in E.
  unfold pool_inv in Hi. lia.
Qed.

End Reachability.

(** ** The registry *)

Section Registry.

Variable pool_address : nat -> address.

Lemma createPairs_identical (X : address) n1 n2 (w : World) :
  createPairs pool_address X X n1 n2 w = Revert (Error "Identical address is not allowed").
Proof.
  unfold createPairs, mbind, M_bind, gets, require. rewrite Z.eqb_refl. reflexivity.
Qed.

Lemma createPairs_duplicate (X Y : address) n1 n2 (w : World) :
  X <> Y -> pairOf (nebuSwap w) X Y <> 0 ->
  createPairs pool_address X Y n1 n2 w = Revert (Error "Pair already exists").
Proof.
  intros Hne Hp. unfold createPairs, mbind, M_bind, gets, require.
  apply Z.eqb_neq in Hne, Hp. rewrite Hne, Hp. reflexivity.
Qed.

Lemma pairOf_created (r : NebuSwap) (t1 t2 a X Y : address) :
  pairOf (push_allPairs a (set_getPair t2 t1 a (set_getPair t1 t2 a r))) X Y =
  if decide ((t2, t1) = (X, Y)) then a
  else if decide ((t1, t2) = (X, Y)) then a
  else pairOf r X Y.
Proof.
  unfold pairOf, push_allPairs, set_getPair. cbn. rewrite !lookup_insert.
  repeat case_decide; reflexivity.
Qed.

Lemma call_pool_nebuSwap {A} pool (f : M Ctx A) (w w' : World) (a : A) :
  call_pool pool f w = Ok (a, w') -> nebuSwap w' = nebuSwap w.
Proof.
  intros H. apply call_pool_Ok in H. destruct H as (p & a' & c & _ & _ & H).
  inv_pair H. reflexivity.
Qed.

(** An entry of the registry that is set in both orders is never
    overwritten. *)
Lemma step_pairOf (w w' : World) (X Y : address) :
  step pool_address w w' ->
  pairOf (nebuSwap w) X Y <> 0 -> pairOf (nebuSwap w) Y X <> 0 ->
  pairOf (nebuSwap w') X Y = pairOf (nebuSwap w) X Y.
Proof.
  intros Hs HXY HYX.
  destruct Hs;
    try (match goal with H : call_pool _ _ _ = Ok _ |- _ =>
           apply call_pool_nebuSwap in H; rewrite H; reflexivity end).
  - apply createPairs_Ok in H. destruct H as (_ & Hz & _ & _ & nm & sy & ->).
    cbn [nebuSwap]. rewrite pairOf_created.
    repeat case_decide; try reflexivity; congruence.
  - reflexivity.
Qed.

Lemma steps_pairOf (w w' : World) (X Y : address) :
  steps pool_address w w' ->
  pairOf (nebuSwap w) X Y <> 0 -> pairOf (nebuSwap w) Y X <> 0 ->
  pairOf (nebuSwap w') X Y = pairOf (nebuSwap w) X Y /\
  pairOf (nebuSwap w') Y X = pairOf (nebuSwap w) Y X.
Proof.
  induction 1 as [w | w w' w'' _ IH Hs]; intros HXY HYX; [split; reflexivity|].
  destruct (IH HXY HYX) as [E1 E2].
  rewrite <- E1, <- E2 in *.
  split; apply step_pairOf; assumption.
Qed.

Lemma steps_reachable (w w' : World) :
  reachable pool_address w -> steps pool_address w w' -> reachable pool_address w'.
Proof.
  intros Hr. induction 1 as [w | w w' w'' _ IH Hs]; [assumption|].
  eapply reachable_step; [apply IH; assumption | exact Hs].
Qed.

Hypothesis pool_address_nonzero : forall n, pool_address n <> 0.

Lemma call_pool_registry_inv {A} pool (f : M Ctx A) (w w' : World) (a : A) :
  (forall c c', f c = Ok (a, c') ->
     token1 (self c') = token1 (self c) /\ token2 (self c') = token2 (self c)) ->
  call_pool pool f w = Ok (a, w') ->
  registry_inv w -> registry_inv w'.
Proof.
  intros Hf H (Hz & Hp & Hs).
  apply call_pool_Ok in H. destruct H as (p & a' & c & Hpool & Hc & H). inv_pair H.
  apply Hf in Hc. cbn in Hc. destruct Hc as [E1 E2].
  assert (pool <> 0) by congruence.
  split; [|split]; cbn.
  - rewrite lookup_insert_ne; assumption.
  - intros b q. rewrite lookup_insert. case_decide.
    + intros [= <-]. rewrite E1, E2. subst b. apply Hp. assumption.
    + apply Hp.
  - exact Hs.
Qed.

Lemma step_registry_inv (w w' : World) :
  step pool_address w w' -> registry_inv w -> registry_inv w'.
Proof.
  intros Hstep Hi. destruct Hstep.
  - destruct Hi as (Hz & Hp & Hs).
    apply createPairs_Ok in H.
    destruct H as (Hne & Hfree & Ha & Hnew & nm & sy & ->).
    assert (a <> 0) by (subst a; apply pool_address_nonzero).
    split; [|split]; cbn [pools nebuSwap].
    + rewrite lookup_insert_ne; assumption.
    + intros b q. rewrite lookup_insert. case_decide.
      * intros [= <-]. cbn. rewrite !pairOf_created. subst b.
        split; repeat case_decide; congruence.
      * intros Hb. destruct (Hp b q Hb) as [E1 E2].
        assert (b <> 0) by congruence.
        rewrite !pairOf_created.
        split; repeat case_decide; try assumption;
          match goal with E : (_, _) = (_, _) |- _ => injection E as ?? end;
          subst; try congruence; rewrite Hs in Hfree; congruence.
    + intros X Y. rewrite !pairOf_created.
      repeat case_decide; try reflexivity; try apply Hs;
        repeat match goal with E : (_, _) = (_, _) |- _ => injection E as ?? end;
        subst; congruence.
  - eapply call_pool_registry_inv; [|eassumption|assumption].
    intros c c'. apply addLiquidity_tokens.
  - eapply call_pool_registry_inv; [|eassumption|assumption].
    intros c c'. apply removeLiquidity_tokens.
  - eapply call_pool_registry_inv; [|eassumption|assumption].
    intros c c'. apply swapTokens_tokens.
  - eapply call_pool_registry_inv; [|eassumption|assumption].
    intros c c'. apply share_ledger_tokens.
  - eapply call_pool_registry_inv; [|eassumption|assumption].
    intros c c'. apply share_ledger_tokens.
  - eapply call_pool_registry_inv; [|eassumption|assumption].
    intros c c'. apply share_ledger_tokens.
  - exact Hi.
Qed.

Lemma reachable_registry_inv (w : World) :
  reachable pool_address w -> registry_inv w.
Proof.
  induction 1 as [ts | w w' _ IH Hs].
  - split; [|split]; cbn.
    + apply lookup_empty.
    + intros a p. rewrite lookup_empty. discriminate.
    + intros X Y. unfold pairOf. cbn. rewrite !lookup_empty. reflexivity.
  - eapply step_registry_inv; eassumption.
Qed.

(** C7. Creating a pair of an asset with itself fails; once a pair has been
    created, creating it again in either order fails from then on, both
    orders look up the same pool, and no two deployed pools serve the same
    unordered pair. *)
Theorem registry_unique_and_symmetric :
  (forall (X : address) m1 m2 (w : World),
     createPairs pool_address X X m1 m2 w
       = Revert (Error "Identical address is not allowed")) /\
  (forall (w w1 w2 : World) (X Y p : address) n1 n2,
     reachable pool_address w ->
     createPairs pool_address X Y n1 n2 w = Ok (p, w1) ->
     steps pool_address w1 w2 ->
     (forall m1 m2,
        createPairs pool_address X Y m1 m2 w2 = Revert (Error "Pair already exists")) /\
     (forall m1 m2,
        createPairs pool_address Y X m1 m2 w2 = Revert (Error "Pair already exists")) /\
     pairOf (nebuSwap w2) X Y = p /\
     pairOf (nebuSwap w2) Y X = p /\
     p <> 0 /\
     (forall U V, pairOf (nebuSwap w2) U V = pairOf (nebuSwap w2) V U) /\
     (forall a b pa pb,
        pools w2 !! a = Some pa -> pools w2 !! b = Some pb ->
        (token1 pa = token1 pb /\ token2 pa = token2 pb) \/
        (token1 pa = token2 pb /\ token2 pa = token1 pb) ->
        a = b)).
Proof.
  split; [intros; apply createPairs_identical|].
  intros w w1 w2 X Y p n1 n2 Hr Hc Hsteps.
  assert (Hr2 : reachable pool_address w2).
  { eapply steps_reachable; [|eassumption].
    eapply reachable_step; [eassumption|]. eapply step_createPairs; eassumption. }
  destruct (reachable_registry_inv w2 Hr2) as (_ & Hpools & Hsym).
  apply createPairs_Ok in Hc.
  destruct Hc as (Hne & _ & Ha & _ & nm & sy & ->).
  assert (Hp0 : p <> 0) by (subst p; apply pool_address_nonzero).
  match type of Hsteps with steps _ ?w1 _ => set (w1' := w1) in * end.
  assert (E1 : pairOf (nebuSwap w1') X Y = p).
  { unfold w1'. cbn [nebuSwap]. rewrite pairOf_created.
    repeat case_decide; congruence. }
  assert (E2 : pairOf (nebuSwap w1') Y X = p).
  { unfold w1'. cbn [nebuSwap]. rewrite pairOf_created.
    repeat case_decide; congruence. }
  destruct (steps_pairOf w1' w2 X Y Hsteps) as [F1 F2]; [congruence | congruence |].
  rewrite E1 in F1. rewrite E2 in F2.
  split; [|split; [|split; [|split; [|split; [|split]]]]].
  - intros. apply createPairs_duplicate; congruence.
  - intros. apply createPairs_duplicate; congruence.
  - exact F1.
  - exact F2.
  - exact Hp0.
  - exact Hsym.
  - intros a b pa pb Ha' Hb' Hsame.
    destruct (Hpools a pa Ha') as [A1 A2]. destruct (Hpools b pb Hb') as [B1 B2].
    destruct Hsame as [[T1 T2]|[T1 T2]]; rewrite T1, T2 in *; congruence.
Qed.

End Registry.

(** ** Running a call forward *)

Lemma require_eval {S} (cond : bool) (reason : string) (s : S) :
  cond = true -> require cond reason s = Ok (tt, s).
Proof. intros ->. reflexivity. Qed.

Lemma require_fail {S} (cond : bool) (reason : string) (s : S) :
  cond = false -> require cond reason s = Revert (Error reason).
Proof. intros ->. reflexivity. Qed.

Lemma add_eval {S} (a b : Z) (s : S) :
  a + b <= MAX_UINT256 -> Checked.add a b s = Ok (a + b, s).
Proof.
  intros H. unfold Checked.add. destruct (Z.leb_spec (a + b) MAX_UINT256); [reflexivity | lia].
Qed.

Lemma sub_eval {S} (a b : Z) (s : S) :
  b <= a -> Checked.sub a b s = Ok (a - b, s).
Proof.
  intros H. unfold Checked.sub. destruct (Z.leb_spec b a); [reflexivity | lia].
Qed.

Lemma mul_eval {S} (a b : Z) (s : S) :
  a * b <= MAX_UINT256 -> Checked.mul a b s = Ok (a * b, s).
Proof.
  intros H. unfold Checked.mul. destruct (Z.leb_spec (a * b) MAX_UINT256); [reflexivity | lia].
Qed.

Lemma mul_overflow {S} (a b : Z) (s : S) :
  MAX_UINT256 < a * b -> Checked.mul a b s = Revert ArithmeticError.
Proof.
  intros H. unfold Checked.mul. destruct (Z.leb_spec (a * b) MAX_UINT256); [lia | reflexivity].
Qed.

Lemma div_eval {S} (a b : Z) (s : S) :
  b <> 0 -> Checked.div a b s = Ok (a / b, s).
Proof.
  intros H. unfold Checked.div. destruct (Z.eqb_spec b 0); [contradiction | reflexivity].
Qed.

Lemma Ctx_eta (c : Ctx) : mkCtx (self c) (erc20s c) (logs c) = c.
Proof. destruct c. reflexivity. Qed.

Lemma IERC20_eval {A} (token : address) (f : M ERC20 A) (c : Ctx) (t t' : ERC20) (a : A) :
  erc20s c !! token = Some t -> f t = Ok (a, t') ->
  IERC20 token f c = Ok (a, mkCtx (self c) (<[token := t']> (erc20s c)) (logs c)).
Proof. unfold IERC20. intros -> ->. reflexivity. Qed.

(** A read of a token contract changes nothing. *)
Lemma IERC20_view {A} (token : address) (g : ERC20 -> A) (c : Ctx) (t : ERC20) :
  erc20s c !! token = Some t ->
  IERC20 token (t ← get; mret (g t)) c = Ok (g t, c).
Proof.
  intros H. erewrite IERC20_eval; [|eassumption|reflexivity].
  rewrite insert_id by assumption. rewrite Ctx_eta. reflexivity.
Qed.

Lemma transfer_eval (from to : address) (value : uint256) (t : ERC20) :
  value <= balanceOf t from ->
  exists t', ERC20.transfer from to value t = Ok (true, t').
Proof.
  intros H. unfold ERC20.transfer, ERC20._transfer, mbind, M_bind, get, modify, throw.
  destruct (Z.ltb_spec (balanceOf t from) value); [lia|]. eexists. reflexivity.
Qed.

Lemma transferFrom_eval (spender from to : address) (value : uint256) (t : ERC20) :
  value <= allowance t from spender -> value <= balanceOf t from ->
  exists t', ERC20.transferFrom spender from to value t = Ok (true, t').
Proof.
  intros Ha Hb.
  unfold ERC20.transferFrom, ERC20._spendAllowance, ERC20._transfer,
    mbind, M_bind, get, modify, throw.
  destruct (Z.ltb_spec (allowance t from spender) value); [lia|]. cbn.
  change (balanceOf (set_allowance from spender (allowance t from spender - value) t) from)
    with (balanceOf t from).
  destruct (Z.ltb_spec (balanceOf t from) value); [lia|]. eexists. reflexivity.
Qed.

(** Runs the first statement of a sequence, given its outcome. *)
Ltac eval_step tac :=
  erewrite bind_eval; [ | tac ]; cbn beta zeta; unfold set_self; cbn [self erc20s logs].

Ltac eval_fail tac :=
  erewrite bind_Revert; [reflexivity | tac].

(** ** What a successful swap did *)

Lemma swapTokens_Ok this sender fromToken toToken amountIn amountOut (c c' : Ctx) :
  NebuPool.swapTokens this sender fromToken toToken amountIn amountOut c = Ok (tt, c') ->
  let p := self c in
  let expectedAmount := reserve2 p - constantK p / (reserve1 p + amountIn) in
  fromToken = token1 p /\ toToken = token2 p /\
  0 < amountIn /\ 0 < amountOut /\ amountOut <= expectedAmount /\
  reserve1 (self c') = reserve1 p + amountIn /\
  reserve2 (self c') = reserve2 p - expectedAmount /\
  reserve1 (self c') * reserve2 (self c') = constantK p /\
  logs c' = logs c ++ [Swap sender amountIn expectedAmount fromToken toToken].
Proof.
  unfold NebuPool.swapTokens. intros H. pool_inv; cbn in *;
    repeat match goal with
    | E : (_ || _) = true |- _ => apply orb_true_iff in E; destruct E as [E|E]
    | E : (_ && _) = true |- _ => apply andb_true_iff in E; destruct E as [? ?]
    | E : (_ =? _) = true |- _ => apply Z.eqb_eq in E
    | E : (_ <? _) = true |- _ => apply Z.ltb_lt in E
    | E : (_ <=? _) = true |- _ => apply Z.leb_le in E
    | E : (_ && _) = false |- _ => apply andb_false_iff in E
    end; subst; try (repeat split; (assumption || reflexivity || lia));
    try (exfalso; rewrite ?Z.eqb_refl in *; intuition congruence).
Qed.

(** C3. A swap from the pool's second asset to its first is always turned
    down by the pair validation, whatever the amounts. *)
Theorem swapTokens_rejects_second_direction this sender amountIn amountOut (c : Ctx) :
  token1 (self c) <> token2 (self c) ->
  0 < amountIn -> 0 < amountOut ->
  NebuPool.swapTokens this sender (token2 (self c)) (token1 (self c)) amountIn amountOut c
    = Revert (Error "Tokens need to be pairs of this liquidity pool").
Proof.
  intros Hne Hin Hout. unfold NebuPool.swapTokens.
  eval_step ltac:(reflexivity).
  eval_step ltac:(apply require_eval, andb_true_iff; split; apply Z.ltb_lt; assumption).
  eval_fail ltac:(apply require_fail).
  apply not_eq_sym, Z.eqb_neq in Hne. rewrite Hne. reflexivity.
Qed.

(** ** The share ledger *)

Lemma balanceOf_set_balance (t : ERC20) (a b : address) (v : uint256) :
  balanceOf (set_balance a v t) b = if decide (a = b) then v else balanceOf t b.
Proof.
  unfold balanceOf, set_balance. cbn. rewrite lookup_insert.
  case_decide; reflexivity.
Qed.

Lemma balanceOf_set_totalSupply (t : ERC20) (a : address) (v : uint256) :
  balanceOf (set_totalSupply v t) a = balanceOf t a.
Proof. reflexivity. Qed.

Lemma mint_Ok (this to : address) (amount : uint256) (l l' : NebulaLiquidityToken) (u : unit) :
  NebulaLiquidityToken.mint this to amount l = Ok (u, l') ->
  this ∈ DEFAULT_ADMIN_ROLE l /\
  totalSupply (erc20 l) + amount <= MAX_UINT256 /\
  totalSupply (erc20 l') = totalSupply (erc20 l) + amount /\
  balanceOf (erc20 l') to = balanceOf (erc20 l) to + amount.
Proof.
  unfold NebulaLiquidityToken.mint, NebulaLiquidityToken.onlyRole,
    NebulaLiquidityToken.super, ERC20._mint.
  intros H. monad_inv.
  - destruct (_ ≫= _) as [[u' t]|e] eqn:E in H; [|discriminate].
    inv_pair H. monad_inv. cbn.
    rewrite balanceOf_set_balance, decide_True by reflexivity.
    apply bool_decide_eq_true in Heqb. auto.
Qed.

Lemma mint_eval (this to : address) (amount : uint256) (l : NebulaLiquidityToken) :
  this ∈ DEFAULT_ADMIN_ROLE l ->
  totalSupply (erc20 l) + amount <= MAX_UINT256 ->
  exists l', NebulaLiquidityToken.mint this to amount l = Ok (tt, l').
Proof.
  intros Ha Hs.
  unfold NebulaLiquidityToken.mint, NebulaLiquidityToken.onlyRole,
    NebulaLiquidityToken.super, ERC20._mint, mbind, M_bind, get, modify, throw.
  rewrite bool_decide_eq_true_2 by assumption. cbn.
  rewrite add_eval by assumption. eexists. reflexivity.
Qed.

Lemma burn_Ok (this from : address) (amount : uint256) (l l' : NebulaLiquidityToken) (u : unit) :
  NebulaLiquidityToken.burn this from amount l = Ok (u, l') ->
  this ∈ DEFAULT_ADMIN_ROLE l /\
  amount <= balanceOf (erc20 l) from /\
  totalSupply (erc20 l') = totalSupply (erc20 l) - amount /\
  balanceOf (erc20 l') from = balanceOf (erc20 l) from - amount.
Proof.
  unfold NebulaLiquidityToken.burn, NebulaLiquidityToken.onlyRole,
    NebulaLiquidityToken.super, ERC20._burn.
  intros H. monad_inv.
  - destruct (_ ≫= _) as [[u' t]|e] eqn:E in H; [|discriminate].
    inv_pair H. monad_inv. cbn.
    rewrite balanceOf_set_totalSupply, balanceOf_set_balance, decide_True by reflexivity.
    apply bool_decide_eq_true in Heqb. apply Z.ltb_ge in Heqb0. auto.
Qed.

Lemma burn_eval (this from : address) (amount : uint256) (l : NebulaLiquidityToken) :
  this ∈ DEFAULT_ADMIN_ROLE l ->
  amount <= balanceOf (erc20 l) from ->
  exists l', NebulaLiquidityToken.burn this from amount l = Ok (tt, l').
Proof.
  intros Ha Hb.
  unfold NebulaLiquidityToken.burn, NebulaLiquidityToken.onlyRole,
    NebulaLiquidityToken.super, ERC20._burn, mbind, M_bind, get, modify, throw.
  rewrite bool_decide_eq_true_2 by assumption. cbn.
  destruct (Z.ltb_spec (balanceOf (erc20 l) from) amount); [lia|].
  eexists. reflexivity.
Qed.

Lemma burn_insufficient (this from : address) (amount : uint256) (l : NebulaLiquidityToken) :
  this ∈ DEFAULT_ADMIN_ROLE l ->
  balanceOf (erc20 l) from < amount ->
  NebulaLiquidityToken.burn this from amount l = Revert ERC20InsufficientBalance.
Proof.
  intros Ha Hb.
  unfold NebulaLiquidityToken.burn, NebulaLiquidityToken.onlyRole,
    NebulaLiquidityToken.super, ERC20._burn, mbind, M_bind, get, modify, throw.
  rewrite bool_decide_eq_true_2 by assumption. cbn.
  destruct (Z.ltb_spec (balanceOf (erc20 l) from) amount); [reflexivity | lia].
Qed.

Lemma LP_eval {A} (f : M NebulaLiquidityToken A) (c : Ctx) (a : A) (l : NebulaLiquidityToken) :
  f (liquidityToken (self c)) = Ok (a, l) ->
  LP f c = Ok (a, set_self (set_liquidityToken l (self c)) c).
Proof. unfold LP. intros ->. reflexivity. Qed.

Lemma LP_fail {A} (f : M NebulaLiquidityToken A) (c : Ctx) (e : revert) :
  f (liquidityToken (self c)) = Revert e -> LP f c = Revert e.
Proof. unfold LP. intros ->. reflexivity. Qed.

Lemma updateConstantFormula_eval (c : Ctx) :
  0 <= reserve1 (self c) -> 0 <= reserve2 (self c) ->
  reserve1 (self c) * reserve2 (self c) <= MAX_UINT256 ->
  NebuPool._updateConstantFormula c
    = Ok (tt, set_self (set_constantK (reserve1 (self c) * reserve2 (self c)) (self c)) c).
Proof.
  intros H1 H2 Hm.
  destruct (NebuPool._updateConstantFormula c) as [[[] c']|e] eqn:E.
  - apply updateConstantFormula_Ok in E. congruence.
  - exfalso. revert E. unfold NebuPool._updateConstantFormula.
    eval_step ltac:(reflexivity).
    destruct ((reserve1 (self c) =? 0) || (reserve2 (self c) =? 0)) eqn:Ez.
    + discriminate.
    + apply orb_false_iff in Ez. destruct Ez as [Ez1 Ez2].
      apply Z.eqb_neq in Ez1, Ez2.
      eval_step ltac:(apply mul_eval; assumption).
      eval_step ltac:(reflexivity).
      eval_step ltac:(apply require_eval, Z.ltb_lt; nia).
      discriminate.
Qed.

(** ** Deposits *)

Lemma pull_eval (c : Ctx) (token spender from to : address) (value : uint256) :
  can_pull (erc20s c) token spender from value ->
  exists t', IERC20 token (ERC20.transferFrom spender from to value) c
             = Ok (true, mkCtx (self c) (<[token := t']> (erc20s c)) (logs c)).
Proof.
  intros (t & Ht & Ha & Hb).
  destruct (transferFrom_eval spender from to value t Ha Hb) as [t' E].
  exists t'. eapply IERC20_eval; eassumption.
Qed.

Lemma pay_eval (c : Ctx) (token holder to : address) (value : uint256) :
  can_pay (erc20s c) token holder value ->
  exists t', IERC20 token (ERC20.transfer holder to value) c
             = Ok (true, mkCtx (self c) (<[token := t']> (erc20s c)) (logs c)).
Proof.
  intros (t & Ht & Hb).
  destruct (transfer_eval holder to value t Hb) as [t' E].
  exists t'. eapply IERC20_eval; eassumption.
Qed.

Lemma can_pull_deployed ts token spender from value :
  can_pull ts token spender from value -> exists t, ts !! token = Some t.
Proof. intros (t & Ht & _). eauto. Qed.

Lemma can_pull_other ts token other spender from value t' :
  token <> other ->
  can_pull ts token spender from value ->
  can_pull (<[other := t']> ts) token spender from value.
Proof.
  intros Hne (t & Ht & H). exists t. rewrite lookup_insert_ne by congruence. auto.
Qed.

Lemma can_pay_other ts token other holder value t' :
  token <> other ->
  can_pay ts token holder value ->
  can_pay (<[other := t']> ts) token holder value.
Proof.
  intros Hne (t & Ht & H). exists t. rewrite lookup_insert_ne by congruence. auto.
Qed.

Lemma not_Revert_Ok {S} (r : result (unit * S)) :
  (forall e, r = Revert e -> False) -> exists s, r = Ok (tt, s).
Proof.
  destruct r as [[[] s]|e]; [eauto | intros H; destruct (H e eq_refl)].
Qed.

(** The statements of addLiquidity up to the branch on the share supply:
    four reads, the two pulls and two more reads. *)
Ltac view_step :=
  eval_step ltac:(eapply IERC20_view; cbn [erc20s];
                  repeat (rewrite lookup_insert_eq
                          || rewrite lookup_insert_ne by congruence);
                  first [eassumption | reflexivity]);
  eval_step ltac:(reflexivity).

Ltac pull_step :=
  let t' := fresh "t'" in
  let E := fresh "E" in
  match goal with
  | |- context [(IERC20 ?tok (ERC20.transferFrom ?s ?f ?t ?v) ≫= _) ?c0] =>
      destruct (pull_eval c0 tok s f t v) as [t' E];
      [ unfold set_self; cbn [self erc20s logs];
        first [assumption | apply can_pull_other; [congruence | assumption]]
      | eval_step ltac:(exact E) ]
  end.

Ltac pay_step :=
  let t' := fresh "t'" in
  let E := fresh "E" in
  match goal with
  | |- context [(IERC20 ?tok (ERC20.transfer ?s ?t ?v) ≫= _) ?c0] =>
      destruct (pay_eval c0 tok s t v) as [t' E];
      [ unfold set_self; cbn [self erc20s logs];
        first [assumption | apply can_pay_other; [congruence | assumption]]
      | eval_step ltac:(exact E) ]
  end.

Ltac pull_deposit H1 H2 :=
  let D1 := fresh "D1" in let D2 := fresh "D2" in
  let u1 := fresh "u1" in let u2 := fresh "u2" in
  destruct (can_pull_deployed _ _ _ _ _ H1) as [u1 D1];
  destruct (can_pull_deployed _ _ _ _ _ H2) as [u2 D2];
  eval_step ltac:(reflexivity);
  do 4 view_step;
  do 2 pull_step;
  do 2 view_step.

(** C4. On a pool without shares, addLiquidity mints the floor of the
    square root of the product of the two amounts, fails with
    "Insufficient liquidity created" when that is zero, and on success sets
    the reserves to exactly the two amounts; for the amounts (100, 400) the
    root is 200. *)
Theorem addLiquidity_first_deposit this sender amountToken1 amountToken2 (c : Ctx) :
  shareSupply (self c) = 0 ->
  let minted := Z.sqrt (amountToken1 * amountToken2) in
  (forall c',
     NebuPool.addLiquidity this sender amountToken1 amountToken2 c = Ok (tt, c') ->
     0 < minted /\
     shareSupply (self c') = minted /\
     sharesOf (self c') sender = sharesOf (self c) sender + minted /\
     reserve1 (self c') = amountToken1 /\
     reserve2 (self c') = amountToken2 /\
     logs c' = logs c ++ [LiquidityAdded sender amountToken1 amountToken2 minted]) /\
  (token1 (self c) <> token2 (self c) ->
   can_pull (erc20s c) (token1 (self c)) this sender amountToken1 ->
   can_pull (erc20s c) (token2 (self c)) this sender amountToken2 ->
   (minted = 0 ->
    NebuPool.addLiquidity this sender amountToken1 amountToken2 c
      = Revert (Error "Insufficient liquidity created")) /\
   (0 < amountToken1 -> 0 < amountToken2 ->
    amountToken1 * amountToken2 <= MAX_UINT256 ->
    this ∈ DEFAULT_ADMIN_ROLE (liquidityToken (self c)) ->
    exists c', NebuPool.addLiquidity this sender amountToken1 amountToken2 c = Ok (tt, c'))) /\
  (amountToken1 = 100 -> amountToken2 = 400 -> minted = 200).
Proof.
  intros Hsupply minted. unfold shareSupply in Hsupply.
  split; [|split; [|intros -> ->; reflexivity]].
  - intros c' H. unfold NebuPool.addLiquidity in H.
    pool_inv; [|rewrite Hsupply in *; discriminate].
    match goal with E : NebulaLiquidityToken.mint _ _ _ _ = Ok _ |- _ =>
      apply mint_Ok in E; cbn in E; destruct E as (_ & _ & Es & Eb) end.
    unfold shareSupply, sharesOf, Math.sqrt in *. cbn.
    rewrite Es, Eb, Hsupply.
    match goal with E : (0 <? _) = true |- _ => apply Z.ltb_lt in E end.
    repeat split; (assumption || reflexivity || lia).
  - intros Hne H1 H2. split.
    + intros Hz. unfold NebuPool.addLiquidity.
      pull_deposit H1 H2. rewrite Hsupply.
      change (0 =? 0) with true. cbv iota.
      assert (Hm : amountToken1 * amountToken2 <= 0).
      { destruct (Z.le_gt_cases (amountToken1 * amountToken2) 0) as [|Hp]; [assumption|].
        apply Z.sqrt_pos in Hp. unfold minted in Hz. lia. }
      eval_fail idtac.
      eval_step ltac:(apply mul_eval; unfold MAX_UINT256; lia).
      eval_fail ltac:(apply require_fail).
      unfold Math.sqrt. fold minted. rewrite Hz. reflexivity.
    + intros Hp1 Hp2 Hmax Hadmin. apply not_Revert_Ok. intros e.
      unfold NebuPool.addLiquidity.
      pull_deposit H1 H2. rewrite Hsupply.
      change (0 =? 0) with true. cbv iota.
      assert (Hpos : 0 < minted) by (apply Z.sqrt_pos; nia).
      assert (Hle : minted <= amountToken1 * amountToken2)
        by (apply Z.sqrt_le_lin; nia).
      destruct (mint_eval this sender minted (liquidityToken (self c)) Hadmin) as [l' El].
      { rewrite Hsupply. lia. }
      eval_step ltac:(
        eval_step ltac:(apply mul_eval; assumption);
        eval_step ltac:(apply require_eval, Z.ltb_lt; exact Hpos);
        eval_step ltac:(reflexivity);
        eval_step ltac:(reflexivity);
        reflexivity).
      eval_step ltac:(apply LP_eval; exact El).
      eval_step ltac:(apply updateConstantFormula_eval; cbn; lia).
      discriminate.
Qed.

(** On a pool that has shares, a successful addLiquidity mints the smaller
    of the two share quotients, whatever it is, and adds both amounts to the
    reserves in full. *)
Lemma addLiquidity_proportional this sender amountToken1 amountToken2 (c c' : Ctx) :
  shareSupply (self c) <> 0 ->
  NebuPool.addLiquidity this sender amountToken1 amountToken2 c = Ok (tt, c') ->
  let T := shareSupply (self c) in
  let minted :=
    Z.min (amountToken1 * T / reserve1 (self c)) (amountToken2 * T / reserve2 (self c)) in
  shareSupply (self c') = T + minted /\
  sharesOf (self c') sender = sharesOf (self c) sender + minted /\
  reserve1 (self c') = reserve1 (self c) + amountToken1 /\
  reserve2 (self c') = reserve2 (self c) + amountToken2 /\
  logs c' = logs c ++ [LiquidityAdded sender amountToken1 amountToken2 minted].
Proof.
  intros Hsupply H. unfold shareSupply in Hsupply.
  unfold NebuPool.addLiquidity in H.
  pool_inv;
    [match goal with E : (_ =? _) = true |- _ => apply Z.eqb_eq in E end; contradiction|].
  match goal with E : NebulaLiquidityToken.mint _ _ _ _ = Ok _ |- _ =>
    apply mint_Ok in E; cbn in E; destruct E as (_ & _ & Es & Eb) end.
  unfold shareSupply, sharesOf, Math.min in *. cbn.
  rewrite Es, Eb.
  repeat match goal with |- _ /\ _ => split end; reflexivity.
Qed.

(** ** Withdrawals *)

Lemma transfer_Ok (from to : address) (value : uint256) (t t' : ERC20) (b : bool) :
  ERC20.transfer from to value t = Ok (b, t') ->
  value <= balanceOf t from /\
  (from <> to ->
   balanceOf t' to = balanceOf t to + value /\
   balanceOf t' from = balanceOf t from - value).
Proof.
  unfold ERC20.transfer, ERC20._transfer. intros H. monad_inv.
  match goal with E : (_ <? _) = false |- _ => apply Z.ltb_ge in E end.
  split; [assumption|]. intros Hne.
  rewrite !balanceOf_set_balance.
  rewrite (decide_True (P := to = to)) by reflexivity.
  rewrite (decide_False (P := from = to)) by assumption.
  rewrite (decide_False (P := to = from)) by congruence.
  rewrite (decide_True (P := from = from)) by reflexivity.
  split; reflexivity.
Qed.

(** C6, as the code has it. removeLiquidity fails with "No liquidity
    available" when there are no shares; otherwise it fails with an
    arithmetic error when the share amount times a reserve does not fit in
    256 bits; otherwise it fails with an insufficient-balance error of the
    share ledger when the caller holds fewer shares than the amount; and when
    it succeeds it has burnt the shares, lowered each reserve by
    floor(liquidity * reserve / totalSupply) and paid those amounts out. *)
Theorem removeLiquidity_cases this sender liquidity (c : Ctx) :
  let p := self c in
  let T := shareSupply p in
  let amountToken1 := liquidity * reserve1 p / T in
  let amountToken2 := liquidity * reserve2 p / T in
  (T = 0 ->
   NebuPool.removeLiquidity this sender liquidity c
     = Revert (Error "No liquidity available")) /\
  (0 < T ->
   MAX_UINT256 < liquidity * reserve1 p \/ MAX_UINT256 < liquidity * reserve2 p ->
   NebuPool.removeLiquidity this sender liquidity c = Revert ArithmeticError) /\
  (0 < T ->
   liquidity * reserve1 p <= MAX_UINT256 -> liquidity * reserve2 p <= MAX_UINT256 ->
   this ∈ DEFAULT_ADMIN_ROLE (liquidityToken p) ->
   sharesOf p sender < liquidity ->
   NebuPool.removeLiquidity this sender liquidity c = Revert ERC20InsufficientBalance) /\
  (forall c',
     NebuPool.removeLiquidity this sender liquidity c = Ok (tt, c') ->
     0 < T /\ liquidity <= sharesOf p sender /\
     shareSupply (self c') = T - liquidity /\
     sharesOf (self c') sender = sharesOf p sender - liquidity /\
     reserve1 (self c') = reserve1 p - amountToken1 /\
     reserve2 (self c') = reserve2 p - amountToken2 /\
     logs c' = logs c ++ [LiquidityRemoved sender amountToken1 amountToken2 liquidity] /\
     (token1 p <> token2 p -> sender <> this ->
      exists t1 t1' t2 t2',
        erc20s c !! token1 p = Some t1 /\ erc20s c' !! token1 p = Some t1' /\
        erc20s c !! token2 p = Some t2 /\ erc20s c' !! token2 p = Some t2' /\
        balanceOf t1' sender = balanceOf t1 sender + amountToken1 /\
        balanceOf t2' sender = balanceOf t2 sender + amountToken2)) /\
  (0 < T -> 0 <= liquidity <= T -> liquidity <= sharesOf p sender ->
   0 <= reserve1 p -> 0 <= reserve2 p -> reserve1 p * reserve2 p <= MAX_UINT256 ->
   liquidity * reserve1 p <= MAX_UINT256 -> liquidity * reserve2 p <= MAX_UINT256 ->
   this ∈ DEFAULT_ADMIN_ROLE (liquidityToken p) ->
   token1 p <> token2 p ->
   can_pay (erc20s c) (token1 p) this amountToken1 ->
   can_pay (erc20s c) (token2 p) this amountToken2 ->
   exists c', NebuPool.removeLiquidity this sender liquidity c = Ok (tt, c')).
Proof.
  intros p T amountToken1 amountToken2.
  unfold shareSupply, sharesOf in *.
  split; [|split; [|split; [|split]]].
  - intros HT. unfold NebuPool.removeLiquidity.
    eval_step ltac:(reflexivity).
    eval_fail ltac:(apply require_fail).
    fold p. fold T. rewrite HT. reflexivity.
  - intros HT Hover. unfold NebuPool.removeLiquidity.
    eval_step ltac:(reflexivity).
    eval_step ltac:(apply require_eval, Z.ltb_lt; exact HT).
    destruct (Z.le_gt_cases (liquidity * reserve1 p) MAX_UINT256) as [Hfit|Hbig].
    + eval_step ltac:(apply mul_eval; exact Hfit).
      eval_step ltac:(apply div_eval; fold p T; lia).
      eval_fail ltac:(apply mul_overflow; fold p; lia).
    + eval_fail ltac:(apply mul_overflow; exact Hbig).
  - intros HT Hf1 Hf2 Hadmin Hshares. unfold NebuPool.removeLiquidity.
    eval_step ltac:(reflexivity).
    eval_step ltac:(apply require_eval, Z.ltb_lt; exact HT).
    eval_step ltac:(apply mul_eval; exact Hf1).
    eval_step ltac:(apply div_eval; fold p T; lia).
    eval_step ltac:(apply mul_eval; exact Hf2).
    eval_step ltac:(apply div_eval; fold p T; lia).
    eval_fail ltac:(apply LP_fail, burn_insufficient; assumption).
  - subst amountToken1 amountToken2 T p.
    intros c' H. unfold NebuPool.removeLiquidity in H. pool_inv.
    match goal with E : NebulaLiquidityToken.burn _ _ _ _ = Ok _ |- _ =>
      apply burn_Ok in E; destruct E as (_ & Hb & Es & Eb) end.
    match goal with E : (0 <? _) = true |- _ => apply Z.ltb_lt in E end.
    repeat match goal with
    | E : ERC20.transfer _ _ _ _ = Ok _ |- _ => apply transfer_Ok in E; destruct E as [? ?]
    end.
    cbn. rewrite Es, Eb.
    repeat match goal with |- _ /\ _ => split end; try (assumption || reflexivity).
    intros Hne Hsender.
    repeat match goal with
    | E : <[_ := _]> _ !! _ = Some _ |- _ =>
        rewrite lookup_insert_ne in E by congruence
    end.
    do 4 eexists.
    split; [eassumption|]. split.
    { rewrite lookup_insert_ne by congruence. apply lookup_insert_eq. }
    split; [eassumption|]. split.
    { apply lookup_insert_eq. }
    split.
    + match goal with E : _ -> balanceOf _ sender = _ + liquidity * reserve1 _ / _ /\ _ |- _ =>
        apply E; congruence end.
    + match goal with E : _ -> balanceOf _ sender = _ + liquidity * reserve2 _ / _ /\ _ |- _ =>
        apply E; congruence end.
  - subst amountToken1 amountToken2 T p.
    intros HT Hl Hshares Hr1 Hr2 HK Hf1 Hf2 Hadmin Hne Hp1 Hp2.
    apply not_Revert_Ok. intros e. unfold NebuPool.removeLiquidity.
    set (T := totalSupply (erc20 (liquidityToken (self c)))) in *.
    assert (Ha1 : 0 <= liquidity * reserve1 (self c) / T <= reserve1 (self c)).
    { split.
      - apply Z.div_pos; nia.
      - apply Z.div_le_upper_bound; nia. }
    assert (Ha2 : 0 <= liquidity * reserve2 (self c) / T <= reserve2 (self c)).
    { split.
      - apply Z.div_pos; nia.
      - apply Z.div_le_upper_bound; nia. }
    destruct (burn_eval this sender liquidity (liquidityToken (self c)) Hadmin Hshares)
      as [l' El].
    eval_step ltac:(reflexivity).
    eval_step ltac:(apply require_eval, Z.ltb_lt; exact HT).
    eval_step ltac:(apply mul_eval; exact Hf1).
    eval_step ltac:(apply div_eval; fold T; lia).
    eval_step ltac:(apply mul_eval; exact Hf2).
    eval_step ltac:(apply div_eval; fold T; lia).
    eval_step ltac:(apply LP_eval; exact El).
    eval_step ltac:(apply sub_eval; apply Ha1).
    eval_step ltac:(reflexivity).
    eval_step ltac:(apply sub_eval; apply Ha2).
    eval_step ltac:(reflexivity).
    eval_step ltac:(apply updateConstantFormula_eval; cbn; fold T; nia).
    pay_step. pay_step.
    discriminate.
Qed.

(** ** Swaps *)



(** C2, as the code has it. With reserves (110, 440) and a stored product
    of 48400, ten units of the first asset are quoted at 37, but no swap of
    them succeeds: the reserves would become (120, 403), whose product 48360
    is not the stored 48400, and the final check turns the call down. *)
Theorem swap_of_scenario_3_reverts this sender fromToken toToken minAmountOut
    (c : Ctx) (tIn tOut : ERC20) :
  reserve1 (self c) = 110 -> reserve2 (self c) = 440 -> constantK (self c) = 48400 ->
  outcome (NebuPool.getExpectedOutput (token1 (self c)) 10 c) = Ok 37 /\
  (forall c',
     NebuPool.swapTokens this sender fromToken toToken 10 minAmountOut c <> Ok (tt, c')) /\
  (token1 (self c) <> token2 (self c) ->
   0 < minAmountOut <= 37 ->
   erc20s c !! token1 (self c) = Some tIn ->
   erc20s c !! token2 (self c) = Some tOut ->
   10 < balanceOf tIn sender -> 10 <= allowance tIn sender this ->
   37 <= balanceOf tOut this -> minAmountOut < balanceOf tOut this ->
   NebuPool.swapTokens this sender (token1 (self c)) (token2 (self c)) 10 minAmountOut c
     = Revert (Error "Swap does not preserve constant formula")).
Proof.
  intros Hr1 Hr2 HK. split; [|split].
  - unfold NebuPool.getExpectedOutput.
    eval_step ltac:(reflexivity).
    eval_step ltac:(reflexivity).
    eval_step ltac:(apply require_eval; rewrite Z.eqb_refl; reflexivity).
    rewrite Z.eqb_refl, Hr1, Hr2, HK.
    eval_step ltac:(apply add_eval; unfold MAX_UINT256; lia).
    eval_step ltac:(apply div_eval; lia).
    rewrite sub_eval by (vm_compute; discriminate). reflexivity.
  - intros c' H. apply swapTokens_Ok in H. cbn zeta in H.
    destruct H as (_ & _ & _ & _ & _ & E1 & E2 & E3 & _).
    rewrite E1, E2, Hr1, Hr2, HK in E3. vm_compute in E3. discriminate.
  - intros Hne [Hmin Hmax] HIn HOut Hbal Hallow Hpool Hpool'.
    assert (Hpull : can_pull (erc20s c) (token1 (self c)) this sender 10).
    { exists tIn. repeat split; (assumption || lia). }
    assert (Hpay : can_pay (erc20s c) (token2 (self c)) this 37).
    { exists tOut. split; assumption. }
    unfold NebuPool.swapTokens.
    eval_step ltac:(reflexivity).
    eval_step ltac:(apply require_eval, andb_true_iff; split; apply Z.ltb_lt; lia).
    eval_step ltac:(apply require_eval; rewrite !Z.eqb_refl; reflexivity).
    eval_step ltac:(apply (IERC20_view _ (fun t => balanceOf t sender)); exact HIn).
    eval_step ltac:(apply require_eval, Z.ltb_lt; exact Hbal).
    eval_step ltac:(apply (IERC20_view _ (fun t => balanceOf t this)); exact HOut).
    eval_step ltac:(apply require_eval, Z.ltb_lt; exact Hpool').
    rewrite !Z.eqb_refl, Hr1, Hr2, HK. cbn [andb].
    eval_step ltac:(
      eval_step ltac:(apply add_eval; unfold MAX_UINT256; lia);
      eval_step ltac:(apply div_eval; lia);
      apply sub_eval; vm_compute; discriminate).
    change (440 - 48400 / (110 + 10)) with 37.
    eval_step ltac:(apply require_eval, Z.leb_le; exact Hmax).
    pull_step.
    eval_step ltac:(reflexivity).
    pay_step.
    eval_step ltac:(reflexivity).
    eval_step ltac:(
      eval_step ltac:(apply add_eval; unfold MAX_UINT256; lia);
      eval_step ltac:(reflexivity);
      eval_step ltac:(apply sub_eval; lia);
      reflexivity).
    eval_step ltac:(reflexivity).
    cbn [reserve1 reserve2 constantK set_reserve1 set_reserve2].
    eval_step ltac:(apply mul_eval; vm_compute; discriminate).
    eval_fail ltac:(apply require_fail).
    rewrite HK. reflexivity.
Qed.

(** ** The quote and the stored product *)

Section Quote.

Variable pool_address : nat -> address.

(** C8, as the code has it. The product is stored in [constantK]; in every
    reachable state it equals the product of the current reserves, so every
    quote equals the one that recomputes the product from the reserves. *)
Theorem quote_agrees_with_fresh_product (w : World) (pool : address) (p : NebuPool)
    (ts : gmap Z ERC20) (ev : list Event) (fromToken : address) (amountIn : uint256) :
  reachable pool_address w ->
  pools w !! pool = Some p ->
  constantK p = reserve1 p * reserve2 p /\
  NebuPool.getExpectedOutput fromToken amountIn (mkCtx p ts ev)
    = spec_quote fromToken amountIn (mkCtx p ts ev).
Proof.
  intros Hr Hp. pose proof (reachable_world_inv pool_address w Hr pool p Hp) as Hi.
  unfold pool_inv in Hi. split; [exact Hi|].
  unfold NebuPool.getExpectedOutput, spec_quote.
  eval_step ltac:(reflexivity). symmetry. eval_step ltac:(reflexivity). symmetry.
  destruct (0 <? amountIn); [|reflexivity].
  eval_step ltac:(reflexivity). symmetry. eval_step ltac:(reflexivity). symmetry.
  destruct ((fromToken =? token1 p) || (fromToken =? token2 p)); [|reflexivity].
  eval_step ltac:(reflexivity). symmetry. eval_step ltac:(reflexivity). symmetry.
  rewrite Hi. destruct (fromToken =? token1 p); [reflexivity|].
  rewrite (Z.mul_comm (reserve2 p) (reserve1 p)). reflexivity.
Qed.

End Quote.

(** * The scenarios *)

Import Scenario.

Lemma scenario_pool_address_nonzero (n : nat) : pool_address n <> 0.
Proof. unfold pool_address. lia. Qed.

Lemma uint256_small (x : Z) : 0 <= x <= 1000000 -> is_uint256 x.
Proof. unfold is_uint256, MAX_UINT256. lia. Qed.

Lemma reachable_w0 : reachable pool_address w0.
Proof. apply reachable_initial. Qed.

Lemma step_w0_w1 : step pool_address w0 w1.
Proof.
  apply (step_createPairs pool_address tokenA tokenB "A" "B" w0 pool0 w1).
  vm_compute. reflexivity.
Qed.

Lemma step_w1_w2 : step pool_address w1 w2.
Proof.
  apply (step_addLiquidity pool_address pool0 alice 100 400 w1 w2);
    [apply uint256_small; lia | apply uint256_small; lia |].
  vm_compute. reflexivity.
Qed.

Lemma step_w2_w3 : step pool_address w2 w3.
Proof.
  apply (step_addLiquidity pool_address pool0 alice 10 40 w2 w3);
    [apply uint256_small; lia | apply uint256_small; lia |].
  vm_compute. reflexivity.
Qed.

Lemma reachable_w1 : reachable pool_address w1.
Proof. exact (reachable_step _ _ _ reachable_w0 step_w0_w1). Qed.

Lemma reachable_w2 : reachable pool_address w2.
Proof. exact (reachable_step _ _ _ reachable_w1 step_w1_w2). Qed.

Lemma reachable_w3 : reachable pool_address w3.
Proof. exact (reachable_step _ _ _ reachable_w2 step_w2_w3). Qed.

Lemma steps_w1_w3 : steps pool_address w1 w3.
Proof.
  eapply steps_step; [|exact step_w2_w3].
  eapply steps_step; [|exact step_w1_w2].
  apply steps_refl.
Qed.

Lemma swap_never_decreases_product_witness :
  exists p', pools w2_swapped !! pool0 = Some p' /\
    reserve1 p' * reserve2 p' >= reserve1 (pool_of w2) * reserve2 (pool_of w2).
Proof.
  apply (swap_never_decreases_product pool_address w2 w2_swapped pool0 bob tokenA tokenB
           100 200 (pool_of w2) reachable_w2).
  - vm_compute. reflexivity.
  - vm_compute. reflexivity.
Defined.

Lemma constantK_tracks_reserves_witness :
  (reserve1 (pool_of w3) <> 0 -> reserve2 (pool_of w3) <> 0 ->
   constantK (pool_of w3) = reserve1 (pool_of w3) * reserve2 (pool_of w3)) /\
  (reserve1 (pool_of w3) = 0 \/ reserve2 (pool_of w3) = 0 -> constantK (pool_of w3) = 0).
Proof.
  apply (constantK_tracks_reserves pool_address w3 pool0 (pool_of w3) reachable_w3).
  vm_compute. reflexivity.
Defined.

Lemma registry_unique_and_symmetric_witness :
  createPairs pool_address tokenA tokenB "A" "B" w3
    = Revert (Error "Pair already exists") /\
  createPairs pool_address tokenB tokenA "B" "A" w3
    = Revert (Error "Pair already exists") /\
  pairOf (nebuSwap w3) tokenA tokenB = pool0 /\
  pairOf (nebuSwap w3) tokenB tokenA = pool0.
Proof.
  destruct (registry_unique_and_symmetric pool_address scenario_pool_address_nonzero)
    as [_ Hcreated].
  destruct (Hcreated w0 w1 w3 tokenA tokenB pool0 "A"%string "B"%string reachable_w0)
    as (H1 & H2 & H3 & H4 & _).
  - vm_compute. reflexivity.
  - exact steps_w1_w3.
  - split; [apply H1|]. split; [apply H2|]. split; [exact H3 | exact H4].
Defined.

Lemma swapTokens_rejects_second_direction_witness :
  NebuPool.swapTokens pool0 bob tokenB tokenA 100 1 (ctx_of w2)
    = Revert (Error "Tokens need to be pairs of this liquidity pool").
Proof.
  apply (swapTokens_rejects_second_direction pool0 bob 100 1 (ctx_of w2)).
  - vm_compute. discriminate.
  - lia.
  - lia.
Defined.

Ltac by_computation :=
  first [ vm_compute; reflexivity | vm_compute; discriminate ].

Ltac decide_by_computation :=
  match goal with |- ?P => apply (bool_decide_eq_true_1 P) end; by_computation.

Ltac split_all := repeat match goal with |- _ /\ _ => split end.

Ltac funded_witness :=
  eexists; split_all; by_computation.

Lemma addLiquidity_first_deposit_witness :
  exists c', NebuPool.addLiquidity pool0 alice 100 400 (ctx_of w1) = Ok (tt, c') /\
    shareSupply (self c') = 200 /\ sharesOf (self c') alice = 200 /\
    reserve1 (self c') = 100 /\ reserve2 (self c') = 400.
Proof.
  destruct (addLiquidity_first_deposit pool0 alice 100 400 (ctx_of w1))
    as (Hok & Hrun & _).
  - by_computation.
  - destruct Hrun as [_ Hex]; [by_computation | funded_witness | funded_witness |].
    destruct Hex as [c' E];
      [lia | lia | by_computation | decide_by_computation |].
    exists c'. destruct (Hok c' E) as (_ & Hs & Hb & Hr1 & Hr2 & _).
    split; [exact E|]. split; [exact Hs|]. split; [exact Hb|]. split; assumption.
Defined.

(** C5. On a pool that has shares, a deposit whose smaller share quotient
    is zero goes through: in the funded pool of scenario 1, with reserves
    (100, 400) and 200 shares, addLiquidity(1000, 1) succeeds, takes both
    amounts into the reserves and mints nothing. *)
Theorem addLiquidity_mints_zero_shares :
  shareSupply (pool_of w2) = 200 /\
  reserve1 (pool_of w2) = 100 /\ reserve2 (pool_of w2) = 400 /\
  Math.min (1000 * 200 / 100) (1 * 200 / 400) = 0 /\
  outcome (call_pool pool0 (NebuPool.addLiquidity pool0 bob 1000 1) w2) = Ok tt /\
  sharesOf (pool_of w2_lopsided) bob = 0 /\
  shareSupply (pool_of w2_lopsided) = 200 /\
  reserve1 (pool_of w2_lopsided) = 1100 /\ reserve2 (pool_of w2_lopsided) = 401 /\
  balanceOf (token_of w2 tokenA) bob - balanceOf (token_of w2_lopsided tokenA) bob = 1000 /\
  balanceOf (token_of w2 tokenB) bob - balanceOf (token_of w2_lopsided tokenB) bob = 1.
Proof. split_all; by_computation. Qed.

Lemma removeLiquidity_cases_witness :
  exists c', NebuPool.removeLiquidity pool0 alice 50 (ctx_of w2) = Ok (tt, c') /\
    shareSupply (self c') = 150 /\ sharesOf (self c') alice = 150 /\
    reserve1 (self c') = 75 /\ reserve2 (self c') = 300.
Proof.
  destruct (removeLiquidity_cases pool0 alice 50 (ctx_of w2)) as (_ & _ & _ & Hok & Hex).
  destruct Hex as [c' E].
  - by_computation.
  - split; by_computation.
  - by_computation.
  - by_computation.
  - by_computation.
  - by_computation.
  - by_computation.
  - by_computation.
  - decide_by_computation.
  - by_computation.
  - funded_witness.
  - funded_witness.
  - exists c'. destruct (Hok c' E) as (_ & _ & Hs & Hb & Hr1 & Hr2 & _).
  split; [exact E|]. split; [exact Hs|]. split; [exact Hb|]. split; assumption.
Defined.

Lemma removeLiquidity_overflow_counterexample :
  0 < shareSupply (pool_of w2) /\
  sharesOf (pool_of w2) alice < MAX_UINT256 /\
  NebuPool.removeLiquidity pool0 alice MAX_UINT256 (ctx_of w2) = Revert ArithmeticError /\
  NebuPool.removeLiquidity pool0 alice MAX_UINT256 (ctx_of w2)
    <> Revert ERC20InsufficientBalance.
Proof.
  split; [by_computation|]. split; [by_computation|]. split; [by_computation|].
  intros H. vm_compute in H. discriminate.
Qed.



Lemma swap_of_scenario_3_reverts_witness :
  outcome (NebuPool.getExpectedOutput tokenA 10 (ctx_of w3)) = Ok 37 /\
  NebuPool.swapTokens pool0 bob tokenA tokenB 10 37 (ctx_of w3)
    = Revert (Error "Swap does not preserve constant formula").
Proof.
  destruct (swap_of_scenario_3_reverts pool0 bob tokenA tokenB 37 (ctx_of w3)
              (token_of w3 tokenA) (token_of w3 tokenB))
    as (Hquote & _ & Hfail); [by_computation | by_computation | by_computation |].
  split; [exact Hquote|].
  apply Hfail.
  - by_computation.
  - split; by_computation.
  - by_computation.
  - by_computation.
  - by_computation.
  - by_computation.
  - by_computation.
  - by_computation.
Defined.

Lemma swap_of_scenario_3_counterexample :
  reserve1 (pool_of w3) = 110 /\ reserve2 (pool_of w3) = 440 /\
  constantK (pool_of w3) = 48400 /\
  shareSupply (pool_of w3) = 220 /\
  outcome (call_pool pool0 (NebuPool.swapTokens pool0 bob tokenA tokenB 10 37) w3)
    = Revert (Error "Swap does not preserve constant formula") /\
  ~ (exists w',
       call_pool pool0 (NebuPool.swapTokens pool0 bob tokenA tokenB 10 37) w3 = Ok (tt, w') /\
       reserve1 (pool_of w') = 120 /\ reserve2 (pool_of w') = 403).
Proof.
  split_all; try by_computation.
  intros (w' & H & _). vm_compute in H. discriminate.
Qed.

Lemma quote_agrees_with_fresh_product_witness :
  constantK (pool_of w3) = reserve1 (pool_of w3) * reserve2 (pool_of w3) /\
  NebuPool.getExpectedOutput tokenA 10 (mkCtx (pool_of w3) (tokens w3) (events w3))
    = spec_quote tokenA 10 (mkCtx (pool_of w3) (tokens w3) (events w3)).
Proof.
  apply (quote_agrees_with_fresh_product pool_address w3 pool0 (pool_of w3)
           (tokens w3) (events w3) tokenA 10 reachable_w3).
  by_computation.
Defined.

Lemma stored_product_counterexample :
  reachable pool_address w1 /\
  call_pool pool0 (NebuPool.addLiquidity pool0 alice 100 400) w1 = Ok (tt, w2) /\
  pools w1 !! pool0 = Some (pool_of w1) /\
  pools w2 !! pool0 = Some (pool_of w2) /\
  constantK (pool_of w1) = 0 /\
  constantK (pool_of w2) = 40000 /\
  reserve1 (pool_of w2) * reserve2 (pool_of w2) = 40000 /\
  ~ records_no_product w1 w2.
Proof.
  split; [exact reachable_w1|]. split_all; try by_computation.
  intros H.
  assert (E : constantK (pool_of w2) = constantK (pool_of w1))
    by (apply (H pool0); by_computation).
  vm_compute in E. discriminate.
Qed.

(** * Further properties *)

(** ** Ledgers *)

Lemma sum_balances_insert (m : gmap Z Z) (k v : Z) :
  map_fold (fun (_ : Z) (x acc : Z) => x + acc) 0 (<[k := v]> m)
  = map_fold (fun (_ : Z) (x acc : Z) => x + acc) 0 m - default 0 (m !! k) + v.
Proof.
  destruct (m !! k) as [x|] eqn:E; cbn.
  - rewrite <- (insert_delete_eq m k v).
    rewrite map_fold_insert_L by (intros; lia || apply lookup_delete_eq).
    rewrite (map_fold_delete_L _ _ k x m) by (intros; lia || assumption).
    lia.
  - rewrite map_fold_insert_L by (intros; lia || assumption). lia.
Qed.

Lemma sum_set_balance (t : ERC20) (a : address) (v : uint256) :
  sum_balances (set_balance a v t) = sum_balances t - balanceOf t a + v.
Proof. unfold sum_balances, set_balance, balanceOf. cbn. apply sum_balances_insert. Qed.

Lemma sum_nonneg (m : gmap Z Z) :
  (forall a x, m !! a = Some x -> 0 <= x) ->
  0 <= map_fold (fun (_ : Z) (x acc : Z) => x + acc) 0 m.
Proof.
  induction m as [|i x m Hi IH] using map_ind; intros Hpos.
  - rewrite map_fold_empty. lia.
  - rewrite map_fold_insert_L by (intros; lia || assumption).
    assert (0 <= x) by (apply (Hpos i); apply lookup_insert_eq).
    assert (0 <= map_fold (fun (_ : Z) (x acc : Z) => x + acc) 0 m); [|lia].
    apply IH. intros a y Ha. apply (Hpos a).
    rewrite lookup_insert_ne; [assumption|]. intros ->. congruence.
Qed.

Lemma balance_le_sum (m : gmap Z Z) (k v : Z) :
  (forall a x, m !! a = Some x -> 0 <= x) ->
  m !! k = Some v ->
  v <= map_fold (fun (_ : Z) (x acc : Z) => x + acc) 0 m.
Proof.
  intros Hpos Hk.
  rewrite (map_fold_delete_L _ _ k v m) by (intros; lia || assumption).
  assert (0 <= map_fold (fun (_ : Z) (x acc : Z) => x + acc) 0 (delete k m)); [|lia].
  apply sum_nonneg. intros a x Ha.
  apply lookup_delete_Some in Ha. destruct Ha as [_ Ha]. eauto.
Qed.

Lemma ledger_balance_range (t : ERC20) (a : address) :
  ledger_ok t -> 0 <= balanceOf t a <= totalSupply t.
Proof.
  intros (Hpos & Hsum & _). unfold balanceOf.
  destruct (balances t !! a) as [v|] eqn:E; cbn.
  - split; [eauto|]. rewrite <- Hsum. eapply balance_le_sum; eassumption.
  - split; [lia|]. rewrite <- Hsum. apply sum_nonneg. exact Hpos.
Qed.

Lemma ledger_set_balance (t : ERC20) (a : address) (v : uint256) :
  (forall b x, balances t !! b = Some x -> 0 <= x) -> 0 <= v ->
  forall b x, balances (set_balance a v t) !! b = Some x -> 0 <= x.
Proof.
  intros Hpos Hv b x. unfold set_balance. cbn. rewrite lookup_insert.
  case_decide; [intros [= <-]; assumption | apply Hpos].
Qed.

Lemma ledger_empty : ledger_ok (mkERC20 0 ∅ ∅).
Proof.
  split; [|split]; cbn.
  - intros a v. rewrite lookup_empty. discriminate.
  - unfold sum_balances. cbn. apply map_fold_empty.
  - unfold MAX_UINT256. lia.
Qed.

Lemma _transfer_ledger (from to : address) (value : uint256) (t t' : ERC20) (u : unit) :
  ERC20._transfer from to value t = Ok (u, t') ->
  0 <= value -> ledger_ok t ->
  ledger_ok t' /\ totalSupply t' = totalSupply t.
Proof.
  unfold ERC20._transfer. intros H Hv Hok. monad_inv.
  match goal with E : (_ <? _) = false |- _ => apply Z.ltb_ge in E end.
  pose proof (ledger_balance_range t to Hok) as Hto.
  destruct Hok as (Hpos & Hsum & Hmax).
  split; [|reflexivity]. split; [|split].
  - apply ledger_set_balance.
    + apply ledger_set_balance; [assumption | lia].
    + rewrite balanceOf_set_balance. case_decide; lia.
  - rewrite !sum_set_balance, !balanceOf_set_balance. cbn.
    case_decide; lia.
  - exact Hmax.
Qed.

Lemma transfer_ledger (from to : address) (value : uint256) (t t' : ERC20) (b : bool) :
  ERC20.transfer from to value t = Ok (b, t') ->
  0 <= value -> ledger_ok t ->
  ledger_ok t' /\ totalSupply t' = totalSupply t.
Proof.
  unfold ERC20.transfer. intros H Hv Hok.
  apply bind_Ok in H. destruct H as ([] & t1 & H1 & H2).
  apply mret_Ok in H2. inv_pair H2.
  eapply _transfer_ledger; eassumption.
Qed.

Lemma approve_ledger (owner spender : address) (value : uint256) (t t' : ERC20) (b : bool) :
  ERC20.approve owner spender value t = Ok (b, t') ->
  ledger_ok t -> ledger_ok t' /\ totalSupply t' = totalSupply t.
Proof.
  unfold ERC20.approve. intros H Hok. monad_inv. split; [exact Hok | reflexivity].
Qed.

Lemma transferFrom_ledger (spender from to : address) (value : uint256) (t t' : ERC20)
    (b : bool) :
  ERC20.transferFrom spender from to value t = Ok (b, t') ->
  0 <= value -> ledger_ok t ->
  ledger_ok t' /\ totalSupply t' = totalSupply t.
Proof.
  unfold ERC20.transferFrom, ERC20._spendAllowance. intros H Hv Hok.
  apply bind_Ok in H. destruct H as ([] & t1 & H1 & H2).
  apply bind_Ok in H2. destruct H2 as ([] & t2 & H2 & H3).
  apply mret_Ok in H3. inv_pair H3.
  monad_inv.
  eapply _transfer_ledger in H2; [|assumption|exact Hok]. exact H2.
Qed.

Lemma mint_ledger (this to : address) (amount : uint256) (l l' : NebulaLiquidityToken)
    (u : unit) :
  NebulaLiquidityToken.mint this to amount l = Ok (u, l') ->
  0 <= amount -> ledger_ok (erc20 l) ->
  ledger_ok (erc20 l') /\
  DEFAULT_ADMIN_ROLE l' = DEFAULT_ADMIN_ROLE l /\
  totalSupply (erc20 l') = totalSupply (erc20 l) + amount.
Proof.
  unfold NebulaLiquidityToken.mint, NebulaLiquidityToken.onlyRole,
    NebulaLiquidityToken.super, ERC20._mint.
  intros H Hv Hok. monad_inv.
  destruct (_ ≫= _) as [[u' t]|e] eqn:E in H; [|discriminate].
  inv_pair H. monad_inv. cbn.
  pose proof (ledger_balance_range (erc20 l) to Hok) as Hto.
  destruct Hok as (Hpos & Hsum & Hmax).
  split; [|split; reflexivity]. split; [|split]; cbn.
  - apply (ledger_set_balance (set_totalSupply (totalSupply (erc20 l) + amount) (erc20 l)));
      [exact Hpos | lia].
  - rewrite sum_set_balance. cbn.
    change (sum_balances (set_totalSupply (totalSupply (erc20 l) + amount) (erc20 l)))
      with (sum_balances (erc20 l)).
    rewrite balanceOf_set_totalSupply. lia.
  - assumption.
Qed.

Lemma burn_ledger (this from : address) (amount : uint256) (l l' : NebulaLiquidityToken)
    (u : unit) :
  NebulaLiquidityToken.burn this from amount l = Ok (u, l') ->
  0 <= amount -> ledger_ok (erc20 l) ->
  ledger_ok (erc20 l') /\
  DEFAULT_ADMIN_ROLE l' = DEFAULT_ADMIN_ROLE l /\
  totalSupply (erc20 l') = totalSupply (erc20 l) - amount /\
  amount <= totalSupply (erc20 l).
Proof.
  unfold NebulaLiquidityToken.burn, NebulaLiquidityToken.onlyRole,
    NebulaLiquidityToken.super, ERC20._burn.
  intros H Hv Hok. monad_inv.
  destruct (_ ≫= _) as [[u' t]|e] eqn:E in H; [|discriminate].
  inv_pair H. monad_inv. cbn.
  match goal with E : (_ <? _) = false |- _ => apply Z.ltb_ge in E end.
  pose proof (ledger_balance_range (erc20 l) from Hok) as Hfrom.
  destruct Hok as (Hpos & Hsum & Hmax).
  split; [|split; [reflexivity|split; [reflexivity|lia]]].
  split; [|split]; cbn.
  - apply ledger_set_balance; [exact Hpos | lia].
  - change (sum_balances (set_totalSupply ?v ?t)) with (sum_balances t).
    rewrite sum_set_balance. lia.
  - lia.
Qed.

(** ** What a successful pool call did *)

Lemma updateConstantFormula_bound (c : Ctx) (r : unit * Ctx) :
  NebuPool._updateConstantFormula c = Ok r ->
  reserve1 (self c) * reserve2 (self c) <= MAX_UINT256.
Proof.
  unfold NebuPool._updateConstantFormula. intros H. monad_inv.
  - apply orb_true_iff in Heqb. destruct Heqb as [E|E]; apply Z.eqb_eq in E;
      rewrite E; unfold MAX_UINT256; lia.
  - assumption.
Qed.

Ltac pool_inv_bound :=
  repeat ((monad_inv1
           || (match goal with
               | H : NebuPool._updateConstantFormula _ = Ok _ |- _ =>
                   pose proof (updateConstantFormula_bound _ _ H)
               end; call_inv1)
           || call_inv1);
          cbn [self erc20s logs set_self fst snd] in * ).

Ltac to_Prop :=
  repeat match goal with
  | E : (_ || _) = false |- _ => apply orb_false_iff in E; destruct E as [? ?]
  | E : (_ && _) = true |- _ => apply andb_true_iff in E; destruct E as [? ?]
  | E : (_ =? _) = true |- _ => apply Z.eqb_eq in E
  | E : (_ =? _) = false |- _ => apply Z.eqb_neq in E
  | E : (_ <? _) = true |- _ => apply Z.ltb_lt in E
  | E : (_ <? _) = false |- _ => apply Z.ltb_ge in E
  | E : (_ <=? _) = true |- _ => apply Z.leb_le in E
  | E : (_ <=? _) = false |- _ => apply Z.leb_gt in E
  end.

Lemma addLiquidity_Ok this sender amountToken1 amountToken2 (c c' : Ctx) :
  NebuPool.addLiquidity this sender amountToken1 amountToken2 c = Ok (tt, c') ->
  let p := self c in
  let T := shareSupply p in
  exists minted r1' r2' l',
    NebulaLiquidityToken.mint this sender minted (liquidityToken p) = Ok (tt, l') /\
    self c' = mkNebuPool (token1 p) (token2 p) r1' r2' (r1' * r2') l' /\
    r1' * r2' <= MAX_UINT256 /\
    logs c' = logs c ++ [LiquidityAdded sender amountToken1 amountToken2 minted] /\
    ((T = 0 /\ minted = Z.sqrt (amountToken1 * amountToken2) /\ 0 < minted /\
      r1' = amountToken1 /\ r2' = amountToken2) \/
     (T <> 0 /\ reserve1 p <> 0 /\ reserve2 p <> 0 /\
      minted = Z.min (amountToken1 * T / reserve1 p) (amountToken2 * T / reserve2 p) /\
      r1' = reserve1 p + amountToken1 /\ r2' = reserve2 p + amountToken2 /\
      r1' <= MAX_UINT256 /\ r2' <= MAX_UINT256)).
Proof.
  intros H p T. subst p T. unfold shareSupply.
  unfold NebuPool.addLiquidity in H. pool_inv_bound; to_Prop.
  - match goal with E : NebulaLiquidityToken.mint _ _ _ _ = Ok (?u, _) |- _ =>
      destruct u; cbn in E end.
    do 4 eexists. split; [eassumption|]. split; [reflexivity|].
    split; [assumption|]. split; [reflexivity|].
    left. unfold Math.sqrt in *. auto.
  - match goal with E : NebulaLiquidityToken.mint _ _ _ _ = Ok (?u, _) |- _ =>
      destruct u; cbn in E end.
    do 4 eexists. split; [eassumption|]. split; [reflexivity|].
    split; [assumption|]. split; [reflexivity|].
    right. unfold Math.min. repeat match goal with |- _ /\ _ => split end;
      (assumption || reflexivity).
Qed.

Lemma removeLiquidity_Ok this sender liquidity (c c' : Ctx) :
  NebuPool.removeLiquidity this sender liquidity c = Ok (tt, c') ->
  let p := self c in
  let T := shareSupply p in
  let amountToken1 := liquidity * reserve1 p / T in
  let amountToken2 := liquidity * reserve2 p / T in
  exists l',
    NebulaLiquidityToken.burn this sender liquidity (liquidityToken p) = Ok (tt, l') /\
    0 < T /\ amountToken1 <= reserve1 p /\ amountToken2 <= reserve2 p /\
    self c' = mkNebuPool (token1 p) (token2 p)
                (reserve1 p - amountToken1) (reserve2 p - amountToken2)
                ((reserve1 p - amountToken1) * (reserve2 p - amountToken2)) l' /\
    (reserve1 p - amountToken1) * (reserve2 p - amountToken2) <= MAX_UINT256 /\
    logs c' = logs c ++ [LiquidityRemoved sender amountToken1 amountToken2 liquidity].
Proof.
  intros H p T a1 a2. subst a1 a2 p T. unfold shareSupply.
  unfold NebuPool.removeLiquidity in H. pool_inv_bound; to_Prop.
  match goal with E : NebulaLiquidityToken.burn _ _ _ _ = Ok (?u, _) |- _ =>
    destruct u; cbn in E end.
  eexists. split; [eassumption|].
  repeat match goal with |- _ /\ _ => split end; (assumption || reflexivity).
Qed.

Lemma swapTokens_frame this sender fromToken toToken amountIn amountOut (c c' : Ctx) :
  NebuPool.swapTokens this sender fromToken toToken amountIn amountOut c = Ok (tt, c') ->
  let p := self c in
  liquidityToken (self c') = liquidityToken p /\
  constantK (self c') = constantK p /\
  token1 (self c') = token1 p /\ token2 (self c') = token2 p /\
  reserve1 p + amountIn <= MAX_UINT256 /\
  reserve1 p + amountIn <> 0 /\
  constantK p / (reserve1 p + amountIn) <= reserve2 p.
Proof.
  intros H p. subst p. pose proof (swapTokens_Ok _ _ _ _ _ _ _ _ H) as Hs.
  cbn zeta in Hs. destruct Hs as (-> & -> & _).
  unfold NebuPool.swapTokens in H. pool_inv; to_Prop; cbn in *;
    try congruence; try (rewrite ?Z.eqb_refl in *; cbn in *; discriminate);
    repeat match goal with |- _ /\ _ => split end; (assumption || reflexivity).
Qed.

(** ** Pools stay well formed *)

Lemma supply_nonneg (p : NebuPool) :
  ledger_ok (erc20 (liquidityToken p)) -> 0 <= shareSupply p.
Proof.
  intros Hok. pose proof (ledger_balance_range _ 0 Hok). unfold shareSupply. lia.
Qed.

Lemma addLiquidity_effect this sender amountToken1 amountToken2 (c c' : Ctx) :
  NebuPool.addLiquidity this sender amountToken1 amountToken2 c = Ok (tt, c') ->
  0 <= amountToken1 -> 0 <= amountToken2 ->
  pool_ok this (self c) ->
  let p := self c in
  let minted := shareSupply (self c') - shareSupply p in
  reserve1 (self c') = reserve1 p + amountToken1 /\
  reserve2 (self c') = reserve2 p + amountToken2 /\
  0 <= minted /\
  minted * reserve1 p <= amountToken1 * shareSupply p /\
  minted * reserve2 p <= amountToken2 * shareSupply p /\
  (shareSupply p = 0 -> 0 < minted).
Proof.
  intros H Ha1 Ha2 (Hl & _ & [Hr1 _] & [Hr2 _] & _ & _ & Hzero & Hpos & _ & _) p minted.
  subst p minted.
  pose proof (supply_nonneg _ Hl) as HT.
  apply addLiquidity_Ok in H. cbn zeta in H.
  destruct H as (minted & r1' & r2' & l' & Hmint & -> & _ & _ & Hcase).
  apply mint_Ok in Hmint. destruct Hmint as (_ & _ & Es & _).
  unfold shareSupply in *. cbn. rewrite Es.
  replace (totalSupply (erc20 (liquidityToken (self c))) + minted
           - totalSupply (erc20 (liquidityToken (self c)))) with minted by lia.
  destruct Hcase as [(HT0 & -> & Hm & -> & ->)|(HT0 & Hn1 & Hn2 & -> & -> & -> & _)].
  - destruct (Hzero HT0) as [-> ->]. rewrite HT0.
    repeat match goal with |- _ /\ _ => split end; (lia || (intros; lia)).
  - destruct Hpos as [Hp1 Hp2]; [lia|].
    set (T := totalSupply (erc20 (liquidityToken (self c)))) in *.
    assert (H1 : amountToken1 * T / reserve1 (self c) * reserve1 (self c)
                 <= amountToken1 * T).
    { rewrite Z.mul_comm. apply Z.mul_div_le. lia. }
    assert (H2 : amountToken2 * T / reserve2 (self c) * reserve2 (self c)
                 <= amountToken2 * T).
    { rewrite Z.mul_comm. apply Z.mul_div_le. lia. }
    assert (0 <= amountToken1 * T / reserve1 (self c)) by (apply Z.div_pos; nia).
    assert (0 <= amountToken2 * T / reserve2 (self c)) by (apply Z.div_pos; nia).
    repeat match goal with |- _ /\ _ => split end; try (lia || (intros; lia)).
    + assert (Z.min (amountToken1 * T / reserve1 (self c))
                    (amountToken2 * T / reserve2 (self c))
              <= amountToken1 * T / reserve1 (self c)) by lia.
      nia.
    + assert (Z.min (amountToken1 * T / reserve1 (self c))
                    (amountToken2 * T / reserve2 (self c))
              <= amountToken2 * T / reserve2 (self c)) by lia.
      nia.
Qed.

Lemma removeLiquidity_effect this sender liquidity (c c' : Ctx) :
  NebuPool.removeLiquidity this sender liquidity c = Ok (tt, c') ->
  let p := self c in
  let T := shareSupply p in
  0 < T /\
  shareSupply (self c') = T - liquidity /\
  reserve1 (self c') = reserve1 p - liquidity * reserve1 p / T /\
  reserve2 (self c') = reserve2 p - liquidity * reserve2 p / T.
Proof.
  intros H p T. subst p T.
  apply removeLiquidity_Ok in H. cbn zeta in H.
  destruct H as (l' & Hburn & HT & _ & _ & -> & _ & _).
  apply burn_Ok in Hburn. destruct Hburn as (_ & _ & Es & _).
  unfold shareSupply in *. cbn. rewrite Es. auto.
Qed.

(** If every reserve grows at least in proportion to the share supply, the
    supply stays below the geometric mean of the reserves. *)
Lemma backing_step (T T' r1 r2 r1' r2' : Z) :
  0 < T -> 0 <= T' -> 0 <= r1 -> 0 <= r2 -> 0 <= r1' -> 0 <= r2' ->
  r1 * T' <= r1' * T -> r2 * T' <= r2' * T ->
  T * T <= r1 * r2 -> T' * T' <= r1' * r2'.
Proof.
  intros HT HT' H1 H2 H1' H2' Hd1 Hd2 Hgm.
  assert (Ha : (T' * T') * (T * T) <= (T' * T') * (r1 * r2))
    by (apply Z.mul_le_mono_nonneg_l; nia).
  assert (Hb : (r1 * T') * (r2 * T') <= (r1' * T) * (r2' * T))
    by (apply Z.mul_le_mono_nonneg; nia).
  assert (Hc : (T' * T') * (T * T) <= (r1' * r2') * (T * T)) by nia.
  apply Z.mul_le_mono_pos_r in Hc; nia.
Qed.

Lemma addLiquidity_backing this sender amountToken1 amountToken2 (c c' : Ctx) :
  NebuPool.addLiquidity this sender amountToken1 amountToken2 c = Ok (tt, c') ->
  0 <= amountToken1 -> 0 <= amountToken2 ->
  pool_ok this (self c) ->
  shareSupply (self c') * shareSupply (self c') <= reserve1 (self c') * reserve2 (self c').
Proof.
  intros H Ha1 Ha2 Hok.
  destruct (addLiquidity_effect _ _ _ _ _ _ H Ha1 Ha2 Hok)
    as (E1 & E2 & Hm & Hd1 & Hd2 & _).
  destruct Hok as (Hl & _ & [Hr1 _] & [Hr2 _] & HK & _ & Hzero & Hpos & Hgm & Hne).
  pose proof (supply_nonneg _ Hl) as HT.
  destruct (Z.eq_dec (shareSupply (self c)) 0) as [HT0|HT0].
  - apply addLiquidity_Ok in H. cbn zeta in H.
    destruct H as (minted & r1' & r2' & l' & Hmint & Hself & _ & _ & Hcase).
    apply mint_Ok in Hmint. destruct Hmint as (_ & _ & Es & _).
    destruct Hcase as [(_ & -> & _ & -> & ->)|(Hn & _)]; [|contradiction].
    rewrite Hself. unfold shareSupply in *. cbn. rewrite Es, HT0, Z.add_0_l.
    apply Z.sqrt_spec. nia.
  - destruct Hpos as [Hp1 Hp2]; [lia|].
    apply (backing_step (shareSupply (self c)) _ (reserve1 (self c)) (reserve2 (self c)));
      try lia; try nia.
Qed.

Lemma removeLiquidity_backing this sender liquidity (c c' : Ctx) :
  NebuPool.removeLiquidity this sender liquidity c = Ok (tt, c') ->
  0 <= liquidity ->
  pool_ok this (self c) ->
  reserve1 (self c) * shareSupply (self c') <= reserve1 (self c') * shareSupply (self c) /\
  reserve2 (self c) * shareSupply (self c') <= reserve2 (self c') * shareSupply (self c) /\
  shareSupply (self c') * shareSupply (self c') <= reserve1 (self c') * reserve2 (self c').
Proof.
  intros H Hl0 (Hl & _ & [Hr1 _] & [Hr2 _] & HK & _ & Hzero & Hpos & Hgm & Hne).
  destruct (removeLiquidity_effect _ _ _ _ _ H) as (HT & ET & E1 & E2).
  apply removeLiquidity_Ok in H. cbn zeta in H.
  destruct H as (l' & Hburn & _ & Ha1 & Ha2 & _).
  destruct (burn_ledger _ _ _ _ _ _ Hburn Hl0 Hl) as (_ & _ & _ & Hle).
  fold (shareSupply (self c)) in Hle.
  set (T := shareSupply (self c)) in *.
  assert (Hd1 : T * (liquidity * reserve1 (self c) / T) <= liquidity * reserve1 (self c))
    by (apply Z.mul_div_le; lia).
  assert (Hd2 : T * (liquidity * reserve2 (self c) / T) <= liquidity * reserve2 (self c))
    by (apply Z.mul_div_le; lia).
  assert (G1 : reserve1 (self c) * shareSupply (self c') <= reserve1 (self c') * T)
    by (rewrite ET, E1; nia).
  assert (G2 : reserve2 (self c) * shareSupply (self c') <= reserve2 (self c') * T)
    by (rewrite ET, E2; nia).
  split; [exact G1|]. split; [exact G2|].
  apply (backing_step T _ (reserve1 (self c)) (reserve2 (self c)));
    try lia; try nia.
Qed.

Lemma addLiquidity_pool_ok this sender amountToken1 amountToken2 (c c' : Ctx) :
  NebuPool.addLiquidity this sender amountToken1 amountToken2 c = Ok (tt, c') ->
  is_uint256 amountToken1 -> is_uint256 amountToken2 ->
  pool_ok this (self c) -> pool_ok this (self c').
Proof.
  intros H [Ha1 Ha1'] [Ha2 Ha2'] Hok.
  pose proof (addLiquidity_backing _ _ _ _ _ _ H Ha1 Ha2 Hok) as Hb.
  destruct Hok as (Hl & Hrole & [Hr1 Hr1'] & [Hr2 Hr2'] & HK & HKmax & Hzero & Hpos & Hgm & Hne).
  pose proof (supply_nonneg _ Hl) as HT.
  apply addLiquidity_Ok in H. cbn zeta in H.
  destruct H as (minted & r1' & r2' & l' & Hmint & Hself & Hprod & _ & Hcase).
  rewrite Hself in Hb |- *.
  unfold pool_ok, shareSupply, is_uint256 in *. cbn in Hb |- *.
  assert (Hm : 0 <= minted /\ 0 < totalSupply (erc20 (liquidityToken (self c))) + minted
                /\ 0 < r1' <= MAX_UINT256 /\ 0 < r2' <= MAX_UINT256).
  { destruct Hcase as [(HT0 & -> & Hm & -> & ->)|(HT0 & Hn1 & Hn2 & -> & -> & -> & Hm1 & Hm2)].
    - pose proof (proj1 (Z.sqrt_pos _) Hm) as Hm'.
      assert (0 < amountToken1)
        by (destruct (Z.eq_dec amountToken1 0) as [->|];
            [rewrite Z.mul_0_l in Hm'; lia | lia]).
      assert (0 < amountToken2)
        by (destruct (Z.eq_dec amountToken2 0) as [->|];
            [rewrite Z.mul_0_r in Hm'; lia | lia]).
      repeat split; lia.
    - destruct Hpos as [Hp1 Hp2]; [lia|].
      assert (0 <= amountToken1 * totalSupply (erc20 (liquidityToken (self c)))
                   / reserve1 (self c)) by (apply Z.div_pos; nia).
      assert (0 <= amountToken2 * totalSupply (erc20 (liquidityToken (self c)))
                   / reserve2 (self c)) by (apply Z.div_pos; nia).
      repeat split; lia. }
  destruct Hm as (Hm0 & HT' & Hr1'' & Hr2'').
  destruct (mint_ledger _ _ _ _ _ _ Hmint Hm0 Hl) as (Hl' & Hrole' & HT'').
  rewrite Hrole', HT''.
  repeat match goal with |- _ /\ _ => split end;
    try (assumption || reflexivity || lia || (intros; lia)).
Qed.

Lemma removeLiquidity_pool_ok this sender liquidity (c c' : Ctx) :
  NebuPool.removeLiquidity this sender liquidity c = Ok (tt, c') ->
  is_uint256 liquidity ->
  pool_ok this (self c) -> pool_ok this (self c').
Proof.
  intros H [Hl0 _] Hok.
  destruct (removeLiquidity_backing _ _ _ _ _ H Hl0 Hok) as (_ & _ & Hb).
  destruct Hok as (Hl & Hrole & [Hr1 Hr1'] & [Hr2 Hr2'] & HK & HKmax & Hzero & Hpos & Hgm & Hne).
  apply removeLiquidity_Ok in H. cbn zeta in H.
  destruct H as (l' & Hburn & HT & Ha1 & Ha2 & Hself & Hprod & _).
  rewrite Hself in Hb |- *.
  destruct (burn_ledger _ _ _ _ _ _ Hburn Hl0 Hl) as (Hl' & Hrole' & HT' & Hle).
  destruct (Hpos HT) as [Hp1 Hp2].
  unfold pool_ok, shareSupply, is_uint256 in *. cbn in Hb |- *.
  set (T := totalSupply (erc20 (liquidityToken (self c)))) in *.
  assert (Hd1 : 0 <= liquidity * reserve1 (self c) / T) by (apply Z.div_pos; nia).
  assert (Hd2 : 0 <= liquidity * reserve2 (self c) / T) by (apply Z.div_pos; nia).
  rewrite Hrole', HT'.
  repeat match goal with |- _ /\ _ => split end;
    try (assumption || reflexivity || lia).
  - intros Hz. assert (liquidity = T) by lia. subst liquidity.
    rewrite !(Z.mul_comm T), !Z.div_mul by lia. lia.
  - intros Hz.
    assert (liquidity * reserve1 (self c) / T < reserve1 (self c))
      by (apply Z.div_lt_upper_bound; nia).
    assert (liquidity * reserve2 (self c) / T < reserve2 (self c))
      by (apply Z.div_lt_upper_bound; nia).
    lia.
Qed.

Lemma swapTokens_pool_ok this sender fromToken toToken amountIn amountOut (c c' : Ctx) :
  NebuPool.swapTokens this sender fromToken toToken amountIn amountOut c = Ok (tt, c') ->
  pool_ok this (self c) -> pool_ok this (self c').
Proof.
  intros H (Hl & Hrole & [Hr1 Hr1'] & [Hr2 Hr2'] & HK & HKmax & Hzero & Hpos & Hgm & Hne).
  pose proof (supply_nonneg _ Hl) as HT.
  pose proof (swapTokens_frame _ _ _ _ _ _ _ _ H) as Hf. cbn zeta in Hf.
  destruct Hf as (El & EK & Et1 & Et2 & Hadd & Hnz & Hq).
  apply swapTokens_Ok in H. cbn zeta in H.
  destruct H as (_ & _ & Hin & Hout & Hexp & E1 & E2 & Eprod & _).
  unfold pool_ok, shareSupply, is_uint256 in *.
  rewrite El, EK, E1, E2, Et1, Et2.
  assert (Hsupply : 0 < totalSupply (erc20 (liquidityToken (self c)))).
  { destruct (Z.eq_dec (totalSupply (erc20 (liquidityToken (self c)))) 0) as [Hz|Hz]; [|lia].
    destruct (Hzero Hz) as [Z1 Z2]. rewrite HK, Z1, Z2 in Hexp.
    rewrite Z.mul_0_l, Z.div_0_l in Hexp by lia. lia. }
  destruct (Hpos Hsupply) as [Hp1 Hp2].
  rewrite E1, E2 in Eprod.
  assert (0 < reserve2 (self c)
              - (reserve2 (self c) - constantK (self c) / (reserve1 (self c) + amountIn)))
    by nia.
  repeat match goal with |- _ /\ _ => split end;
    try (assumption || lia || (intros; lia)).
Qed.

Lemma share_ledger_pool_ok {A} (f : M ERC20 A) this (c c' : Ctx) (a : A) :
  (forall t t', f t = Ok (a, t') -> ledger_ok t ->
                ledger_ok t' /\ totalSupply t' = totalSupply t) ->
  LP (NebulaLiquidityToken.super f) c = Ok (a, c') ->
  pool_ok this (self c) -> pool_ok this (self c').
Proof.
  intros Hf H (Hl & Hrole & Hr1 & Hr2 & HK & HKmax & Hzero & Hpos & Hgm & Hne).
  apply LP_Ok in H. destruct H as (a' & l & Hsuper & H). inv_pair H.
  unfold NebulaLiquidityToken.super in Hsuper.
  destruct (f (erc20 (liquidityToken (self c)))) as [[a'' t']|e] eqn:E; [|discriminate].
  inv_pair Hsuper.
  destruct (Hf _ _ E Hl) as [Hl' HT'].
  unfold pool_ok, shareSupply in *. cbn. rewrite HT'.
  repeat match goal with |- _ /\ _ => split end; assumption.
Qed.

Section WellFormed.

Variable pool_address : nat -> address.

Lemma call_pool_world_ok {A} pool (f : M Ctx A) (w w' : World) (a : A) :
  (forall c c', f c = Ok (a, c') -> pool_ok pool (self c) -> pool_ok pool (self c')) ->
  call_pool pool f w = Ok (a, w') ->
  world_ok w -> world_ok w'.
Proof.
  intros Hf H Hw. apply call_pool_Ok in H. destruct H as (p & a' & c & Hp & Hc & H).
  inv_pair H. intros b q. cbn. rewrite lookup_insert.
  case_decide.
  - intros [= <-]. subst b. eapply Hf; [eassumption|]. cbn. eauto.
  - apply Hw.
Qed.

Lemma step_world_ok (w w' : World) :
  step pool_address w w' -> world_ok w -> world_ok w'.
Proof.
  intros Hs Hw. destruct Hs.
  - apply createPairs_Ok in H. destruct H as (Hne & _ & _ & _ & nm & sy & ->).
    intros b q. cbn. rewrite lookup_insert. case_decide.
    + intros [= <-]. subst b.
      unfold pool_ok, shareSupply, is_uint256, MAX_UINT256. cbn.
      repeat match goal with |- _ /\ _ => split end;
        try (assumption || reflexivity || lia || (intros; lia)).
      apply ledger_empty.
    + apply Hw.
  - eapply call_pool_world_ok; [|eassumption|assumption].
    intros c c' Hc. eapply addLiquidity_pool_ok; eassumption.
  - eapply call_pool_world_ok; [|eassumption|assumption].
    intros c c' Hc. eapply removeLiquidity_pool_ok; eassumption.
  - eapply call_pool_world_ok; [|eassumption|assumption].
    intros c c' Hc. eapply swapTokens_pool_ok; eassumption.
  - eapply call_pool_world_ok; [|eassumption|assumption].
    intros c c'. apply share_ledger_pool_ok.
    intros t t' Ht. eapply transfer_ledger; [eassumption | apply H].
  - eapply call_pool_world_ok; [|eassumption|assumption].
    intros c c'. apply share_ledger_pool_ok.
    intros t t' Ht. eapply approve_ledger; eassumption.
  - eapply call_pool_world_ok; [|eassumption|assumption].
    intros c c'. apply share_ledger_pool_ok.
    intros t t' Ht. eapply transferFrom_ledger; [eassumption | apply H].
  - exact Hw.
Qed.

Lemma reachable_world_ok (w : World) :
  reachable pool_address w -> world_ok w.
Proof.
  induction 1 as [ts | w w' _ IH Hs].
  - intros a p. cbn. rewrite lookup_empty. discriminate.
  - eapply step_world_ok; eassumption.
Qed.

End WellFormed.

(** ** Shares and reserves *)

Section Shares.

Variable pool_address : nat -> address.

(** X1. Every pool of a reachable state keeps its reserves, its stored
    product and its share supply within 256 bits, and holds reserves exactly
    when shares are outstanding: the supply is zero iff both reserves are
    zero, and one reserve is zero iff the other is. *)
Theorem pool_state_well_formed (w : World) (pool : address) (p : NebuPool) :
  reachable pool_address w ->
  pools w !! pool = Some p ->
  is_uint256 (reserve1 p) /\ is_uint256 (reserve2 p) /\
  is_uint256 (constantK p) /\ is_uint256 (shareSupply p) /\
  (shareSupply p = 0 <-> reserve1 p = 0 /\ reserve2 p = 0) /\
  (reserve1 p = 0 <-> reserve2 p = 0).
Proof.
  intros Hr Hp.
  destruct (reachable_world_ok pool_address w Hr pool p Hp)
    as (Hl & _ & [Hr1 Hr1'] & [Hr2 Hr2'] & HK & HKmax & Hzero & Hpos & Hgm & Hne).
  pose proof (supply_nonneg p Hl) as HT.
  destruct Hl as (_ & _ & HTmax). unfold is_uint256, shareSupply in *.
  assert (Hnz : totalSupply (erc20 (liquidityToken p)) <> 0 ->
                0 < reserve1 p /\ 0 < reserve2 p) by (intros; apply Hpos; lia).
  split; [lia|]. split; [lia|]. split; [nia|]. split; [lia|]. split; [split|split].
  - exact Hzero.
  - intros [Z1 Z2].
    destruct (Z.eq_dec (totalSupply (erc20 (liquidityToken p))) 0) as [|Hn]; [assumption|].
    destruct (Hnz Hn); lia.
  - intros Z1.
    destruct (Z.eq_dec (totalSupply (erc20 (liquidityToken p))) 0) as [Hz|Hn].
    + apply Hzero. exact Hz.
    + destruct (Hnz Hn); lia.
  - intros Z2.
    destruct (Z.eq_dec (totalSupply (erc20 (liquidityToken p))) 0) as [Hz|Hn].
    + apply Hzero. exact Hz.
    + destruct (Hnz Hn); lia.
Qed.

(** X2. In every reachable state the balances of a pool's share ledger add
    up to its total supply, and every holder's balance lies between zero
    and the supply. *)
Theorem share_ledger_consistent (w : World) (pool : address) (p : NebuPool) :
  reachable pool_address w ->
  pools w !! pool = Some p ->
  sum_balances (erc20 (liquidityToken p)) = shareSupply p /\
  forall holder, 0 <= sharesOf p holder <= shareSupply p.
Proof.
  intros Hr Hp.
  destruct (reachable_world_ok pool_address w Hr pool p Hp) as (Hl & _).
  split.
  - destruct Hl as (_ & Hsum & _). exact Hsum.
  - intros holder. apply ledger_balance_range. exact Hl.
Qed.

(** X3. The share token of a deployed pool is administered by the pool
    alone: its mint and burn pass the role check for the pool and revert
    with an authorization error for every other caller, whatever the
    amount. *)
Theorem only_the_pool_mints_and_burns (w : World) (pool : address) (p : NebuPool)
    (caller account : address) (amount : uint256) :
  reachable pool_address w ->
  pools w !! pool = Some p ->
  DEFAULT_ADMIN_ROLE (liquidityToken p) = {[ pool ]} /\
  outcome (NebulaLiquidityToken.onlyRole pool (liquidityToken p)) = Ok tt /\
  (caller <> pool ->
   NebulaLiquidityToken.mint caller account amount (liquidityToken p)
     = Revert AccessControlUnauthorizedAccount /\
   NebulaLiquidityToken.burn caller account amount (liquidityToken p)
     = Revert AccessControlUnauthorizedAccount).
Proof.
  intros Hr Hp.
  destruct (reachable_world_ok pool_address w Hr pool p Hp) as (_ & Hrole & _).
  split; [exact Hrole|]. split.
  - unfold NebulaLiquidityToken.onlyRole, mbind, M_bind, get.
    rewrite bool_decide_eq_true_2; [reflexivity|]. rewrite Hrole. set_solver.
  - intros Hne.
    assert (Hout : bool_decide (caller ∈ DEFAULT_ADMIN_ROLE (liquidityToken p)) = false).
    { apply bool_decide_eq_false_2. rewrite Hrole. set_solver. }
    unfold NebulaLiquidityToken.mint, NebulaLiquidityToken.burn,
      NebulaLiquidityToken.onlyRole, mbind, M_bind, get.
    rewrite Hout. split; reflexivity.
Qed.

End Shares.

(** X4. A withdrawal of the whole share supply empties the pool: both
    reserves and the stored product become zero, no shares remain, and the
    amounts paid out are the full reserves. *)
Theorem full_withdrawal_empties_pool this sender (c c' : Ctx) :
  NebuPool.removeLiquidity this sender (shareSupply (self c)) c = Ok (tt, c') ->
  reserve1 (self c') = 0 /\ reserve2 (self c') = 0 /\
  constantK (self c') = 0 /\ shareSupply (self c') = 0 /\
  logs c' = logs c ++ [LiquidityRemoved sender (reserve1 (self c)) (reserve2 (self c))
                         (shareSupply (self c))].
Proof.
  intros H. apply removeLiquidity_Ok in H. cbn zeta in H.
  destruct H as (l' & Hburn & HT & _ & _ & Hself & _ & Hlog).
  apply burn_Ok in Hburn. destruct Hburn as (_ & _ & Es & _).
  rewrite !(Z.mul_comm (shareSupply (self c))), !Z.div_mul in Hself, Hlog by lia.
  rewrite Hself, Hlog. unfold shareSupply in *. cbn. rewrite Es.
  repeat match goal with |- _ /\ _ => split end; (reflexivity || lia).
Qed.


(** ** Deposits and withdrawals compose *)

Lemma call_pool_run {A} (pool : address) (f : M Ctx A) (w w' : World) (a : A)
    (p : NebuPool) :
  pools w !! pool = Some p ->
  call_pool pool f w = Ok (a, w') ->
  exists c', f (mkCtx p (tokens w) (events w)) = Ok (a, c') /\
    pools w' !! pool = Some (self c') /\
    tokens w' = erc20s c' /\ events w' = logs c' /\
    (forall other, other <> pool -> pools w' !! other = pools w !! other).
Proof.
  intros Hp H. apply call_pool_Ok in H. destruct H as (p' & a' & c & Hp' & Hc & H).
  inv_pair H. rewrite Hp in Hp'. inv_pair Hp'.
  exists c. cbn. rewrite lookup_insert_eq.
  repeat match goal with |- _ /\ _ => split end; try (assumption || reflexivity).
  intros other Hne. rewrite lookup_insert_ne by congruence. reflexivity.
Qed.

Section Liquidity.

Variable pool_address : nat -> address.

(** X5. Depositing and then withdrawing the shares that the deposit minted
    never pays out more than was deposited: the share supply is back at its
    old value and neither reserve has dropped below its old value.  On a
    pool without shares the withdrawal returns the deposit exactly. *)
Theorem deposit_then_withdraw (w w1 w2 : World) (pool sender : address)
    (p p1 : NebuPool) (amountToken1 amountToken2 : uint256) :
  reachable pool_address w ->
  pools w !! pool = Some p ->
  is_uint256 amountToken1 -> is_uint256 amountToken2 ->
  call_pool pool (NebuPool.addLiquidity pool sender amountToken1 amountToken2) w
    = Ok (tt, w1) ->
  pools w1 !! pool = Some p1 ->
  call_pool pool (NebuPool.removeLiquidity pool sender (shareSupply p1 - shareSupply p)) w1
    = Ok (tt, w2) ->
  exists p2, pools w2 !! pool = Some p2 /\
    shareSupply p2 = shareSupply p /\
    reserve1 p <= reserve1 p2 /\ reserve2 p <= reserve2 p2 /\
    reserve1 p1 - reserve1 p2 <= amountToken1 /\
    reserve2 p1 - reserve2 p2 <= amountToken2 /\
    (shareSupply p = 0 ->
     reserve1 p1 - reserve1 p2 = amountToken1 /\
     reserve2 p1 - reserve2 p2 = amountToken2).
Proof.
  intros Hr Hp [Ha1 _] [Ha2 _] Hadd Hp1 Hrem.
  pose proof (reachable_world_ok pool_address w Hr pool p Hp) as Hok.
  destruct (call_pool_run _ _ _ _ _ _ Hp Hadd) as (c1 & Hc1 & Hp1' & _).
  rewrite Hp1 in Hp1'. inv_pair Hp1'.
  destruct (call_pool_run _ _ _ _ _ _ Hp1 Hrem) as (c2 & Hc2 & Hp2 & _).
  exists (self c2). split; [exact Hp2|].
  destruct (addLiquidity_effect _ _ _ _ _ _ Hc1 Ha1 Ha2 Hok)
    as (E1 & E2 & Hm & Hd1 & Hd2 & Hfirst).
  destruct (removeLiquidity_effect _ _ _ _ _ Hc2) as (HT1 & ET & F1 & F2).
  cbn [self] in *.
  destruct Hok as (Hl & _ & [Hr1 _] & [Hr2 _] & _ & _ & Hzero & _).
  pose proof (supply_nonneg _ Hl) as HT.
  set (T := shareSupply p) in *. set (T1 := shareSupply (self c1)) in *.
  assert (Hq1 : (T1 - T) * reserve1 (self c1) / T1 <= amountToken1)
    by (apply Z.div_le_upper_bound; [lia | rewrite E1; nia]).
  assert (Hq2 : (T1 - T) * reserve2 (self c1) / T1 <= amountToken2)
    by (apply Z.div_le_upper_bound; [lia | rewrite E2; nia]).
  split; [lia|]. split; [lia|]. split; [lia|]. split; [lia|]. split; [lia|].
  intros HT0. destruct (Hzero HT0) as [Z1 Z2].
  rewrite F1, F2, HT0, Z.sub_0_r, !(Z.mul_comm T1), !Z.div_mul by lia. lia.
Qed.

(** X6. Neither a deposit nor a withdrawal dilutes the shares: after either
    one, each reserve per share is at least what it was before. *)
Theorem liquidity_changes_never_dilute (w : World) (pool : address) (p : NebuPool) :
  reachable pool_address w ->
  pools w !! pool = Some p ->
  (forall sender amountToken1 amountToken2 w',
     is_uint256 amountToken1 -> is_uint256 amountToken2 ->
     call_pool pool (NebuPool.addLiquidity pool sender amountToken1 amountToken2) w
       = Ok (tt, w') ->
     exists p', pools w' !! pool = Some p' /\
       reserve1 p * shareSupply p' <= reserve1 p' * shareSupply p /\
       reserve2 p * shareSupply p' <= reserve2 p' * shareSupply p) /\
  (forall sender liquidity w',
     is_uint256 liquidity ->
     call_pool pool (NebuPool.removeLiquidity pool sender liquidity) w = Ok (tt, w') ->
     exists p', pools w' !! pool = Some p' /\
       reserve1 p * shareSupply p' <= reserve1 p' * shareSupply p /\
       reserve2 p * shareSupply p' <= reserve2 p' * shareSupply p).
Proof.
  intros Hr Hp.
  pose proof (reachable_world_ok pool_address w Hr pool p Hp) as Hok.
  split.
  - intros sender a1 a2 w' [Ha1 _] [Ha2 _] H.
    destruct (call_pool_run _ _ _ _ _ _ Hp H) as (c' & Hc & Hp' & _).
    exists (self c'). split; [exact Hp'|].
    destruct (addLiquidity_effect _ _ _ _ _ _ Hc Ha1 Ha2 Hok)
      as (E1 & E2 & Hm & Hd1 & Hd2 & _).
    cbn [self] in *. split; nia.
  - intros sender liquidity w' [Hl0 _] H.
    destruct (call_pool_run _ _ _ _ _ _ Hp H) as (c' & Hc & Hp' & _).
    exists (self c'). split; [exact Hp'|].
    destruct (removeLiquidity_backing _ _ _ _ _ Hc Hl0 Hok) as (G1 & G2 & _).
    cbn [self] in *. split; assumption.
Qed.

(** X7. In every reachable state the share supply of a pool is at most the
    geometric mean of its reserves: the square of the supply does not exceed
    the product of the reserves. *)
Theorem share_supply_below_geometric_mean (w : World) (pool : address) (p : NebuPool) :
  reachable pool_address w ->
  pools w !! pool = Some p ->
  shareSupply p * shareSupply p <= reserve1 p * reserve2 p /\
  shareSupply p <= Z.sqrt (reserve1 p * reserve2 p).
Proof.
  intros Hr Hp.
  destruct (reachable_world_ok pool_address w Hr pool p Hp)
    as (Hl & _ & _ & _ & HK & _ & _ & _ & Hgm & _).
  pose proof (supply_nonneg _ Hl) as HT.
  rewrite HK in Hgm. split; [exact Hgm|].
  apply Z.sqrt_le_square; [nia | lia | exact Hgm].
Qed.

End Liquidity.

(** ** Quotes *)

(** The quote as a function of the pool's storage. *)
Lemma getExpectedOutput_run (fromToken : address) (amountIn : uint256) (c : Ctx) :
  let p := self c in
  let reserveIn := if fromToken =? token1 p then reserve1 p else reserve2 p in
  let reserveOut := if fromToken =? token1 p then reserve2 p else reserve1 p in
  NebuPool.getExpectedOutput fromToken amountIn c =
    if 0 <? amountIn then
      if (fromToken =? token1 p) || (fromToken =? token2 p) then
        if reserveIn + amountIn <=? MAX_UINT256 then
          if reserveIn + amountIn =? 0 then Revert ArithmeticError
          else if constantK p / (reserveIn + amountIn) <=? reserveOut
               then Ok (reserveOut - constantK p / (reserveIn + amountIn), c)
               else Revert ArithmeticError
        else Revert ArithmeticError
      else Revert (Error "Invalid fromToken")
    else Revert (Error "AmountIn must be greater than 0").
Proof.
  cbn zeta.
  unfold NebuPool.getExpectedOutput, mbind, M_bind, gets, require, Checked.add,
    Checked.div, Checked.sub, mret, M_ret, throw.
  destruct (0 <? amountIn); [|reflexivity].
  destruct ((fromToken =? token1 (self c)) || (fromToken =? token2 (self c)));
    [|reflexivity].
  destruct (fromToken =? token1 (self c)).
  - destruct (reserve1 (self c) + amountIn <=? MAX_UINT256); [|reflexivity].
    destruct (reserve1 (self c) + amountIn =? 0); [reflexivity|].
    destruct (constantK (self c) / (reserve1 (self c) + amountIn) <=? reserve2 (self c));
      reflexivity.
  - destruct (reserve2 (self c) + amountIn <=? MAX_UINT256); [|reflexivity].
    destruct (reserve2 (self c) + amountIn =? 0); [reflexivity|].
    destruct (constantK (self c) / (reserve2 (self c) + amountIn) <=? reserve1 (self c));
      reflexivity.
Qed.

Lemma getExpectedOutput_Ok (fromToken : address) (amountIn q : uint256) (c c' : Ctx) :
  NebuPool.getExpectedOutput fromToken amountIn c = Ok (q, c') ->
  let p := self c in
  let reserveIn := if fromToken =? token1 p then reserve1 p else reserve2 p in
  let reserveOut := if fromToken =? token1 p then reserve2 p else reserve1 p in
  c' = c /\ 0 < amountIn /\ (fromToken = token1 p \/ fromToken = token2 p) /\
  reserveIn + amountIn <= MAX_UINT256 /\ reserveIn + amountIn <> 0 /\
  constantK p / (reserveIn + amountIn) <= reserveOut /\
  q = reserveOut - constantK p / (reserveIn + amountIn).
Proof.
  rewrite getExpectedOutput_run. cbn zeta.
  destruct (0 <? amountIn) eqn:E1; [|discriminate].
  destruct ((fromToken =? token1 (self c)) || (fromToken =? token2 (self c))) eqn:E2;
    [|discriminate].
  destruct (_ <=? MAX_UINT256) eqn:E3; [|discriminate].
  destruct (_ =? 0) eqn:E4; [discriminate|].
  destruct (_ <=? _) eqn:E5 in |- *; [|discriminate].
  intros [= <- <-].
  apply Z.ltb_lt in E1. apply orb_true_iff in E2. rewrite !Z.eqb_eq in E2.
  apply Z.leb_le in E3. apply Z.eqb_neq in E4. apply Z.leb_le in E5.
  repeat match goal with |- _ /\ _ => split end; (assumption || reflexivity).
Qed.

(** The reserves on the paying and on the receiving side of a quote, and
    what a well-formed pool says about them. *)
Lemma quote_sides this (p : NebuPool) (fromToken : address) :
  pool_ok this p ->
  let reserveIn := if fromToken =? token1 p then reserve1 p else reserve2 p in
  let reserveOut := if fromToken =? token1 p then reserve2 p else reserve1 p in
  0 <= reserveIn /\ 0 <= reserveOut /\ constantK p = reserveIn * reserveOut.
Proof.
  intros (_ & _ & [Hr1 _] & [Hr2 _] & HK & _). cbn zeta.
  destruct (fromToken =? token1 p); repeat split; lia.
Qed.

Section Quotes.

Variable pool_address : nat -> address.

(** X8. A quote on a reachable pool is the constant-product output rounded
    up to a whole unit: it lies between zero and the receiving reserve, it
    is the least amount whose removal brings the product of the reserves to
    the old product or below, and it leaves the state unchanged. *)
Theorem quote_rounds_up (w : World) (pool : address) (p : NebuPool)
    (ts : gmap Z ERC20) (ev : list Event) (fromToken : address)
    (amountIn q : uint256) (c' : Ctx) :
  reachable pool_address w ->
  pools w !! pool = Some p ->
  NebuPool.getExpectedOutput fromToken amountIn (mkCtx p ts ev) = Ok (q, c') ->
  let reserveIn := if fromToken =? token1 p then reserve1 p else reserve2 p in
  let reserveOut := if fromToken =? token1 p then reserve2 p else reserve1 p in
  c' = mkCtx p ts ev /\
  0 <= q <= reserveOut /\
  (reserveIn + amountIn) * (reserveOut - q) <= reserveIn * reserveOut /\
  reserveIn * reserveOut < (reserveIn + amountIn) * (reserveOut - q + 1) /\
  amountIn * reserveOut <= q * (reserveIn + amountIn)
    < amountIn * reserveOut + (reserveIn + amountIn).
Proof.
  intros Hr Hp H.
  pose proof (reachable_world_ok pool_address w Hr pool p Hp) as Hok.
  destruct (quote_sides _ _ fromToken Hok) as (Hin & Hout & HK).
  apply getExpectedOutput_Ok in H. cbn [self] in H. cbn zeta in *.
  destruct H as (-> & Hamt & _ & _ & _ & Hle & ->).
  set (reserveIn := if fromToken =? token1 p then reserve1 p else reserve2 p) in *.
  set (reserveOut := if fromToken =? token1 p then reserve2 p else reserve1 p) in *.
  rewrite HK in *.
  set (d := reserveIn + amountIn) in *.
  assert (Hd : 0 < d) by (subst d; lia).
  pose proof (Z.mul_div_le (reserveIn * reserveOut) d Hd) as Hlo.
  pose proof (Z.mul_succ_div_gt (reserveIn * reserveOut) d Hd) as Hhi.
  assert (0 <= reserveIn * reserveOut / d) by (apply Z.div_pos; nia).
  replace (reserveOut - (reserveOut - reserveIn * reserveOut / d))
    with (reserveIn * reserveOut / d) by lia.
  replace (reserveIn * reserveOut / d + 1) with (Z.succ (reserveIn * reserveOut / d)) by lia.
  split; [reflexivity|]. split; [lia|]. split; [exact Hlo|]. split; [exact Hhi|].
  subst d. nia.
Qed.

(** X9. On a reachable pool a larger input is never quoted a smaller
    output. *)
Theorem quote_monotone (w : World) (pool : address) (p : NebuPool)
    (ts : gmap Z ERC20) (ev : list Event) (fromToken : address)
    (amountIn amountIn' q q' : uint256) (c c' : Ctx) :
  reachable pool_address w ->
  pools w !! pool = Some p ->
  NebuPool.getExpectedOutput fromToken amountIn (mkCtx p ts ev) = Ok (q, c) ->
  NebuPool.getExpectedOutput fromToken amountIn' (mkCtx p ts ev) = Ok (q', c') ->
  amountIn <= amountIn' ->
  q <= q'.
Proof.
  intros Hr Hp H H' Hle.
  pose proof (reachable_world_ok pool_address w Hr pool p Hp) as Hok.
  destruct (quote_sides _ _ fromToken Hok) as (Hin & Hout & HK).
  apply getExpectedOutput_Ok in H. apply getExpectedOutput_Ok in H'.
  cbn [self] in H, H'. cbn zeta in *.
  destruct H as (_ & Hamt & _ & _ & _ & _ & ->).
  destruct H' as (_ & Hamt' & _ & _ & _ & _ & ->).
  set (reserveIn := if fromToken =? token1 p then reserve1 p else reserve2 p) in *.
  set (reserveOut := if fromToken =? token1 p then reserve2 p else reserve1 p) in *.
  assert (constantK p / (reserveIn + amountIn') <= constantK p / (reserveIn + amountIn))
    by (apply Z.div_le_compat_l; [nia | lia]).
  lia.
Qed.

(** X10. How a quote on a reachable pool ends: a non-positive input and a
    token that is not one of the pair are turned down with their messages,
    and for a valid request the quote is returned exactly when the paying
    reserve plus the input fits in 256 bits; the division and the
    subtraction never fail. *)
Theorem getExpectedOutput_outcome (w : World) (pool : address) (p : NebuPool)
    (ts : gmap Z ERC20) (ev : list Event) (fromToken : address) (amountIn : uint256) :
  reachable pool_address w ->
  pools w !! pool = Some p ->
  let c := mkCtx p ts ev in
  let reserveIn := if fromToken =? token1 p then reserve1 p else reserve2 p in
  (amountIn <= 0 ->
   NebuPool.getExpectedOutput fromToken amountIn c
     = Revert (Error "AmountIn must be greater than 0")) /\
  (0 < amountIn -> fromToken <> token1 p -> fromToken <> token2 p ->
   NebuPool.getExpectedOutput fromToken amountIn c = Revert (Error "Invalid fromToken")) /\
  (0 < amountIn -> fromToken = token1 p \/ fromToken = token2 p ->
   (reserveIn + amountIn <= MAX_UINT256 ->
    exists q, NebuPool.getExpectedOutput fromToken amountIn c = Ok (q, c)) /\
   (MAX_UINT256 < reserveIn + amountIn ->
    NebuPool.getExpectedOutput fromToken amountIn c = Revert ArithmeticError)).
Proof.
  intros Hr Hp c reserveIn. subst c reserveIn.
  pose proof (reachable_world_ok pool_address w Hr pool p Hp) as Hok.
  destruct (quote_sides _ _ fromToken Hok) as (Hin & Hout & HK). cbn zeta in *.
  rewrite getExpectedOutput_run. cbn [self]. cbn zeta.
  set (reserveIn := if fromToken =? token1 p then reserve1 p else reserve2 p) in *.
  set (reserveOut := if fromToken =? token1 p then reserve2 p else reserve1 p) in *.
  split; [|split].
  - intros Hamt. replace (0 <? amountIn) with false by (symmetry; apply Z.ltb_ge; lia).
    reflexivity.
  - intros Hamt H1 H2.
    replace (0 <? amountIn) with true by (symmetry; apply Z.ltb_lt; lia).
    apply Z.eqb_neq in H1, H2. rewrite H1, H2. reflexivity.
  - intros Hamt Hpair.
    replace (0 <? amountIn) with true by (symmetry; apply Z.ltb_lt; lia).
    replace ((fromToken =? token1 p) || (fromToken =? token2 p)) with true
      by (symmetry; apply orb_true_iff; rewrite !Z.eqb_eq; exact Hpair).
    split.
    + intros Hfit.
      replace (reserveIn + amountIn <=? MAX_UINT256) with true
        by (symmetry; apply Z.leb_le; lia).
      replace (reserveIn + amountIn =? 0) with false by (symmetry; apply Z.eqb_neq; lia).
      assert (Hq : constantK p / (reserveIn + amountIn) <= reserveOut).
      { rewrite HK. apply Z.div_le_upper_bound; [lia | nia]. }
      apply Z.leb_le in Hq. rewrite Hq. eexists. reflexivity.
    + intros Hbig.
      replace (reserveIn + amountIn <=? MAX_UINT256) with false
        by (symmetry; apply Z.leb_gt; lia).
      reflexivity.
Qed.

End Quotes.

(** ** Swaps *)

(** X11. A swap that goes through pays exactly what the quote function
    returns for its input, which is at least the amount the caller asked
    for, and it goes through only if the new first reserve divides the
    stored product; the share token and the stored product are untouched. *)
Theorem swap_pays_the_quote this sender fromToken toToken amountIn amountOut
    (c c' : Ctx) :
  NebuPool.swapTokens this sender fromToken toToken amountIn amountOut c = Ok (tt, c') ->
  exists q,
    NebuPool.getExpectedOutput fromToken amountIn c = Ok (q, c) /\
    amountOut <= q /\
    reserve1 (self c') = reserve1 (self c) + amountIn /\
    reserve2 (self c') = reserve2 (self c) - q /\
    (reserve1 (self c) + amountIn | constantK (self c)) /\
    constantK (self c') = constantK (self c) /\
    liquidityToken (self c') = liquidityToken (self c) /\
    logs c' = logs c ++ [Swap sender amountIn q fromToken toToken].
Proof.
  intros H.
  pose proof (swapTokens_frame _ _ _ _ _ _ _ _ H) as Hf. cbn zeta in Hf.
  destruct Hf as (El & EK & _ & _ & Hadd & Hnz & Hq).
  apply swapTokens_Ok in H. cbn zeta in H.
  destruct H as (-> & -> & Hin & Hout & Hexp & E1 & E2 & Eprod & Hlog).
  exists (reserve2 (self c) - constantK (self c) / (reserve1 (self c) + amountIn)).
  split.
  - rewrite getExpectedOutput_run. cbn zeta. rewrite Z.eqb_refl. cbn [orb].
    replace (0 <? amountIn) with true by (symmetry; apply Z.ltb_lt; lia).
    replace (reserve1 (self c) + amountIn <=? MAX_UINT256) with true
      by (symmetry; apply Z.leb_le; lia).
    replace (reserve1 (self c) + amountIn =? 0) with false
      by (symmetry; apply Z.eqb_neq; lia).
    apply Z.leb_le in Hq. rewrite Hq. reflexivity.
  - repeat match goal with |- _ /\ _ => split end; try assumption.
    exists (constantK (self c) / (reserve1 (self c) + amountIn)).
    rewrite E1, E2 in Eprod.
    set (x := constantK (self c) / (reserve1 (self c) + amountIn)) in *.
    replace (reserve2 (self c) - (reserve2 (self c) - x)) with x in Eprod by lia.
    lia.
Qed.

(** ** Where the assets go *)

Lemma holding_insert (ts : gmap Z ERC20) (token : address) (t : ERC20) (tk h : address) :
  holding (<[token := t]> ts) tk h
  = if decide (token = tk) then balanceOf t h else holding ts tk h.
Proof.
  unfold holding. rewrite lookup_insert. case_decide; reflexivity.
Qed.

Lemma _transfer_balances (from to : address) (value : uint256) (t t' : ERC20) (u : unit) :
  ERC20._transfer from to value t = Ok (u, t') ->
  forall h, balanceOf t' h
            = balanceOf t h + (if decide (h = to) then value else 0)
              - (if decide (h = from) then value else 0).
Proof.
  unfold ERC20._transfer. intros H h. monad_inv.
  rewrite !balanceOf_set_balance.
  repeat case_decide; subst; try congruence; lia.
Qed.

Lemma transfer_balances (from to : address) (value : uint256) (t t' : ERC20) (b : bool) :
  ERC20.transfer from to value t = Ok (b, t') ->
  b = true /\
  forall h, balanceOf t' h
            = balanceOf t h + (if decide (h = to) then value else 0)
              - (if decide (h = from) then value else 0).
Proof.
  unfold ERC20.transfer. intros H.
  apply bind_Ok in H. destruct H as (u & t1 & H1 & H). apply mret_Ok in H. inv_pair H.
  split; [reflexivity|]. eapply _transfer_balances. eassumption.
Qed.

Lemma transferFrom_balances (spender from to : address) (value : uint256) (t t' : ERC20)
    (b : bool) :
  ERC20.transferFrom spender from to value t = Ok (b, t') ->
  b = true /\
  forall h, balanceOf t' h
            = balanceOf t h + (if decide (h = to) then value else 0)
              - (if decide (h = from) then value else 0).
Proof.
  unfold ERC20.transferFrom. intros H.
  apply bind_Ok in H. destruct H as (u & t1 & H1 & H).
  apply bind_Ok in H. destruct H as (u' & t2 & H2 & H). apply mret_Ok in H. inv_pair H.
  split; [reflexivity|]. intros h.
  rewrite (_transfer_balances _ _ _ _ _ _ H2 h).
  unfold ERC20._spendAllowance in H1. monad_inv. reflexivity.
Qed.

(** A read of a token contract leaves the state as it was. *)
Lemma IERC20_view_Ok {A} (token : address) (g : ERC20 -> A) (c : Ctx) (r : A * Ctx) :
  IERC20 token (t ← get; mret (g t)) c = Ok r ->
  exists t, erc20s c !! token = Some t /\ r = (g t, c).
Proof.
  intros H. apply IERC20_Ok in H. destruct H as (t & a & t' & Ht & Hf & ->).
  monad_inv. eexists. split; [eassumption|].
  rewrite insert_id by assumption. rewrite Ctx_eta. reflexivity.
Qed.

Lemma IERC20_moves {A} (token from to : address) (value : uint256) (f : M ERC20 A)
    (c : Ctx) (r : A * Ctx) :
  (forall t t' a, f t = Ok (a, t') ->
     forall h, balanceOf t' h
               = balanceOf t h + (if decide (h = to) then value else 0)
                 - (if decide (h = from) then value else 0)) ->
  IERC20 token f c = Ok r ->
  exists a ts', r = (a, mkCtx (self c) ts' (logs c)) /\
    forall tk h, holding ts' tk h = holding (erc20s c) tk h + moved token from to value tk h.
Proof.
  intros Hf H. apply IERC20_Ok in H. destruct H as (t & a & t' & Ht & Hc & ->).
  exists a, (<[token := t']> (erc20s c)). split; [reflexivity|].
  intros tk h. rewrite holding_insert. unfold moved.
  destruct (decide (token = tk)) as [<-|Hne].
  - rewrite (decide_True (P := token = token)) by reflexivity.
    rewrite (Hf _ _ _ Hc h). unfold holding. rewrite Ht. lia.
  - rewrite (decide_False (P := tk = token)) by congruence. lia.
Qed.

Lemma IERC20_transfer_Ok (token from to : address) (value : uint256) (c : Ctx)
    (r : bool * Ctx) :
  IERC20 token (ERC20.transfer from to value) c = Ok r ->
  exists a ts', r = (a, mkCtx (self c) ts' (logs c)) /\
    forall tk h, holding ts' tk h = holding (erc20s c) tk h + moved token from to value tk h.
Proof.
  apply IERC20_moves. intros t t' a H. eapply transfer_balances. eassumption.
Qed.

Lemma IERC20_transferFrom_Ok (token spender from to : address) (value : uint256) (c : Ctx)
    (r : bool * Ctx) :
  IERC20 token (ERC20.transferFrom spender from to value) c = Ok r ->
  exists a ts', r = (a, mkCtx (self c) ts' (logs c)) /\
    forall tk h, holding ts' tk h = holding (erc20s c) tk h + moved token from to value tk h.
Proof.
  apply IERC20_moves. intros t t' a H. eapply transferFrom_balances. eassumption.
Qed.

(** Splits a successful run of a pool function, keeping each call of a token
    contract as the movement it makes. *)
Ltac token_inv1 :=
  match goal with
  | H : IERC20 _ (get ≫= _) _ = Ok _ |- _ =>
      apply IERC20_view_Ok in H; destruct H as (? & ? & H)
  | H : IERC20 _ (ERC20.transfer _ _ _) _ = Ok _ |- _ =>
      apply IERC20_transfer_Ok in H; destruct H as (? & ? & H & ?)
  | H : IERC20 _ (ERC20.transferFrom _ _ _ _) _ = Ok _ |- _ =>
      apply IERC20_transferFrom_Ok in H; destruct H as (? & ? & H & ?)
  end.

Ltac token_inv :=
  repeat ((token_inv1 || monad_inv1 || call_inv1);
          cbn [self erc20s logs set_self fst snd] in * ).

Ltac chain_holdings :=
  repeat match goal with
  | Hh : forall tk h, holding ?ts tk h = _ |- context [holding ?ts _ _] => rewrite Hh
  end.

Lemma swapTokens_holdings this sender fromToken toToken amountIn amountOut (c c' : Ctx) :
  NebuPool.swapTokens this sender fromToken toToken amountIn amountOut c = Ok (tt, c') ->
  let q := reserve2 (self c) - constantK (self c) / (reserve1 (self c) + amountIn) in
  forall tk h,
    holding (erc20s c') tk h
    = holding (erc20s c) tk h
      + moved fromToken sender this amountIn tk h + moved toToken this sender q tk h.
Proof.
  intros H q tk h. subst q.
  pose proof (swapTokens_Ok _ _ _ _ _ _ _ _ H) as Hs. cbn zeta in Hs.
  destruct Hs as (-> & -> & _).
  unfold NebuPool.swapTokens in H.
  token_inv; rewrite ?Z.eqb_refl in *; cbn [andb orb] in *; try discriminate.
  chain_holdings. reflexivity.
Qed.

Lemma addLiquidity_holdings this sender amountToken1 amountToken2 (c c' : Ctx) :
  NebuPool.addLiquidity this sender amountToken1 amountToken2 c = Ok (tt, c') ->
  forall tk h,
    holding (erc20s c') tk h
    = holding (erc20s c) tk h
      + moved (token1 (self c)) sender this amountToken1 tk h
      + moved (token2 (self c)) sender this amountToken2 tk h.
Proof.
  intros H tk h.
  unfold NebuPool.addLiquidity in H.
  token_inv; chain_holdings; reflexivity.
Qed.

Lemma removeLiquidity_holdings this sender liquidity (c c' : Ctx) :
  NebuPool.removeLiquidity this sender liquidity c = Ok (tt, c') ->
  let p := self c in
  forall tk h,
    holding (erc20s c') tk h
    = holding (erc20s c) tk h
      + moved (token1 p) this sender (liquidity * reserve1 p / shareSupply p) tk h
      + moved (token2 p) this sender (liquidity * reserve2 p / shareSupply p) tk h.
Proof.
  intros H p tk h. subst p. unfold shareSupply.
  unfold NebuPool.removeLiquidity in H.
  token_inv; chain_holdings; reflexivity.
Qed.

(** X12. Where the assets go.  A deposit that goes through moves the two
    deposited amounts from the provider to the pool; a withdrawal moves the
    withdrawn fraction of each reserve, rounded down, from the pool to the
    provider; a swap moves the input from the trader to the pool and the
    quoted output from the pool to the trader.  No other holding of any
    asset changes. *)
Theorem pool_calls_move_assets this sender (c c' : Ctx) (tk h : address) :
  let p := self c in
  (forall amountToken1 amountToken2,
     NebuPool.addLiquidity this sender amountToken1 amountToken2 c = Ok (tt, c') ->
     holding (erc20s c') tk h
     = holding (erc20s c) tk h
       + moved (token1 p) sender this amountToken1 tk h
       + moved (token2 p) sender this amountToken2 tk h) /\
  (forall liquidity,
     NebuPool.removeLiquidity this sender liquidity c = Ok (tt, c') ->
     holding (erc20s c') tk h
     = holding (erc20s c) tk h
       + moved (token1 p) this sender (liquidity * reserve1 p / shareSupply p) tk h
       + moved (token2 p) this sender (liquidity * reserve2 p / shareSupply p) tk h) /\
  (forall fromToken toToken amountIn amountOut,
     NebuPool.swapTokens this sender fromToken toToken amountIn amountOut c = Ok (tt, c') ->
     holding (erc20s c') tk h
     = holding (erc20s c) tk h
       + moved fromToken sender this amountIn tk h
       + moved toToken this sender
           (reserve2 p - constantK p / (reserve1 p + amountIn)) tk h).
Proof.
  cbn zeta. split; [|split].
  - intros a1 a2 H. apply (addLiquidity_holdings _ _ _ _ _ _ H).
  - intros l H. apply (removeLiquidity_holdings _ _ _ _ _ H).
  - intros f t ain aout H. apply (swapTokens_holdings _ _ _ _ _ _ _ _ H).
Qed.

Lemma moved_self (token from to : address) (value : uint256) :
  from <> to ->
  moved token from to value token to = value /\
  moved token from to value token from = - value.
Proof.
  intros Hne. unfold moved.
  split; repeat case_decide; (congruence || lia).
Qed.

Lemma moved_other (token from to : address) (value : uint256) (tk h : address) :
  tk <> token -> moved token from to value tk h = 0.
Proof.
  intros Hne. unfold moved. case_decide; [contradiction | reflexivity].
Qed.

Section Balances.

Variable pool_address : nat -> address.

(** X13. Every call of a reachable pool from another account changes its
    reserves by exactly the amounts its holdings of the two assets change:
    the excess of each holding over the reserve is the same before and
    after a deposit, a withdrawal and a swap. *)
Theorem reserves_follow_holdings (w w' : World) (pool sender : address) (p : NebuPool) :
  reachable pool_address w ->
  pools w !! pool = Some p ->
  sender <> pool ->
  (exists amountToken1 amountToken2,
     is_uint256 amountToken1 /\ is_uint256 amountToken2 /\
     call_pool pool (NebuPool.addLiquidity pool sender amountToken1 amountToken2) w
       = Ok (tt, w')) \/
  (exists liquidity,
     call_pool pool (NebuPool.removeLiquidity pool sender liquidity) w = Ok (tt, w')) \/
  (exists fromToken toToken amountIn amountOut,
     call_pool pool (NebuPool.swapTokens pool sender fromToken toToken amountIn amountOut) w
       = Ok (tt, w')) ->
  exists p', pools w' !! pool = Some p' /\
    holding (tokens w') (token1 p) pool - reserve1 p'
      = holding (tokens w) (token1 p) pool - reserve1 p /\
    holding (tokens w') (token2 p) pool - reserve2 p'
      = holding (tokens w) (token2 p) pool - reserve2 p.
Proof.
  intros Hr Hp Hs Hcall.
  pose proof (reachable_world_ok pool_address w Hr pool p Hp) as Hok.
  assert (Hne : token1 p <> token2 p) by (destruct Hok as (_&_&_&_&_&_&_&_&_&Hne); exact Hne).
  assert (Hne' : token2 p <> token1 p) by congruence.
  destruct Hcall as [(a1 & a2 & [Ha1 _] & [Ha2 _] & H)|[(l & H)|(f & t & ain & aout & H)]];
    destruct (call_pool_run _ _ _ _ _ _ Hp H) as (c' & Hc & Hp' & Hts & _);
    exists (self c'); (split; [exact Hp'|]); rewrite Hts.
  - pose proof (addLiquidity_holdings _ _ _ _ _ _ Hc) as Hm. cbn [self erc20s] in Hm.
    destruct (addLiquidity_effect _ _ _ _ _ _ Hc Ha1 Ha2 Hok) as (E1 & E2 & _).
    cbn [self] in E1, E2. rewrite !Hm, E1, E2.
    rewrite (proj1 (moved_self (token1 p) sender pool a1 Hs)).
    rewrite (proj1 (moved_self (token2 p) sender pool a2 Hs)).
    rewrite !moved_other by assumption. split; lia.
  - pose proof (removeLiquidity_holdings _ _ _ _ _ Hc) as Hm. cbn [self erc20s] in Hm.
    cbn zeta in Hm.
    destruct (removeLiquidity_effect _ _ _ _ _ Hc) as (_ & _ & E1 & E2).
    cbn [self] in E1, E2. rewrite !Hm, E1, E2.
    rewrite (proj2 (moved_self (token1 p) pool sender _ (not_eq_sym Hs))).
    rewrite (proj2 (moved_self (token2 p) pool sender _ (not_eq_sym Hs))).
    rewrite !moved_other by assumption. split; lia.
  - pose proof (swapTokens_holdings _ _ _ _ _ _ _ _ Hc) as Hm. cbn [self erc20s] in Hm.
    cbn zeta in Hm.
    apply swapTokens_Ok in Hc. cbn [self] in Hc. cbn zeta in Hc.
    destruct Hc as (-> & -> & _ & _ & _ & E1 & E2 & _).
    rewrite !Hm, E1, E2.
    rewrite (proj1 (moved_self (token1 p) sender pool ain Hs)).
    rewrite (proj2 (moved_self (token2 p) pool sender _ (not_eq_sym Hs))).
    rewrite !moved_other by assumption. split; lia.
Qed.

End Balances.

(** ** The registry and its pools *)

Lemma createPairs_deploys pool_address token1 token2 n1 n2 (w w' : World) (a : address) :
  createPairs pool_address token1 token2 n1 n2 w = Ok (a, w') ->
  token1 <> token2 /\ pairOf (nebuSwap w) token1 token2 = 0 /\
  a = pool_address (nonce w) /\ pools w !! a = None /\
  w' = mkWorld
         (push_allPairs a (set_getPair token2 token1 a
                             (set_getPair token1 token2 a (nebuSwap w))))
         (<[a := NebuPool.constructor a token1 token2
                   (String.append "Liquidity-"
                      (String.append n1 (String.append "-" n2)))
                   (String.append "LP-" (String.append n1 (String.append "-" n2)))]>
            (pools w))
         (tokens w) (events w ++ [PairCreated token1 token2 a]) (S (nonce w)).
Proof.
  unfold createPairs. intros H. monad_inv.
  repeat match goal with
  | E : negb _ = true |- _ => apply negb_true_iff, Z.eqb_neq in E
  | E : (_ =? _) = true |- _ => apply Z.eqb_eq in E
  | E : new_NebuPool _ _ _ _ _ _ = Ok _ |- _ =>
      unfold new_NebuPool in E;
      destruct (pools _ !! pool_address _) eqn:?; [discriminate|]; inv_pair E
  end.
  cbn. repeat split; eauto.
Qed.

Lemma call_pool_frame {A} (pool : address) (f : M Ctx A) (w w' : World) (a : A) :
  (forall c c', f c = Ok (a, c') ->
     token1 (self c') = token1 (self c) /\ token2 (self c') = token2 (self c) /\
     exists l, logs c' = logs c ++ l) ->
  call_pool pool f w = Ok (a, w') ->
  nebuSwap w' = nebuSwap w /\ nonce w' = nonce w /\
  (exists l, events w' = events w ++ l) /\
  exists p p', pools w !! pool = Some p /\ pools w' = <[pool := p']> (pools w) /\
    token1 p' = token1 p /\ token2 p' = token2 p.
Proof.
  intros Hf H. apply call_pool_Ok in H. destruct H as (p & a' & c & Hp & Hc & H).
  inv_pair H. destruct (Hf _ _ Hc) as (E1 & E2 & l & El). cbn in *.
  split; [reflexivity|]. split; [reflexivity|]. split; [exists l; exact El|].
  exists p, (self c). auto.
Qed.

Lemma share_ledger_logs {A} (f : M ERC20 A) (c c' : Ctx) (a : A) :
  LP (NebulaLiquidityToken.super f) c = Ok (a, c') ->
  token1 (self c') = token1 (self c) /\ token2 (self c') = token2 (self c) /\
  exists l, logs c' = logs c ++ l.
Proof.
  intros H. apply LP_Ok in H. destruct H as (a' & l & _ & H). inv_pair H.
  split; [reflexivity|]. split; [reflexivity|]. exists []. cbn. rewrite app_nil_r.
  reflexivity.
Qed.

Section RegistryShape.

Variable pool_address : nat -> address.

(** What one transaction does to the registry and to the set of pools. *)
Lemma step_cases (w w' : World) :
  step pool_address w w' ->
  (exists token1 token2 n1 n2 a,
     createPairs pool_address token1 token2 n1 n2 w = Ok (a, w')) \/
  (nebuSwap w' = nebuSwap w /\ nonce w' = nonce w /\
   (exists l, events w' = events w ++ l) /\
   (pools w' = pools w \/
    exists pool p p', pools w !! pool = Some p /\ pools w' = <[pool := p']> (pools w) /\
      token1 p' = token1 p /\ token2 p' = token2 p)).
Proof.
  intros Hs.
  assert (Hpool : forall A pool (f : M Ctx A) (a : A),
    (forall c c', f c = Ok (a, c') ->
       token1 (self c') = token1 (self c) /\ token2 (self c') = token2 (self c) /\
       exists l, logs c' = logs c ++ l) ->
    call_pool pool f w = Ok (a, w') ->
    nebuSwap w' = nebuSwap w /\ nonce w' = nonce w /\
    (exists l, events w' = events w ++ l) /\
    (pools w' = pools w \/
     exists pool p p', pools w !! pool = Some p /\ pools w' = <[pool := p']> (pools w) /\
       token1 p' = token1 p /\ token2 p' = token2 p)).
  { intros A pool f a Hf H.
    destruct (call_pool_frame _ _ _ _ _ Hf H) as (E1 & E2 & E3 & p & p' & Hp).
    split; [exact E1|]. split; [exact E2|]. split; [exact E3|].
    right. exists pool, p, p'. exact Hp. }
  destruct Hs.
  - left. eauto 10.
  - right. eapply Hpool; [|eassumption]. intros c c' Hc.
    destruct (addLiquidity_tokens _ _ _ _ _ _ Hc) as [E1 E2].
    apply addLiquidity_Ok in Hc. cbn zeta in Hc.
    destruct Hc as (? & ? & ? & ? & _ & _ & _ & El & _). eauto.
  - right. eapply Hpool; [|eassumption]. intros c c' Hc.
    destruct (removeLiquidity_tokens _ _ _ _ _ Hc) as [E1 E2].
    apply removeLiquidity_Ok in Hc. cbn zeta in Hc.
    destruct Hc as (? & _ & _ & _ & _ & _ & _ & El). eauto.
  - right. eapply Hpool; [|eassumption]. intros c c' Hc.
    destruct (swapTokens_tokens _ _ _ _ _ _ _ _ Hc) as [E1 E2].
    apply swapTokens_Ok in Hc. cbn zeta in Hc.
    destruct Hc as (_ & _ & _ & _ & _ & _ & _ & _ & El). eauto.
  - right. eapply Hpool; [|eassumption]. intros c c'. apply share_ledger_logs.
  - right. eapply Hpool; [|eassumption]. intros c c'. apply share_ledger_logs.
  - right. eapply Hpool; [|eassumption]. intros c c'. apply share_ledger_logs.
  - right. cbn. split; [reflexivity|]. split; [reflexivity|].
    split; [exists []; rewrite app_nil_r; reflexivity|]. left. reflexivity.
Qed.

Lemma step_registry_ok (w w' : World) :
  step pool_address w w' -> registry_ok pool_address w -> registry_ok pool_address w'.
Proof.
  intros Hs (Hall & Hnd & Hdom & Hget).
  destruct (step_cases _ _ Hs)
    as [(t1 & t2 & n1 & n2 & a & H)|(En & Ec & _ & [Ep|(pool & p & p' & Hp & Ep & Et1 & Et2)])].
  - apply createPairs_deploys in H. destruct H as (Hne & Hfree & Ha & Hnew & ->).
    unfold registry_ok. cbn [nebuSwap pools nonce allPairs push_allPairs set_getPair].
    assert (Hnotin : a ∉ allPairs (nebuSwap w)).
    { intros Hin. apply Hdom in Hin. rewrite Hnew in Hin. destruct Hin; discriminate. }
    split; [|split; [|split]].
    + rewrite seq_S, fmap_app, <- Hall, Ha. reflexivity.
    + apply NoDup_app. split; [exact Hnd|]. split.
      * intros x Hx Hx'. apply list_elem_of_singleton in Hx'. subst x. contradiction.
      * apply NoDup_singleton.
    + intros b. rewrite elem_of_app, list_elem_of_singleton, lookup_insert_is_Some, Hdom.
      split.
      * intros [Hb| ->]; [|left; reflexivity].
        destruct (decide (a = b)) as [->|Hab]; [left; reflexivity | right; auto].
      * intros [->|[_ Hb]]; [right; reflexivity | left; exact Hb].
    + intros X Y.
      change (pairOf (mkNebuSwap (allPairs (nebuSwap w) ++ [a])
                (<[(t2, t1) := a]> (<[(t1, t2) := a]> (getPair (nebuSwap w))))) X Y)
        with (pairOf (push_allPairs a (set_getPair t2 t1 a
                        (set_getPair t1 t2 a (nebuSwap w)))) X Y).
      rewrite pairOf_created.
      destruct (decide ((t2, t1) = (X, Y))) as [E|_].
      { injection E as <- <-. intros _. rewrite lookup_insert_eq.
        eexists. split; [reflexivity|]. right. split; reflexivity. }
      destruct (decide ((t1, t2) = (X, Y))) as [E|_].
      { injection E as <- <-. intros _. rewrite lookup_insert_eq.
        eexists. split; [reflexivity|]. left. split; reflexivity. }
      intros Hnz. destruct (Hget X Y Hnz) as (q & Hq & Htok).
      exists q. split; [|exact Htok].
      rewrite lookup_insert_ne; [exact Hq|]. intros E. rewrite <- E in Hq. congruence.
  - unfold registry_ok. rewrite En, Ec, Ep. auto.
  - unfold registry_ok. rewrite En, Ec, Ep.
    split; [exact Hall|]. split; [exact Hnd|]. split.
    + intros b. rewrite lookup_insert_is_Some, Hdom. split.
      * intros Hb. destruct (decide (pool = b)) as [->|Hab]; [left; reflexivity | right; auto].
      * intros [<-|[_ Hb]]; [rewrite Hp; eauto | exact Hb].
    + intros X Y Hnz. destruct (Hget X Y Hnz) as (q & Hq & Htok).
      destruct (decide (pool = pairOf (nebuSwap w) X Y)) as [E|E].
      * rewrite <- E in *. rewrite lookup_insert_eq. exists p'.
        split; [reflexivity|]. rewrite Et1, Et2.
        rewrite Hp in Hq. injection Hq as <-. exact Htok.
      * rewrite lookup_insert_ne by exact E. eauto.
Qed.

Lemma reachable_registry_ok (w : World) :
  reachable pool_address w -> registry_ok pool_address w.
Proof.
  induction 1 as [ts | w w' _ IH Hs].
  - unfold registry_ok. cbn. split; [reflexivity|]. split; [apply NoDup_nil_2|]. split.
    + intros a. rewrite lookup_empty. split; [intros Hin | intros [? ?]; discriminate].
      apply elem_of_nil in Hin. contradiction.
    + intros X Y. unfold pairOf. cbn. rewrite lookup_empty. cbn. congruence.
  - eapply step_registry_ok; eassumption.
Qed.

(** X14. In every reachable state [getPairs] returns the addresses of the
    deployed pools in the order of their creation, each exactly once, and
    [allPairsLength] returns the number of deployed pools; both leave the
    state as it is. *)
Theorem getPairs_lists_the_pools (w : World) :
  reachable pool_address w ->
  getPairs w = Ok (pool_address <$> seq 0 (nonce w), w) /\
  allPairsLength w = Ok (Z.of_nat (size (pools w)), w) /\
  NoDup (allPairs (nebuSwap w)) /\
  (forall a, a ∈ allPairs (nebuSwap w) <-> is_Some (pools w !! a)).
Proof.
  intros Hr. destruct (reachable_registry_ok w Hr) as (Hall & Hnd & Hdom & _).
  split; [|split; [|split]]; try assumption.
  - unfold getPairs, mbind, M_bind, gets. rewrite Hall. reflexivity.
  - unfold allPairsLength, mbind, M_bind, gets.
    assert (Hsize : size (pools w) = length (allPairs (nebuSwap w))).
    { rewrite <- size_dom, <- (size_list_to_set (C := gset Z)) by exact Hnd.
      f_equal. apply set_eq. intros a.
      rewrite elem_of_dom, elem_of_list_to_set, Hdom. reflexivity. }
    rewrite Hsize. reflexivity.
Qed.

(** X15. In every reachable state an entry of [getPair] that is not the
    zero address names a deployed pool: the two assets of the entry differ,
    they are the two assets of that pool, and the pool is listed in
    [allPairs]. *)
Theorem getPair_names_a_pool (w : World) (X Y a : address) :
  reachable pool_address w ->
  pairOf (nebuSwap w) X Y = a ->
  a <> 0 ->
  X <> Y /\ a ∈ allPairs (nebuSwap w) /\
  exists p, pools w !! a = Some p /\
    ((token1 p = X /\ token2 p = Y) \/ (token1 p = Y /\ token2 p = X)).
Proof.
  intros Hr <- Hnz.
  destruct (reachable_registry_ok w Hr) as (_ & _ & Hdom & Hget).
  destruct (Hget X Y Hnz) as (p & Hp & Htok).
  destruct (reachable_world_ok pool_address w Hr _ p Hp) as (_&_&_&_&_&_&_&_&_&Hne).
  split; [|split].
  - destruct Htok as [[<- <-]|[<- <-]]; congruence.
  - apply Hdom. rewrite Hp. eauto.
  - exists p. split; assumption.
Qed.

(** X16. The registry only grows: along any sequence of transactions the
    list of pools and the event log are extended at the end, no pool is
    removed, and no pool changes the two assets it trades. *)
Theorem registry_only_grows (w w' : World) :
  steps pool_address w w' ->
  allPairs (nebuSwap w) `prefix_of` allPairs (nebuSwap w') /\
  events w `prefix_of` events w' /\
  (nonce w <= nonce w')%nat /\
  forall a p, pools w !! a = Some p ->
    exists p', pools w' !! a = Some p' /\
      token1 p' = token1 p /\ token2 p' = token2 p.
Proof.
  induction 1 as [w | w w' w'' _ IH Hs].
  - split; [reflexivity|]. split; [reflexivity|]. split; [lia|]. eauto.
  - destruct IH as (Hall & Hev & Hn & Hpools).
    destruct (step_cases _ _ Hs)
      as [(t1 & t2 & n1 & n2 & a & H)
         |(En & Ec & (l & El) & [Ep|(pool & p & p' & Hp & Ep & Et1 & Et2)])].
    + apply createPairs_deploys in H. destruct H as (_ & _ & _ & Hnew & ->). cbn.
      split; [etrans; [exact Hall | apply prefix_app_r; reflexivity]|].
      split; [etrans; [exact Hev | apply prefix_app_r; reflexivity]|].
      split; [lia|].
      intros b q Hq. destruct (Hpools b q Hq) as (q' & Hq' & Ht).
      exists q'. split; [|exact Ht].
      rewrite lookup_insert_ne; [exact Hq'|]. congruence.
    + rewrite En, Ec, Ep, El.
      split; [exact Hall|].
      split; [etrans; [exact Hev | apply prefix_app_r; reflexivity]|].
      split; [lia | exact Hpools].
    + rewrite En, Ec, Ep, El.
      split; [exact Hall|].
      split; [etrans; [exact Hev | apply prefix_app_r; reflexivity]|].
      split; [lia|].
      intros b q Hq. destruct (Hpools b q Hq) as (q' & Hq' & Ht1 & Ht2).
      destruct (decide (pool = b)) as [->|Hne].
      * rewrite lookup_insert_eq. exists p'. split; [reflexivity|].
        rewrite Hp in Hq'. injection Hq' as <-. split; congruence.
      * rewrite lookup_insert_ne by exact Hne. eauto.
Qed.

End RegistryShape.

(** ** Pools without liquidity *)

Section EmptyPools.

Variable pool_address : nat -> address.

(** X17. A reachable pool that has issued no shares holds no reserves and
    a zero product; every withdrawal from it is turned down with "No
    liquidity available", no swap on it goes through, and every quote it
    gives is zero. *)
Theorem pool_without_shares (w : World) (pool : address) (p : NebuPool) :
  reachable pool_address w ->
  pools w !! pool = Some p ->
  shareSupply p = 0 ->
  reserve1 p = 0 /\ reserve2 p = 0 /\ constantK p = 0 /\
  (forall sender liquidity,
     call_pool pool (NebuPool.removeLiquidity pool sender liquidity) w
       = Revert (Error "No liquidity available")) /\
  (forall sender fromToken toToken amountIn amountOut r,
     call_pool pool (NebuPool.swapTokens pool sender fromToken toToken amountIn amountOut) w
       <> Ok r) /\
  (forall fromToken amountIn q c',
     NebuPool.getExpectedOutput fromToken amountIn (mkCtx p (tokens w) (events w))
       = Ok (q, c') -> q = 0).
Proof.
  intros Hr Hp HT.
  destruct (reachable_world_ok pool_address w Hr pool p Hp)
    as (_ & _ & _ & _ & HK & _ & Hzero & _).
  destruct (Hzero HT) as [Z1 Z2]. rewrite Z1, Z2 in HK. cbn in HK. clear Hzero.
  split; [exact Z1|]. split; [exact Z2|]. split; [exact HK|]. split; [|split].
  - intros sender liquidity. unfold call_pool. rewrite Hp.
    unfold NebuPool.removeLiquidity, mbind, M_bind, gets, require. cbn [self].
    unfold shareSupply in HT. rewrite HT. reflexivity.
  - intros sender fromToken toToken amountIn amountOut [[] w'] H.
    destruct (call_pool_run _ _ _ _ _ _ Hp H) as (c' & Hc & _).
    apply swapTokens_Ok in Hc. cbn [self] in Hc. cbn zeta in Hc.
    destruct Hc as (_ & _ & Hin & Hout & Hexp & _).
    rewrite Z1, Z2, HK, Z.div_0_l in Hexp by lia. lia.
  - intros fromToken amountIn q c' H.
    apply getExpectedOutput_Ok in H. cbn [self] in H. cbn zeta in H.
    destruct H as (_ & Hin & _ & _ & Hnz & _ & ->).
    rewrite HK, Z1, Z2 in *.
    destruct (fromToken =? token1 p); rewrite Z.div_0_l by exact Hnz; reflexivity.
Qed.

(** X18. A successful [createPairs] deploys, at the next creation address,
    a pool for the two assets in the order given, with no reserves, no
    shares and a share token named after the pair and administered by the
    pool; it appends the pool to [allPairs], logs one [PairCreated] event,
    and leaves the other pools and the token contracts as they were. *)
Theorem createPairs_deploys_empty_pool token1' token2' n1 n2 (w w' : World) (a : address) :
  createPairs pool_address token1' token2' n1 n2 w = Ok (a, w') ->
  a = pool_address (nonce w) /\ pools w !! a = None /\
  (exists p, pools w' !! a = Some p /\
     token1 p = token1' /\ token2 p = token2' /\
     reserve1 p = 0 /\ reserve2 p = 0 /\ constantK p = 0 /\ shareSupply p = 0 /\
     (forall holder, sharesOf p holder = 0) /\
     name (liquidityToken p)
       = String.append "Liquidity-" (String.append n1 (String.append "-" n2)) /\
     symbol (liquidityToken p)
       = String.append "LP-" (String.append n1 (String.append "-" n2)) /\
     DEFAULT_ADMIN_ROLE (liquidityToken p) = {[ a ]}) /\
  allPairs (nebuSwap w') = allPairs (nebuSwap w) ++ [a] /\
  events w' = events w ++ [PairCreated token1' token2' a] /\
  tokens w' = tokens w /\
  (forall b, b <> a -> pools w' !! b = pools w !! b).
Proof.
  intros H. apply createPairs_deploys in H. destruct H as (_ & _ & Ha & Hnew & ->).
  cbn. split; [exact Ha|]. split; [exact Hnew|]. split.
  - rewrite lookup_insert_eq. eexists. split; [reflexivity|]. cbn.
    repeat match goal with |- _ /\ _ => split end; try reflexivity.
  - repeat match goal with |- _ /\ _ => split end; try reflexivity.
    intros b Hb. rewrite lookup_insert_ne by congruence. reflexivity.
Qed.

End EmptyPools.

(** ** The numerals of [AgentNFT.uint2str] *)

Section Numerals.

Local Open Scope N_scope.

Lemma decimal_digits_zero : decimal_digits 0 = [].
Proof. rewrite decimal_digits_equation_1. reflexivity. Qed.

Lemma decimal_digits_step (n : N) :
  n <> 0 -> decimal_digits n = decimal_digits (n / 10) ++ [48 + n mod 10].
Proof.
  intros Hn. rewrite decimal_digits_equation_1.
  destruct (N.eq_dec n 0); [contradiction | reflexivity].
Qed.

Lemma div_10_lt (n : N) : n <> 0 -> n / 10 < n.
Proof. intros Hn. apply N.div_lt; lia. Qed.

(** Induction along the rounds of the two loops. *)
Lemma div_10_ind (P : N -> Prop) :
  P 0 -> (forall n, n <> 0 -> P (n / 10) -> P n) -> forall n, P n.
Proof.
  intros H0 Hstep n. induction n as [n IH] using (well_founded_induction N.lt_wf_0).
  destruct (N.eq_dec n 0) as [->|Hn]; [exact H0|].
  apply Hstep; [exact Hn|]. apply IH. apply div_10_lt. exact Hn.
Qed.

Lemma length_decimal_digits_step (n : N) :
  n <> 0 ->
  N.of_nat (length (decimal_digits n)) = N.of_nat (length (decimal_digits (n / 10))) + 1.
Proof.
  intros Hn. rewrite (decimal_digits_step n Hn), length_app. cbn. lia.
Qed.

Lemma length_decimal_digits_le (n : N) : N.of_nat (length (decimal_digits n)) <= n.
Proof.
  induction n as [|n Hn IH] using div_10_ind.
  - rewrite decimal_digits_zero. cbn. lia.
  - rewrite (length_decimal_digits_step n Hn).
    pose proof (div_10_lt n Hn). lia.
Qed.

Lemma count_digits_spec (temp digits : N) :
  digits + N.of_nat (length (decimal_digits temp)) <= AgentNFT.MAX ->
  AgentNFT.count_digits temp digits
  = inr (digits + N.of_nat (length (decimal_digits temp))).
Proof.
  revert digits. induction temp as [|temp Hn IH] using div_10_ind; intros digits Hle.
  - rewrite AgentNFT.count_digits_equation_1, decimal_digits_zero. cbn.
    rewrite N.add_0_r. reflexivity.
  - rewrite AgentNFT.count_digits_equation_1.
    destruct (N.eq_dec temp 0); [contradiction|].
    rewrite (length_decimal_digits_step temp Hn) in Hle |- *.
    unfold AgentNFT.add.
    replace (digits + 1 <=? AgentNFT.MAX) with true by (symmetry; apply N.leb_le; lia).
    rewrite IH by lia. f_equal. lia.
Qed.

Lemma write_digits_spec (value : N) (buffer : list N) :
  (length (decimal_digits value) <= length buffer)%nat ->
  AgentNFT.write_digits value (N.of_nat (length (decimal_digits value))) buffer
  = inr (decimal_digits value ++ drop (length (decimal_digits value)) buffer).
Proof.
  revert buffer. induction value as [|value Hn IH] using div_10_ind; intros buffer Hlen.
  - rewrite AgentNFT.write_digits_equation_1, decimal_digits_zero. reflexivity.
  - rewrite AgentNFT.write_digits_equation_1.
    destruct (N.eq_dec value 0); [contradiction|].
    rewrite (length_decimal_digits_step value Hn).
    rewrite (decimal_digits_step value Hn), length_app in Hlen. cbn in Hlen.
    set (d := length (decimal_digits (value / 10))) in *.
    unfold AgentNFT.sub.
    replace (1 <=? N.of_nat d + 1) with true by (symmetry; apply N.leb_le; lia).
    replace (N.of_nat d + 1 - 1) with (N.of_nat d) by lia.
    assert (Hmod : value mod 10 < 10) by (apply N.mod_lt; lia).
    unfold AgentNFT.add.
    replace (48 + value mod 10 <=? AgentNFT.MAX) with true
      by (symmetry; apply N.leb_le; unfold AgentNFT.MAX; lia).
    unfold AgentNFT.uint8. rewrite (N.mod_small (48 + value mod 10) 256) by lia.
    unfold AgentNFT.index_write.
    replace (N.of_nat d <? N.of_nat (length buffer)) with true
      by (symmetry; apply N.ltb_lt; lia).
    rewrite Nat2N.id.
    rewrite IH by (rewrite length_insert; fold d; lia). fold d.
    rewrite (decimal_digits_step value Hn), length_app. fold d. cbn [length].
    rewrite <- app_assoc. f_equal. cbn [app].
    destruct (lookup_lt_is_Some_2 buffer d ltac:(lia)) as [x Hx].
    rewrite drop_insert_ge by lia. rewrite Nat.sub_diag.
    rewrite (drop_S _ _ _ Hx). cbn.
    replace (d + 1)%nat with (S d) by lia. reflexivity.
Qed.

(** The string [uint2str] returns, computed without the loops. *)
Lemma uint2str_decimal (value : N) :
  value <= AgentNFT.MAX -> value <> 0 ->
  AgentNFT.uint2str value = inr (AgentNFT.string_of_bytes (decimal_digits value)).
Proof.
  intros Hmax Hn. unfold AgentNFT.uint2str.
  replace (value =? 0) with false by (symmetry; apply N.eqb_neq; exact Hn).
  pose proof (length_decimal_digits_le value) as Hle.
  rewrite count_digits_spec by (rewrite N.add_0_l; lia).
  rewrite N.add_0_l, Nat2N.id.
  rewrite write_digits_spec by (rewrite length_replicate; lia).
  rewrite drop_ge by (rewrite length_replicate; lia).
  rewrite app_nil_r. reflexivity.
Qed.

Lemma decimal_digits_range (n : N) :
  Forall (fun b => 48 <= b <= 57) (decimal_digits n).
Proof.
  induction n as [|n Hn IH] using div_10_ind.
  - rewrite decimal_digits_zero. constructor.
  - rewrite (decimal_digits_step n Hn). apply Forall_app. split; [exact IH|].
    constructor; [|constructor].
    assert (Hm : n mod 10 < 10) by (apply N.mod_lt; lia).
    revert Hm. generalize (n mod 10). intros m Hm. clear -Hm. lia.
Qed.

Lemma N_of_ascii_of_N (b : N) : b < 256 -> N_of_ascii (ascii_of_N b) = b.
Proof. apply N_ascii_embedding. Qed.

Lemma parse_bytes_decimal (n : N) :
  fold_left (fun acc c => 10 * acc + (N_of_ascii c - 48))
    (map ascii_of_N (decimal_digits n)) 0 = n.
Proof.
  induction n as [|n Hn IH] using div_10_ind.
  - rewrite decimal_digits_zero. reflexivity.
  - rewrite (decimal_digits_step n Hn), map_app, fold_left_app, IH. cbn [map fold_left].
    assert (Hm : n mod 10 < 10) by (apply N.mod_lt; lia).
    rewrite N_of_ascii_of_N by (clear -Hm; lia).
    pose proof (N.div_mod n 10 ltac:(lia)) as Hd.
    revert Hm Hd. generalize (n / 10) (n mod 10). intros q m Hm Hd. lia.
Qed.

Lemma parse_uint_decimal (n : N) :
  parse_uint (AgentNFT.string_of_bytes (decimal_digits n)) = n.
Proof.
  unfold parse_uint, AgentNFT.string_of_bytes.
  rewrite list_ascii_of_string_of_list_ascii. apply parse_bytes_decimal.
Qed.

Lemma length_string_of_bytes (l : list N) :
  String.length (AgentNFT.string_of_bytes l) = length l.
Proof.
  unfold AgentNFT.string_of_bytes. rewrite <- (length_map ascii_of_N l).
  generalize (map ascii_of_N l). intros k. induction k as [|a k IH]; cbn; congruence.
Qed.

(** A number with [L] decimal digits lies between [10^(L-1)] and [10^L]. *)
Lemma decimal_digits_magnitude (n : N) :
  let L := N.of_nat (length (decimal_digits n)) in
  n < 10 ^ L /\ (n <> 0 -> 10 ^ (L - 1) <= n).
Proof.
  cbn zeta. induction n as [|n Hn IH] using div_10_ind.
  - rewrite decimal_digits_zero. cbn. split; [lia | congruence].
  - rewrite (length_decimal_digits_step n Hn).
    destruct IH as [Hhi Hlo].
    set (L := N.of_nat (length (decimal_digits (n / 10)))) in *.
    pose proof (N.div_mod n 10 ltac:(lia)) as Hd.
    assert (Hm : n mod 10 < 10) by (apply N.mod_lt; lia).
    replace (L + 1 - 1) with L by lia.
    replace (L + 1) with (N.succ L) by lia. rewrite N.pow_succ_r'.
    split.
    + revert Hhi Hd Hm. generalize (10 ^ L) (n / 10) (n mod 10).
      intros P q m Hhi Hd Hm. lia.
    + intros _. destruct (N.eq_dec (n / 10) 0) as [E|E].
      * subst L. rewrite E, decimal_digits_zero. cbn. lia.
      * specialize (Hlo E).
        assert (HL : L <> 0).
        { subst L. rewrite (length_decimal_digits_step _ E). lia. }
        replace L with (N.succ (L - 1)) by lia. rewrite N.pow_succ_r'.
        revert Hlo Hd Hm. generalize (10 ^ (L - 1)) (n / 10) (n mod 10).
        intros P q m Hlo Hd Hm. lia.
Qed.

Lemma decimal_digits_head (n : N) :
  n <> 0 -> exists b rest, decimal_digits n = b :: rest /\ b <> 48 /\ b < 256.
Proof.
  induction n as [|n Hn IH] using div_10_ind; [congruence|]. intros _.
  rewrite (decimal_digits_step n Hn).
  assert (Hm : n mod 10 < 10) by (apply N.mod_lt; lia).
  destruct (N.eq_dec (n / 10) 0) as [E|E].
  - rewrite E, decimal_digits_zero. cbn [app].
    exists (48 + n mod 10), []. split; [reflexivity|].
    pose proof (N.div_mod n 10 ltac:(lia)) as Hd. rewrite E in Hd.
    revert Hd Hm. generalize (n mod 10). intros m Hd Hm. lia.
  - destruct (IH E) as (b & rest & -> & Hb).
    exists b, (rest ++ [48 + n mod 10]). split; [reflexivity | exact Hb].
Qed.

Lemma is_digit_bytes (l : list N) :
  Forall (fun b => 48 <= b <= 57) l ->
  forallb is_digit (list_ascii_of_string (AgentNFT.string_of_bytes l)) = true.
Proof.
  intros H. unfold AgentNFT.string_of_bytes.
  rewrite list_ascii_of_string_of_list_ascii.
  induction H as [|b l Hb _ IH]; [reflexivity|].
  cbn [map forallb]. rewrite IH, andb_true_r.
  unfold is_digit. rewrite N_of_ascii_of_N by lia.
  apply andb_true_iff. split; apply N.leb_le; lia.
Qed.

(** X19. For every 256-bit value [uint2str] returns a string and never
    panics: the digit counter does not overflow and no buffer write is out
    of bounds.  The string has at most 78 characters, and for a non-zero
    value its length [L] is the number of decimal digits:
    [10^(L-1) <= value < 10^L]. *)
Theorem uint2str_returns (value : N) :
  value <= AgentNFT.MAX ->
  exists s, AgentNFT.uint2str value = inr s /\
    (1 <= String.length s <= 78)%nat /\
    (value <> 0 ->
     10 ^ (N.of_nat (String.length s) - 1) <= value < 10 ^ N.of_nat (String.length s)).
Proof.
  intros Hmax. destruct (N.eq_dec value 0) as [->|Hn].
  - exists "0"%string. cbn. split; [reflexivity|]. split; [lia | congruence].
  - exists (AgentNFT.string_of_bytes (decimal_digits value)).
    split; [apply uint2str_decimal; assumption|].
    rewrite length_string_of_bytes.
    destruct (decimal_digits_magnitude value) as [Hhi Hlo]. specialize (Hlo Hn).
    set (L := length (decimal_digits value)) in *.
    assert (HL : (1 <= L)%nat).
    { subst L. rewrite (decimal_digits_step value Hn), length_app. cbn. lia. }
    split; [|intros _; split; assumption].
    split; [exact HL|].
    destruct (le_lt_dec L 78) as [Hle|Hgt]; [exact Hle|]. exfalso.
    assert (Hpow : 10 ^ 78 <= 10 ^ (N.of_nat L - 1)) by (apply N.pow_le_mono_r; lia).
    assert (Hbig : AgentNFT.MAX < 10 ^ 78) by (vm_compute; reflexivity).
    revert Hpow Hbig Hlo Hmax.
    generalize (10 ^ 78) (10 ^ (N.of_nat L - 1)) AgentNFT.MAX. intros. lia.
Qed.

(** X20. Reading the string that [uint2str] returns as a decimal number
    gives the value back. *)
Theorem uint2str_round_trip (value : N) :
  value <= AgentNFT.MAX ->
  exists s, AgentNFT.uint2str value = inr s /\ parse_uint s = value.
Proof.
  intros Hmax. destruct (N.eq_dec value 0) as [->|Hn].
  - exists "0"%string. split; reflexivity.
  - exists (AgentNFT.string_of_bytes (decimal_digits value)).
    split; [apply uint2str_decimal; assumption | apply parse_uint_decimal].
Qed.

(** X21. Different token ids get different numerals: [uint2str] is
    injective on the 256-bit values. *)
Theorem uint2str_injective (value value' : N) :
  value <= AgentNFT.MAX -> value' <= AgentNFT.MAX ->
  AgentNFT.uint2str value = AgentNFT.uint2str value' ->
  value = value'.
Proof.
  intros Hmax Hmax' E.
  assert (Hs : forall v, v <= AgentNFT.MAX ->
            exists s, AgentNFT.uint2str v = inr s /\ parse_uint s = v).
  { intros v Hv. destruct (N.eq_dec v 0) as [->|Hn].
    - exists "0"%string. split; reflexivity.
    - exists (AgentNFT.string_of_bytes (decimal_digits v)).
      split; [apply uint2str_decimal; assumption | apply parse_uint_decimal]. }
  destruct (Hs value Hmax) as (s & Es & <-).
  destruct (Hs value' Hmax') as (s' & Es' & <-).
  rewrite Es, Es' in E. injection E as ->. reflexivity.
Qed.

(** X22. The string that [uint2str] returns consists of the characters
    "0" to "9" only, and for a non-zero value it does not start with
    "0". *)
Theorem uint2str_digits_only (value : N) :
  value <= AgentNFT.MAX ->
  exists s, AgentNFT.uint2str value = inr s /\
    forallb is_digit (list_ascii_of_string s) = true /\
    (value <> 0 -> exists c rest, s = String c rest /\ c <> "0"%char).
Proof.
  intros Hmax. destruct (N.eq_dec value 0) as [->|Hn].
  - exists "0"%string. split; [reflexivity|]. split; [reflexivity | congruence].
  - exists (AgentNFT.string_of_bytes (decimal_digits value)).
    split; [apply uint2str_decimal; assumption|].
    split; [apply is_digit_bytes, decimal_digits_range|]. intros _.
    destruct (decimal_digits_head value Hn) as (b & rest & -> & Hb & Hb').
    exists (ascii_of_N b), (AgentNFT.string_of_bytes rest). split; [reflexivity|].
    intros E. apply (f_equal N_of_ascii) in E.
    rewrite N_of_ascii_of_N in E by exact Hb'. cbn in E. contradiction.
Qed.

End Numerals.

(** ** When a swap goes through *)

Lemma transferFrom_Ok (spender from to : address) (value : uint256) (t t' : ERC20)
    (b : bool) :
  ERC20.transferFrom spender from to value t = Ok (b, t') ->
  value <= allowance t from spender /\ value <= balanceOf t from.
Proof.
  unfold ERC20.transferFrom, ERC20._spendAllowance, ERC20._transfer. intros H.
  monad_inv. to_Prop. split; assumption.
Qed.

(** What a successful swap needed from the two token contracts. *)
Lemma swapTokens_funds this sender fromToken toToken amountIn amountOut (c c' : Ctx)
    (tIn tOut : ERC20) :
  token1 (self c) <> token2 (self c) ->
  erc20s c !! token1 (self c) = Some tIn ->
  erc20s c !! token2 (self c) = Some tOut ->
  NebuPool.swapTokens this sender fromToken toToken amountIn amountOut c = Ok (tt, c') ->
  amountIn < balanceOf tIn sender /\ amountOut < balanceOf tOut this /\
  amountIn <= allowance tIn sender this /\
  reserve2 (self c) - constantK (self c) / (reserve1 (self c) + amountIn)
    <= balanceOf tOut this.
Proof.
  intros Hne HIn HOut H.
  pose proof (swapTokens_Ok _ _ _ _ _ _ _ _ H) as Hs. cbn zeta in Hs.
  destruct Hs as (-> & -> & _).
  unfold NebuPool.swapTokens in H.
  pool_inv; rewrite ?Z.eqb_refl in *; cbn [andb orb] in *; try discriminate.
  repeat match goal with
  | E : <[?k := _]> _ !! ?k = Some _ |- _ => rewrite lookup_insert_eq in E
  | E : <[_ := _]> _ !! _ = Some _ |- _ => rewrite lookup_insert_ne in E by congruence
  | E : Some _ = Some _ |- _ => inv_pair E
  | E1 : ?m !! ?k = Some _, E2 : ?m !! ?k = Some _ |- _ => rewrite E1 in E2
  end.
  to_Prop.
  repeat match goal with
  | E : ERC20.transferFrom _ _ _ _ _ = Ok _ |- _ => apply transferFrom_Ok in E; destruct E
  | E : ERC20.transfer _ _ _ _ = Ok _ |- _ => apply transfer_Ok in E; destruct E as [E _]
  end.
  repeat match goal with |- _ /\ _ => split end; assumption.
Qed.

(** A swap in the first direction goes through when the trader and the pool
    hold enough, the trader has approved the pool, and the new first
    reserve divides the stored product. *)
Lemma swapTokens_eval this sender amountIn amountOut (c : Ctx) (tIn tOut : ERC20) :
  pool_ok this (self c) ->
  erc20s c !! token1 (self c) = Some tIn ->
  erc20s c !! token2 (self c) = Some tOut ->
  let q := reserve2 (self c) - constantK (self c) / (reserve1 (self c) + amountIn) in
  0 < amountIn -> 0 < amountOut ->
  amountIn < balanceOf tIn sender -> amountIn <= allowance tIn sender this ->
  amountOut <= q -> amountOut < balanceOf tOut this -> q <= balanceOf tOut this ->
  reserve1 (self c) + amountIn <= MAX_UINT256 ->
  (reserve1 (self c) + amountIn | constantK (self c)) ->
  exists c', NebuPool.swapTokens this sender (token1 (self c)) (token2 (self c))
               amountIn amountOut c = Ok (tt, c').
Proof.
  intros (_ & _ & [Hr1 _] & [Hr2 _] & HK & HKmax & _ & _ & _ & Hne) HIn HOut q
    Hin Hout Hbal Hallow Hq Hpool Hpay' Hfit [k Hk].
  assert (Hd : constantK (self c) / (reserve1 (self c) + amountIn) = k).
  { rewrite Hk. apply Z.div_mul. lia. }
  assert (Hk0 : 0 <= k) by (rewrite <- Hd; apply Z.div_pos; nia).
  assert (Hkle : k <= reserve2 (self c)).
  { rewrite <- Hd, HK. apply Z.div_le_upper_bound; [lia | nia]. }
  assert (Hpull : can_pull (erc20s c) (token1 (self c)) this sender amountIn).
  { exists tIn. repeat split; (assumption || lia). }
  assert (Hpay : can_pay (erc20s c) (token2 (self c)) this q).
  { exists tOut. split; assumption. }
  subst q. rewrite Hd in *.
  apply not_Revert_Ok. intros e.
  unfold NebuPool.swapTokens.
  eval_step ltac:(reflexivity).
  eval_step ltac:(apply require_eval, andb_true_iff; split; apply Z.ltb_lt; lia).
  eval_step ltac:(apply require_eval; rewrite !Z.eqb_refl; reflexivity).
  eval_step ltac:(apply (IERC20_view _ (fun t => balanceOf t sender)); exact HIn).
  eval_step ltac:(apply require_eval, Z.ltb_lt; exact Hbal).
  eval_step ltac:(apply (IERC20_view _ (fun t => balanceOf t this)); exact HOut).
  eval_step ltac:(apply require_eval, Z.ltb_lt; exact Hpool).
  rewrite !Z.eqb_refl. cbn [andb].
  eval_step ltac:(
    eval_step ltac:(apply add_eval; lia);
    eval_step ltac:(apply div_eval; lia);
    apply sub_eval; rewrite Hd; lia).
  rewrite Hd.
  eval_step ltac:(apply require_eval, Z.leb_le; exact Hq).
  pull_step.
  eval_step ltac:(reflexivity).
  pay_step.
  eval_step ltac:(reflexivity).
  eval_step ltac:(
    eval_step ltac:(apply add_eval; lia);
    eval_step ltac:(reflexivity);
    eval_step ltac:(apply sub_eval; lia);
    reflexivity).
  eval_step ltac:(reflexivity).
  cbn [reserve1 reserve2 constantK set_reserve1 set_reserve2].
  assert (Hprod : (reserve1 (self c) + amountIn) * (reserve2 (self c) - (reserve2 (self c) - k))
                  = constantK (self c)) by (rewrite Hk; lia).
  eval_step ltac:(apply mul_eval; rewrite Hprod; exact HKmax).
  rewrite Hprod.
  eval_step ltac:(apply require_eval, Z.eqb_eq; reflexivity).
  discriminate.
Qed.

Section SwapConditions.

Variable pool_address : nat -> address.

(** X23. Exactly when a swap goes through.  On a reachable pool whose two
    assets are deployed, [swapTokens] succeeds if and only if it trades the
    first asset for the second, both amounts are positive, the trader holds
    more than the input and has approved the pool for it, the requested
    output is at most the quote and below the pool's holding, the pool
    holds the quote, the new first reserve fits in 256 bits, and the new
    first reserve divides the stored product. *)
Theorem swapTokens_succeeds_iff (w : World) (pool sender fromToken toToken : address)
    (p : NebuPool) (amountIn amountOut : uint256) (tIn tOut : ERC20) :
  reachable pool_address w ->
  pools w !! pool = Some p ->
  tokens w !! token1 p = Some tIn ->
  tokens w !! token2 p = Some tOut ->
  let q := reserve2 p - constantK p / (reserve1 p + amountIn) in
  (exists w',
     call_pool pool (NebuPool.swapTokens pool sender fromToken toToken amountIn amountOut) w
       = Ok (tt, w')) <->
  (fromToken = token1 p /\ toToken = token2 p /\
   0 < amountIn /\ 0 < amountOut /\
   amountIn < balanceOf tIn sender /\ amountIn <= allowance tIn sender pool /\
   amountOut <= q /\ amountOut < balanceOf tOut pool /\ q <= balanceOf tOut pool /\
   reserve1 p + amountIn <= MAX_UINT256 /\
   (reserve1 p + amountIn | constantK p)).
Proof.
  intros Hr Hp HIn HOut q. subst q.
  pose proof (reachable_world_ok pool_address w Hr pool p Hp) as Hok.
  assert (Hne : token1 p <> token2 p) by (destruct Hok as (_&_&_&_&_&_&_&_&_&Hne); exact Hne).
  split.
  - intros [w' H].
    destruct (call_pool_run _ _ _ _ _ _ Hp H) as (c' & Hc & _).
    destruct (swapTokens_funds pool sender fromToken toToken amountIn amountOut
                (mkCtx p (tokens w) (events w)) c' tIn tOut Hne HIn HOut Hc)
      as (Hbal & Hpool & Hallow & Hpay).
    pose proof (swapTokens_frame _ _ _ _ _ _ _ _ Hc) as Hf. cbn zeta in Hf.
    destruct Hf as (_ & _ & _ & _ & Hfit & _ & _).
    apply swapTokens_Ok in Hc. cbn [self] in *. cbn zeta in Hc.
    destruct Hc as (-> & -> & Hin & Hout & Hq & E1 & E2 & Eprod & _).
    repeat match goal with |- _ /\ _ => split end; try (assumption || reflexivity).
    exists (constantK p / (reserve1 p + amountIn)).
    rewrite E1, E2 in Eprod.
    set (x := constantK p / (reserve1 p + amountIn)) in *.
    replace (reserve2 p - (reserve2 p - x)) with x in Eprod by lia. lia.
  - intros (-> & -> & Hin & Hout & Hbal & Hallow & Hq & Hpool & Hpay & Hfit & Hdiv).
    destruct (swapTokens_eval pool sender amountIn amountOut
                (mkCtx p (tokens w) (events w)) tIn tOut) as [c' Hc]; try assumption.
    unfold call_pool. rewrite Hp. cbn [self] in Hc. rewrite Hc. eauto.
Qed.

End SwapConditions.

(** ** When a deposit goes through *)

(** What a successful deposit needed. *)
Lemma addLiquidity_needs this sender amountToken1 amountToken2 (c c' : Ctx)
    (t1 t2 : ERC20) :
  token1 (self c) <> token2 (self c) ->
  erc20s c !! token1 (self c) = Some t1 ->
  erc20s c !! token2 (self c) = Some t2 ->
  NebuPool.addLiquidity this sender amountToken1 amountToken2 c = Ok (tt, c') ->
  let p := self c in
  let T := shareSupply p in
  amountToken1 <= allowance t1 sender this /\ amountToken1 <= balanceOf t1 sender /\
  amountToken2 <= allowance t2 sender this /\ amountToken2 <= balanceOf t2 sender /\
  (T = 0 -> amountToken1 * amountToken2 <= MAX_UINT256 /\
            0 < Z.sqrt (amountToken1 * amountToken2)) /\
  (T <> 0 -> amountToken1 * T <= MAX_UINT256 /\ amountToken2 * T <= MAX_UINT256).
Proof.
  intros Hne H1 H2 H p T. subst p T. unfold shareSupply.
  unfold NebuPool.addLiquidity in H.
  pool_inv_bound;
    repeat match goal with
    | E : <[?k := _]> _ !! ?k = Some _ |- _ => rewrite lookup_insert_eq in E
    | E : <[_ := _]> _ !! _ = Some _ |- _ => rewrite lookup_insert_ne in E by congruence
    | E : Some _ = Some _ |- _ => inv_pair E
    | E1 : ?m !! ?k = Some _, E2 : ?m !! ?k = Some _ |- _ => rewrite E1 in E2
    end;
    to_Prop;
    repeat match goal with
    | E : ERC20.transferFrom _ _ _ _ _ = Ok _ |- _ => apply transferFrom_Ok in E; destruct E
    end;
    unfold Math.sqrt in *;
    repeat match goal with |- _ /\ _ => split end;
    try assumption; try (intros; split; assumption); try (intros; contradiction).
Qed.

(** A deposit goes through when the provider holds and has approved both
    amounts and no product overflows. *)
Lemma addLiquidity_eval this sender amountToken1 amountToken2 (c : Ctx) (t1 t2 : ERC20) :
  pool_ok this (self c) ->
  erc20s c !! token1 (self c) = Some t1 ->
  erc20s c !! token2 (self c) = Some t2 ->
  0 <= amountToken1 -> 0 <= amountToken2 ->
  let p := self c in
  let T := shareSupply p in
  amountToken1 <= allowance t1 sender this -> amountToken1 <= balanceOf t1 sender ->
  amountToken2 <= allowance t2 sender this -> amountToken2 <= balanceOf t2 sender ->
  (T = 0 -> amountToken1 * amountToken2 <= MAX_UINT256 /\
            0 < Z.sqrt (amountToken1 * amountToken2)) ->
  (T <> 0 -> amountToken1 * T <= MAX_UINT256 /\ amountToken2 * T <= MAX_UINT256 /\
             (reserve1 p + amountToken1) * (reserve2 p + amountToken2) <= MAX_UINT256) ->
  exists c', NebuPool.addLiquidity this sender amountToken1 amountToken2 c = Ok (tt, c').
Proof.
  intros Hok HI1 HI2 Ha1 Ha2 p T Hal1 Hb1 Hal2 Hb2 Hfirst Hprop. subst p T.
  pose proof Hok as (Hl & Hrole & [Hr1 _] & [Hr2 _] & HK & HKmax & Hzero & Hpos & Hgm & Hne).
  pose proof (supply_nonneg _ Hl) as HT.
  unfold shareSupply in *.
  assert (Hadmin : this ∈ DEFAULT_ADMIN_ROLE (liquidityToken (self c)))
    by (rewrite Hrole; set_solver).
  assert (H1 : can_pull (erc20s c) (token1 (self c)) this sender amountToken1).
  { exists t1. repeat split; assumption. }
  assert (H2 : can_pull (erc20s c) (token2 (self c)) this sender amountToken2).
  { exists t2. repeat split; assumption. }
  apply not_Revert_Ok. intros e. unfold NebuPool.addLiquidity.
  pull_deposit H1 H2.
  destruct (Z.eq_dec (totalSupply (erc20 (liquidityToken (self c)))) 0) as [HT0|HT0].
  - destruct (Hfirst HT0) as [Hmax Hroot]. rewrite HT0.
    change (0 =? 0) with true. cbv iota.
    assert (Hle : Z.sqrt (amountToken1 * amountToken2) <= amountToken1 * amountToken2)
      by (apply Z.sqrt_le_lin; nia).
    destruct (mint_eval this sender (Z.sqrt (amountToken1 * amountToken2))
                (liquidityToken (self c)) Hadmin) as [l' El].
    { rewrite HT0. lia. }
    eval_step ltac:(
      eval_step ltac:(apply mul_eval; assumption);
      eval_step ltac:(apply require_eval, Z.ltb_lt; exact Hroot);
      eval_step ltac:(reflexivity);
      eval_step ltac:(reflexivity);
      reflexivity).
    eval_step ltac:(apply LP_eval; exact El).
    eval_step ltac:(apply updateConstantFormula_eval; cbn; lia).
    discriminate.
  - destruct (Hprop HT0) as (Hm1 & Hm2 & Hmax).
    destruct Hpos as [Hp1 Hp2]; [lia|].
    set (T := totalSupply (erc20 (liquidityToken (self c)))) in *.
    replace (T =? 0) with false by (symmetry; apply Z.eqb_neq; exact HT0). cbv iota.
    set (m := Z.min (amountToken1 * T / reserve1 (self c))
                    (amountToken2 * T / reserve2 (self c))).
    assert (Hq1 : 0 <= amountToken1 * T / reserve1 (self c)) by (apply Z.div_pos; nia).
    assert (Hq2 : 0 <= amountToken2 * T / reserve2 (self c)) by (apply Z.div_pos; nia).
    assert (Hd1 : reserve1 (self c) * (amountToken1 * T / reserve1 (self c))
                  <= amountToken1 * T) by (apply Z.mul_div_le; lia).
    assert (Hd2 : reserve2 (self c) * (amountToken2 * T / reserve2 (self c))
                  <= amountToken2 * T) by (apply Z.mul_div_le; lia).
    assert (Hm0 : 0 <= m) by (subst m; lia).
    assert (Hmr1 : m * reserve1 (self c) <= amountToken1 * T).
    { assert (m <= amountToken1 * T / reserve1 (self c)) by (subst m; lia). nia. }
    assert (Hmr2 : m * reserve2 (self c) <= amountToken2 * T).
    { assert (m <= amountToken2 * T / reserve2 (self c)) by (subst m; lia). nia. }
    assert (Hsq : (T + m) * (T + m)
                  <= (reserve1 (self c) + amountToken1) * (reserve2 (self c) + amountToken2)).
    { apply (backing_step T (T + m) (reserve1 (self c)) (reserve2 (self c)));
        try lia; try nia. }
    assert (Hsupply : T + m <= MAX_UINT256) by nia.
    assert (Hf1 : reserve1 (self c) + amountToken1 <= MAX_UINT256) by nia.
    assert (Hf2 : reserve2 (self c) + amountToken2 <= MAX_UINT256) by nia.
    destruct (mint_eval this sender m (liquidityToken (self c)) Hadmin) as [l' El].
    { exact Hsupply. }
    eval_step ltac:(
      eval_step ltac:(apply mul_eval; assumption);
      eval_step ltac:(apply div_eval; lia);
      eval_step ltac:(apply mul_eval; assumption);
      eval_step ltac:(apply div_eval; lia);
      eval_step ltac:(apply add_eval; assumption);
      eval_step ltac:(reflexivity);
      eval_step ltac:(apply add_eval; assumption);
      eval_step ltac:(reflexivity);
      reflexivity).
    eval_step ltac:(apply LP_eval; exact El).
    eval_step ltac:(apply updateConstantFormula_eval; cbn; lia).
    discriminate.
Qed.

Section DepositConditions.

Variable pool_address : nat -> address.

(** X24. Exactly when a deposit goes through.  On a reachable pool whose
    two assets are deployed, [addLiquidity] succeeds if and only if the
    provider holds and has approved both amounts and the products the
    function computes fit in 256 bits: on a pool without shares the product
    of the amounts, whose square root must be positive; on a pool with
    shares each amount times the share supply and the product of the new
    reserves. *)
Theorem addLiquidity_succeeds_iff (w : World) (pool sender : address) (p : NebuPool)
    (amountToken1 amountToken2 : uint256) (t1 t2 : ERC20) :
  reachable pool_address w ->
  pools w !! pool = Some p ->
  tokens w !! token1 p = Some t1 ->
  tokens w !! token2 p = Some t2 ->
  is_uint256 amountToken1 -> is_uint256 amountToken2 ->
  let T := shareSupply p in
  (exists w',
     call_pool pool (NebuPool.addLiquidity pool sender amountToken1 amountToken2) w
       = Ok (tt, w')) <->
  (amountToken1 <= allowance t1 sender pool /\ amountToken1 <= balanceOf t1 sender /\
   amountToken2 <= allowance t2 sender pool /\ amountToken2 <= balanceOf t2 sender /\
   (T = 0 -> amountToken1 * amountToken2 <= MAX_UINT256 /\
             0 < Z.sqrt (amountToken1 * amountToken2)) /\
   (T <> 0 -> amountToken1 * T <= MAX_UINT256 /\ amountToken2 * T <= MAX_UINT256 /\
              (reserve1 p + amountToken1) * (reserve2 p + amountToken2) <= MAX_UINT256)).
Proof.
  intros Hr Hp HI1 HI2 [Ha1 _] [Ha2 _] T. subst T.
  pose proof (reachable_world_ok pool_address w Hr pool p Hp) as Hok.
  assert (Hne : token1 p <> token2 p) by (destruct Hok as (_&_&_&_&_&_&_&_&_&Hne); exact Hne).
  split.
  - intros [w' H].
    destruct (call_pool_run _ _ _ _ _ _ Hp H) as (c' & Hc & _).
    destruct (addLiquidity_needs pool sender amountToken1 amountToken2
                (mkCtx p (tokens w) (events w)) c' t1 t2 Hne HI1 HI2 Hc)
      as (N1 & N2 & N3 & N4 & N5 & N6).
    cbn [self] in *.
    repeat match goal with |- _ /\ _ => split end; try assumption.
    intros HT0. destruct (N6 HT0) as [M1 M2]. split; [exact M1|]. split; [exact M2|].
    apply addLiquidity_Ok in Hc. cbn [self] in Hc. cbn zeta in Hc.
    destruct Hc as (m & r1' & r2' & l' & _ & _ & Hprod & _ & Hcase).
    destruct Hcase as [(HT0' & _)|(_ & _ & _ & _ & -> & -> & _)]; [contradiction|].
    exact Hprod.
  - intros (N1 & N2 & N3 & N4 & N5 & N6).
    destruct (addLiquidity_eval pool sender amountToken1 amountToken2
                (mkCtx p (tokens w) (events w)) t1 t2) as [c' Hc]; try assumption.
    unfold call_pool. rewrite Hp. rewrite Hc. eauto.
Qed.

End DepositConditions.

(** ** When a withdrawal goes through *)

(** What a successful withdrawal needed. *)
Lemma removeLiquidity_needs this sender liquidity (c c' : Ctx) (t1 t2 : ERC20) :
  token1 (self c) <> token2 (self c) ->
  erc20s c !! token1 (self c) = Some t1 ->
  erc20s c !! token2 (self c) = Some t2 ->
  NebuPool.removeLiquidity this sender liquidity c = Ok (tt, c') ->
  let p := self c in
  let T := shareSupply p in
  0 < T /\ liquidity <= sharesOf p sender /\
  liquidity * reserve1 p <= MAX_UINT256 /\ liquidity * reserve2 p <= MAX_UINT256 /\
  liquidity * reserve1 p / T <= balanceOf t1 this /\
  liquidity * reserve2 p / T <= balanceOf t2 this.
Proof.
  intros Hne H1 H2 H p T. subst p T. unfold shareSupply, sharesOf.
  unfold NebuPool.removeLiquidity in H.
  pool_inv_bound;
    repeat match goal with
    | E : <[?k := _]> _ !! ?k = Some _ |- _ => rewrite lookup_insert_eq in E
    | E : <[_ := _]> _ !! _ = Some _ |- _ => rewrite lookup_insert_ne in E by congruence
    | E : Some _ = Some _ |- _ => inv_pair E
    | E1 : ?m !! ?k = Some _, E2 : ?m !! ?k = Some _ |- _ => rewrite E1 in E2
    end;
    to_Prop;
    repeat match goal with
    | E : ERC20.transfer _ _ _ _ = Ok _ |- _ => apply transfer_Ok in E; destruct E as [E _]
    | E : NebulaLiquidityToken.burn _ _ _ _ = Ok _ |- _ =>
        apply burn_Ok in E; destruct E as (_ & E & _)
    end;
    repeat match goal with |- _ /\ _ => split end; assumption.
Qed.

(** A withdrawal goes through when there are shares, the provider holds the
    shares handed in, the pool holds the two payouts, and no product
    overflows. *)
Lemma removeLiquidity_eval this sender liquidity (c : Ctx) (t1 t2 : ERC20) :
  pool_ok this (self c) ->
  erc20s c !! token1 (self c) = Some t1 ->
  erc20s c !! token2 (self c) = Some t2 ->
  let p := self c in
  let T := shareSupply p in
  0 <= liquidity -> 0 < T -> liquidity <= sharesOf p sender ->
  liquidity * reserve1 p <= MAX_UINT256 -> liquidity * reserve2 p <= MAX_UINT256 ->
  liquidity * reserve1 p / T <= balanceOf t1 this ->
  liquidity * reserve2 p / T <= balanceOf t2 this ->
  exists c', NebuPool.removeLiquidity this sender liquidity c = Ok (tt, c').
Proof.
  intros Hok HI1 HI2 p T Hl0 HT Hshares Hf1 Hf2 Hpay1 Hpay2. subst p T.
  pose proof Hok as (Hl & Hrole & [Hr1 _] & [Hr2 _] & HK & HKmax & Hzero & Hpos & Hgm & Hne).
  pose proof (ledger_balance_range _ sender Hl) as Hrange.
  unfold shareSupply, sharesOf in *.
  assert (Hadmin : this ∈ DEFAULT_ADMIN_ROLE (liquidityToken (self c)))
    by (rewrite Hrole; set_solver).
  set (T := totalSupply (erc20 (liquidityToken (self c)))) in *.
  assert (Ha1 : 0 <= liquidity * reserve1 (self c) / T <= reserve1 (self c)).
  { split.
    - apply Z.div_pos; nia.
    - apply Z.div_le_upper_bound; nia. }
  assert (Ha2 : 0 <= liquidity * reserve2 (self c) / T <= reserve2 (self c)).
  { split.
    - apply Z.div_pos; nia.
    - apply Z.div_le_upper_bound; nia. }
  assert (Hp1 : can_pay (erc20s c) (token1 (self c)) this
                  (liquidity * reserve1 (self c) / T)).
  { exists t1. split; assumption. }
  assert (Hp2 : can_pay (erc20s c) (token2 (self c)) this
                  (liquidity * reserve2 (self c) / T)).
  { exists t2. split; assumption. }
  destruct (burn_eval this sender liquidity (liquidityToken (self c)) Hadmin Hshares)
    as [l' El].
  apply not_Revert_Ok. intros e. unfold NebuPool.removeLiquidity.
  eval_step ltac:(reflexivity).
  eval_step ltac:(apply require_eval, Z.ltb_lt; exact HT).
  eval_step ltac:(apply mul_eval; exact Hf1).
  eval_step ltac:(apply div_eval; fold T; lia).
  eval_step ltac:(apply mul_eval; exact Hf2).
  eval_step ltac:(apply div_eval; fold T; lia).
  eval_step ltac:(apply LP_eval; exact El).
  eval_step ltac:(apply sub_eval; apply Ha1).
  eval_step ltac:(reflexivity).
  eval_step ltac:(apply sub_eval; apply Ha2).
  eval_step ltac:(reflexivity).
  eval_step ltac:(apply updateConstantFormula_eval; cbn; fold T; nia).
  pay_step. pay_step.
  discriminate.
Qed.

Section WithdrawalConditions.

Variable pool_address : nat -> address.

(** X25. Exactly when a withdrawal goes through.  On a reachable pool
    whose two assets are deployed, [removeLiquidity] succeeds if and only
    if the pool has shares, the provider holds the shares handed in, the
    share amount times each reserve fits in 256 bits, and the pool holds
    the two payouts. *)
Theorem removeLiquidity_succeeds_iff (w : World) (pool sender : address) (p : NebuPool)
    (liquidity : uint256) (t1 t2 : ERC20) :
  reachable pool_address w ->
  pools w !! pool = Some p ->
  tokens w !! token1 p = Some t1 ->
  tokens w !! token2 p = Some t2 ->
  is_uint256 liquidity ->
  let T := shareSupply p in
  (exists w',
     call_pool pool (NebuPool.removeLiquidity pool sender liquidity) w = Ok (tt, w')) <->
  (0 < T /\ liquidity <= sharesOf p sender /\
   liquidity * reserve1 p <= MAX_UINT256 /\ liquidity * reserve2 p <= MAX_UINT256 /\
   liquidity * reserve1 p / T <= balanceOf t1 pool /\
   liquidity * reserve2 p / T <= balanceOf t2 pool).
Proof.
  intros Hr Hp HI1 HI2 [Hl0 _] T. subst T.
  pose proof (reachable_world_ok pool_address w Hr pool p Hp) as Hok.
  assert (Hne : token1 p <> token2 p) by (destruct Hok as (_&_&_&_&_&_&_&_&_&Hne); exact Hne).
  split.
  - intros [w' H].
    destruct (call_pool_run _ _ _ _ _ _ Hp H) as (c' & Hc & _).
    apply (removeLiquidity_needs pool sender liquidity
             (mkCtx p (tokens w) (events w)) c' t1 t2 Hne HI1 HI2 Hc).
  - intros (N1 & N2 & N3 & N4 & N5 & N6).
    destruct (removeLiquidity_eval pool sender liquidity
                (mkCtx p (tokens w) (events w)) t1 t2) as [c' Hc]; try assumption.
    unfold call_pool. rewrite Hp. rewrite Hc. eauto.
Qed.

End WithdrawalConditions.

(** ** The token URIs of [AgentNFT.generateTokenURI] *)

Lemma append_inj_l (p a b : string) : String.append p a = String.append p b -> a = b.
Proof.
  induction p as [|ch p IH]; [auto|].
  change (String ch (String.append p a) = String ch (String.append p b) -> a = b).
  intros [= H]. auto.
Qed.

Lemma append_nil_r (a : string) : String.append a EmptyString = a.
Proof.
  induction a as [|ch a IH]; [reflexivity|].
  change (String ch (String.append a EmptyString) = String ch a). f_equal. exact IH.
Qed.

(** Two runs of digits that are each followed by the same character, which
    is not a digit, are equal when the two texts are. *)
Lemma digits_prefix_unique (s1 s2 r1 r2 : string) (ch : ascii) :
  is_digit ch = false ->
  forallb is_digit (list_ascii_of_string s1) = true ->
  forallb is_digit (list_ascii_of_string s2) = true ->
  String.append s1 (String ch r1) = String.append s2 (String ch r2) ->
  s1 = s2.
Proof.
  intros Hch. revert s2.
  induction s1 as [|a s1 IH]; intros [|b s2]; cbn; intros H1 H2 E.
  - reflexivity.
  - injection E as -> _. apply andb_true_iff in H2. destruct H2 as [H2 _]. congruence.
  - injection E as -> _. apply andb_true_iff in H1. destruct H1 as [H1 _]. congruence.
  - injection E as -> E. apply andb_true_iff in H1, H2.
    f_equal. apply IH; tauto.
Qed.

Lemma uint2str_numeral (value : N) :
  (value <= AgentNFT.MAX)%N ->
  exists s, AgentNFT.uint2str value = inr s /\
    forallb is_digit (list_ascii_of_string s) = true /\ parse_uint s = value.
Proof.
  intros Hmax. destruct (N.eq_dec value 0%N) as [->|Hn].
  - exists "0"%string. repeat split.
  - exists (AgentNFT.string_of_bytes (decimal_digits value)).
    split; [apply uint2str_decimal; assumption|].
    split; [apply is_digit_bytes, decimal_digits_range | apply parse_uint_decimal].
Qed.

Section TokenURIs.

Variable Base64_encode : string -> string.

Hypothesis Base64_encode_inj : forall a b, Base64_encode a = Base64_encode b -> a = b.

(** X26. For every 256-bit token id [generateTokenURI] returns a URI and
    never panics, and, the Base64 encoding being injective, different token
    ids get different URIs. *)
Theorem generateTokenURI_injective (tokenId tokenId' : N) :
  (tokenId <= AgentNFT.MAX)%N -> (tokenId' <= AgentNFT.MAX)%N ->
  (exists uri, AgentNFT.generateTokenURI Base64_encode tokenId = inr uri) /\
  (AgentNFT.generateTokenURI Base64_encode tokenId
   = AgentNFT.generateTokenURI Base64_encode tokenId' ->
   tokenId = tokenId').
Proof.
  intros Hmax Hmax'.
  destruct (uint2str_numeral tokenId Hmax) as (s & Es & Hs & Ps).
  destruct (uint2str_numeral tokenId' Hmax') as (s' & Es' & Hs' & Ps').
  unfold AgentNFT.generateTokenURI. rewrite Es, Es'.
  split; [eexists; reflexivity|].
  intros [= E]. unfold AgentNFT.encodePacked in E. cbn [fold_right] in E.
  apply append_inj_l in E. rewrite !append_nil_r in E.
  apply Base64_encode_inj, append_inj_l in E.
  assert (s = s'); [|congruence].
  eapply (digits_prefix_unique s s' _ _ "034"%char);
    [reflexivity | exact Hs | exact Hs' | exact E].
Qed.

End TokenURIs.

(** ** When a pair can be created *)

Section PairConditions.

Variable pool_address : nat -> address.

Hypothesis pool_address_inj : forall m n, pool_address m = pool_address n -> m = n.

(** The next creation address holds no pool yet. *)
Lemma next_address_fresh (w : World) :
  reachable pool_address w -> pools w !! pool_address (nonce w) = None.
Proof.
  intros Hr. destruct (reachable_registry_ok pool_address w Hr) as (Hall & _ & Hdom & _).
  destruct (pools w !! pool_address (nonce w)) as [q|] eqn:E; [exfalso | reflexivity].
  assert (Hin : pool_address (nonce w) ∈ allPairs (nebuSwap w))
    by (apply Hdom; rewrite E; eauto).
  rewrite Hall in Hin. apply list_elem_of_fmap in Hin. destruct Hin as (i & Hi & Hseq).
  apply pool_address_inj in Hi. subst i.
  apply elem_of_seq in Hseq. lia.
Qed.

(** X27. Exactly when a pair can be created.  In every reachable state,
    with creation addresses that do not repeat, [createPairs] succeeds if
    and only if the two assets differ and the registry has no entry for
    them yet; the pool it returns is then the registry's entry for the pair
    in both orders. *)
Theorem createPairs_succeeds_iff (w : World) (token1' token2' : address) (n1 n2 : string) :
  reachable pool_address w ->
  ((exists a w', createPairs pool_address token1' token2' n1 n2 w = Ok (a, w')) <->
   (token1' <> token2' /\ pairOf (nebuSwap w) token1' token2' = 0)) /\
  (forall a w', createPairs pool_address token1' token2' n1 n2 w = Ok (a, w') ->
     pairOf (nebuSwap w') token1' token2' = a /\ pairOf (nebuSwap w') token2' token1' = a).
Proof.
  intros Hr. split; [split|].
  - intros (a & w' & H). apply createPairs_deploys in H. tauto.
  - intros [Hne Hfree].
    pose proof (next_address_fresh w Hr) as Hfresh.
    unfold createPairs, new_NebuPool, mbind, M_bind, gets, require, modify, mret, M_ret.
    apply Z.eqb_neq in Hne. rewrite Hne. cbn [negb].
    rewrite Hfree. cbn [Z.eqb]. rewrite Hfresh. cbn. eauto.
  - intros a w' H. apply createPairs_deploys in H.
    destruct H as (Hne & _ & _ & _ & ->). cbn [nebuSwap].
    rewrite !pairOf_created. split; repeat case_decide; congruence.
Qed.

End PairConditions.

(** * The further properties on the concrete chain *)

Import Withdrawals.

Lemma scenario_pool_address_inj (m n : nat) : pool_address m = pool_address n -> m = n.
Proof. unfold pool_address. lia. Qed.

Lemma pool_state_well_formed_witness :
  is_uint256 (reserve1 (pool_of w3)) /\ is_uint256 (reserve2 (pool_of w3)) /\
  is_uint256 (constantK (pool_of w3)) /\ is_uint256 (shareSupply (pool_of w3)) /\
  (shareSupply (pool_of w3) = 0 <-> reserve1 (pool_of w3) = 0 /\ reserve2 (pool_of w3) = 0) /\
  (reserve1 (pool_of w3) = 0 <-> reserve2 (pool_of w3) = 0).
Proof.
  apply (pool_state_well_formed pool_address w3 pool0 (pool_of w3) reachable_w3).
  by_computation.
Defined.

Lemma share_ledger_consistent_witness :
  sum_balances (erc20 (liquidityToken (pool_of w3))) = shareSupply (pool_of w3) /\
  forall holder, 0 <= sharesOf (pool_of w3) holder <= shareSupply (pool_of w3).
Proof.
  apply (share_ledger_consistent pool_address w3 pool0 (pool_of w3) reachable_w3).
  by_computation.
Defined.

Lemma only_the_pool_mints_and_burns_witness :
  NebulaLiquidityToken.mint bob bob 5 (liquidityToken (pool_of w3))
    = Revert AccessControlUnauthorizedAccount /\
  NebulaLiquidityToken.burn bob alice 5 (liquidityToken (pool_of w3))
    = Revert AccessControlUnauthorizedAccount.
Proof.
  destruct (only_the_pool_mints_and_burns pool_address w3 pool0 (pool_of w3) bob bob 5
              reachable_w3) as (_ & _ & Hmint); [by_computation|].
  destruct (only_the_pool_mints_and_burns pool_address w3 pool0 (pool_of w3) bob alice 5
              reachable_w3) as (_ & _ & Hburn); [by_computation|].
  split.
  - apply Hmint. by_computation.
  - apply Hburn. by_computation.
Defined.

Lemma deposit_then_withdraw_witness :
  exists p2, pools w3_withdrawn !! pool0 = Some p2 /\
    shareSupply p2 = shareSupply (pool_of w2) /\
    reserve1 (pool_of w2) <= reserve1 p2 /\ reserve2 (pool_of w2) <= reserve2 p2 /\
    reserve1 (pool_of w3) - reserve1 p2 <= 10 /\
    reserve2 (pool_of w3) - reserve2 p2 <= 40 /\
    (shareSupply (pool_of w2) = 0 ->
     reserve1 (pool_of w3) - reserve1 p2 = 10 /\
     reserve2 (pool_of w3) - reserve2 p2 = 40).
Proof.
  apply (deposit_then_withdraw pool_address w2 w3 w3_withdrawn pool0 alice
           (pool_of w2) (pool_of w3) 10 40 reachable_w2).
  - by_computation.
  - apply uint256_small. lia.
  - apply uint256_small. lia.
  - by_computation.
  - by_computation.
  - by_computation.
Defined.

Lemma full_withdrawal_empties_pool_witness :
  reserve1 (pool_of w2_emptied) = 0 /\ reserve2 (pool_of w2_emptied) = 0 /\
  constantK (pool_of w2_emptied) = 0 /\ shareSupply (pool_of w2_emptied) = 0 /\
  logs (ctx_of w2_emptied)
    = logs (ctx_of w2)
      ++ [LiquidityRemoved alice (reserve1 (pool_of w2)) (reserve2 (pool_of w2))
            (shareSupply (pool_of w2))].
Proof.
  apply (full_withdrawal_empties_pool pool0 alice (ctx_of w2) (ctx_of w2_emptied)).
  by_computation.
Defined.

Lemma liquidity_changes_never_dilute_witness :
  exists p', pools w3 !! pool0 = Some p' /\
    reserve1 (pool_of w2) * shareSupply p' <= reserve1 p' * shareSupply (pool_of w2) /\
    reserve2 (pool_of w2) * shareSupply p' <= reserve2 p' * shareSupply (pool_of w2).
Proof.
  destruct (liquidity_changes_never_dilute pool_address w2 pool0 (pool_of w2) reachable_w2)
    as [Hadd _]; [by_computation|].
  apply (Hadd alice 10 40 w3).
  - apply uint256_small. lia.
  - apply uint256_small. lia.
  - by_computation.
Defined.

Lemma share_supply_below_geometric_mean_witness :
  shareSupply (pool_of w3) * shareSupply (pool_of w3)
    <= reserve1 (pool_of w3) * reserve2 (pool_of w3) /\
  shareSupply (pool_of w3) <= Z.sqrt (reserve1 (pool_of w3) * reserve2 (pool_of w3)).
Proof.
  apply (share_supply_below_geometric_mean pool_address w3 pool0 (pool_of w3) reachable_w3).
  by_computation.
Defined.

Lemma quote_rounds_up_witness :
  let reserveIn :=
    if tokenA =? token1 (pool_of w3) then reserve1 (pool_of w3) else reserve2 (pool_of w3) in
  let reserveOut :=
    if tokenA =? token1 (pool_of w3) then reserve2 (pool_of w3) else reserve1 (pool_of w3) in
  ctx_of w3 = mkCtx (pool_of w3) (tokens w3) (events w3) /\
  0 <= 37 <= reserveOut /\
  (reserveIn + 10) * (reserveOut - 37) <= reserveIn * reserveOut /\
  reserveIn * reserveOut < (reserveIn + 10) * (reserveOut - 37 + 1) /\
  10 * reserveOut <= 37 * (reserveIn + 10) < 10 * reserveOut + (reserveIn + 10).
Proof.
  apply (quote_rounds_up pool_address w3 pool0 (pool_of w3) (tokens w3) (events w3)
           tokenA 10 37 (ctx_of w3) reachable_w3).
  - by_computation.
  - by_computation.
Defined.

Lemma quote_monotone_witness : 37 <= 68.
Proof.
  apply (quote_monotone pool_address w3 pool0 (pool_of w3) (tokens w3) (events w3)
           tokenA 10 20 37 68 (ctx_of w3) (ctx_of w3) reachable_w3).
  - by_computation.
  - by_computation.
  - by_computation.
  - lia.
Defined.

Lemma getExpectedOutput_outcome_witness :
  NebuPool.getExpectedOutput tokenA 0 (mkCtx (pool_of w3) (tokens w3) (events w3))
    = Revert (Error "AmountIn must be greater than 0") /\
  NebuPool.getExpectedOutput bob 10 (mkCtx (pool_of w3) (tokens w3) (events w3))
    = Revert (Error "Invalid fromToken") /\
  exists q, NebuPool.getExpectedOutput tokenB 10 (mkCtx (pool_of w3) (tokens w3) (events w3))
            = Ok (q, mkCtx (pool_of w3) (tokens w3) (events w3)).
Proof.
  destruct (getExpectedOutput_outcome pool_address w3 pool0 (pool_of w3) (tokens w3)
              (events w3) tokenA 0 reachable_w3) as (Hzero & _); [by_computation|].
  destruct (getExpectedOutput_outcome pool_address w3 pool0 (pool_of w3) (tokens w3)
              (events w3) bob 10 reachable_w3) as (_ & Hforeign & _); [by_computation|].
  destruct (getExpectedOutput_outcome pool_address w3 pool0 (pool_of w3) (tokens w3)
              (events w3) tokenB 10 reachable_w3) as (_ & _ & Hvalid); [by_computation|].
  split; [apply Hzero; lia|]. split.
  - apply Hforeign; [lia | by_computation | by_computation].
  - destruct Hvalid as [Hfit _]; [lia | right; by_computation |].
    apply Hfit. by_computation.
Defined.

Lemma swap_pays_the_quote_witness :
  exists q,
    NebuPool.getExpectedOutput tokenA 100 (ctx_of w2) = Ok (q, ctx_of w2) /\
    200 <= q /\
    reserve1 (self (ctx_of w2_swapped)) = reserve1 (self (ctx_of w2)) + 100 /\
    reserve2 (self (ctx_of w2_swapped)) = reserve2 (self (ctx_of w2)) - q /\
    (reserve1 (self (ctx_of w2)) + 100 | constantK (self (ctx_of w2))) /\
    constantK (self (ctx_of w2_swapped)) = constantK (self (ctx_of w2)) /\
    liquidityToken (self (ctx_of w2_swapped)) = liquidityToken (self (ctx_of w2)) /\
    logs (ctx_of w2_swapped) = logs (ctx_of w2) ++ [Swap bob 100 q tokenA tokenB].
Proof.
  apply (swap_pays_the_quote pool0 bob tokenA tokenB 100 200 (ctx_of w2) (ctx_of w2_swapped)).
  by_computation.
Defined.

Lemma pool_calls_move_assets_witness :
  holding (erc20s (ctx_of w2_swapped)) tokenB bob
  = holding (erc20s (ctx_of w2)) tokenB bob
    + moved tokenA bob pool0 100 tokenB bob
    + moved tokenB pool0 bob
        (reserve2 (self (ctx_of w2))
         - constantK (self (ctx_of w2)) / (reserve1 (self (ctx_of w2)) + 100))
        tokenB bob.
Proof.
  destruct (pool_calls_move_assets pool0 bob (ctx_of w2) (ctx_of w2_swapped) tokenB bob)
    as (_ & _ & Hswap).
  apply (Hswap tokenA tokenB 100 200). by_computation.
Defined.

Lemma reserves_follow_holdings_witness :
  exists p', pools w3 !! pool0 = Some p' /\
    holding (tokens w3) (token1 (pool_of w2)) pool0 - reserve1 p'
      = holding (tokens w2) (token1 (pool_of w2)) pool0 - reserve1 (pool_of w2) /\
    holding (tokens w3) (token2 (pool_of w2)) pool0 - reserve2 p'
      = holding (tokens w2) (token2 (pool_of w2)) pool0 - reserve2 (pool_of w2).
Proof.
  apply (reserves_follow_holdings pool_address w2 w3 pool0 alice (pool_of w2) reachable_w2).
  - by_computation.
  - by_computation.
  - left. exists 10, 40.
    split; [apply uint256_small; lia|]. split; [apply uint256_small; lia|].
    by_computation.
Defined.

Lemma pool_without_shares_witness :
  reserve1 (pool_of w1) = 0 /\ reserve2 (pool_of w1) = 0 /\ constantK (pool_of w1) = 0 /\
  call_pool pool0 (NebuPool.removeLiquidity pool0 alice 1) w1
    = Revert (Error "No liquidity available") /\
  (forall r, call_pool pool0 (NebuPool.swapTokens pool0 bob tokenA tokenB 10 1) w1 <> Ok r).
Proof.
  destruct (pool_without_shares pool_address w1 pool0 (pool_of w1) reachable_w1)
    as (Z1 & Z2 & ZK & Hrem & Hswap & _); [by_computation | by_computation |].
  split; [exact Z1|]. split; [exact Z2|]. split; [exact ZK|]. split.
  - apply Hrem.
  - apply Hswap.
Defined.

Lemma createPairs_deploys_empty_pool_witness :
  pool0 = pool_address (nonce w0) /\ pools w0 !! pool0 = None /\
  (exists p, pools w1 !! pool0 = Some p /\
     token1 p = tokenA /\ token2 p = tokenB /\
     reserve1 p = 0 /\ reserve2 p = 0 /\ constantK p = 0 /\ shareSupply p = 0 /\
     (forall holder, sharesOf p holder = 0) /\
     name (liquidityToken p)
       = String.append "Liquidity-" (String.append "A" (String.append "-" "B")) /\
     symbol (liquidityToken p)
       = String.append "LP-" (String.append "A" (String.append "-" "B")) /\
     DEFAULT_ADMIN_ROLE (liquidityToken p) = {[ pool0 ]}) /\
  allPairs (nebuSwap w1) = allPairs (nebuSwap w0) ++ [pool0] /\
  events w1 = events w0 ++ [PairCreated tokenA tokenB pool0] /\
  tokens w1 = tokens w0 /\
  (forall b, b <> pool0 -> pools w1 !! b = pools w0 !! b).
Proof.
  apply (createPairs_deploys_empty_pool pool_address tokenA tokenB "A" "B" w0 w1 pool0).
  by_computation.
Defined.

Lemma getPairs_lists_the_pools_witness :
  getPairs w3 = Ok (pool_address <$> seq 0 (nonce w3), w3) /\
  allPairsLength w3 = Ok (Z.of_nat (size (pools w3)), w3) /\
  NoDup (allPairs (nebuSwap w3)) /\
  (forall a, a ∈ allPairs (nebuSwap w3) <-> is_Some (pools w3 !! a)).
Proof.
  apply (getPairs_lists_the_pools pool_address w3 reachable_w3).
Defined.

Lemma registry_only_grows_witness :
  allPairs (nebuSwap w1) `prefix_of` allPairs (nebuSwap w3) /\
  events w1 `prefix_of` events w3 /\
  (nonce w1 <= nonce w3)%nat /\
  forall a p, pools w1 !! a = Some p ->
    exists p', pools w3 !! a = Some p' /\
      token1 p' = token1 p /\ token2 p' = token2 p.
Proof.
  apply (registry_only_grows pool_address w1 w3 steps_w1_w3).
Defined.

Lemma getPair_names_a_pool_witness :
  tokenA <> tokenB /\ pool0 ∈ allPairs (nebuSwap w3) /\
  exists p, pools w3 !! pool0 = Some p /\
    ((token1 p = tokenA /\ token2 p = tokenB) \/ (token1 p = tokenB /\ token2 p = tokenA)).
Proof.
  apply (getPair_names_a_pool pool_address w3 tokenA tokenB pool0 reachable_w3).
  - by_computation.
  - by_computation.
Defined.

Lemma uint2str_returns_witness :
  exists s, AgentNFT.uint2str 1234567890 = inr s /\
    (1 <= String.length s <= 78)%nat /\
    (1234567890%N <> 0%N ->
     (10 ^ (N.of_nat (String.length s) - 1) <= 1234567890
      < 10 ^ N.of_nat (String.length s))%N).
Proof.
  apply (uint2str_returns 1234567890). by_computation.
Defined.

Lemma uint2str_round_trip_witness :
  exists s, AgentNFT.uint2str AgentNFT.MAX = inr s /\ parse_uint s = AgentNFT.MAX.
Proof.
  apply (uint2str_round_trip AgentNFT.MAX). by_computation.
Defined.

Lemma uint2str_injective_witness : 2026%N = (2000 + 26)%N.
Proof.
  apply (uint2str_injective 2026 (2000 + 26)).
  - by_computation.
  - by_computation.
  - by_computation.
Defined.

Lemma uint2str_digits_only_witness :
  exists s, AgentNFT.uint2str 907 = inr s /\
    forallb is_digit (list_ascii_of_string s) = true /\
    (907%N <> 0%N -> exists c rest, s = String c rest /\ c <> "0"%char).
Proof.
  apply (uint2str_digits_only 907). by_computation.
Defined.

Lemma swapTokens_succeeds_iff_witness :
  exists w',
    call_pool pool0 (NebuPool.swapTokens pool0 bob tokenA tokenB 100 200) w2 = Ok (tt, w').
Proof.
  destruct (swapTokens_succeeds_iff pool_address w2 pool0 bob tokenA tokenB (pool_of w2)
              100 200 (token_of w2 tokenA) (token_of w2 tokenB) reachable_w2)
    as [_ Hback]; [by_computation | by_computation | by_computation |].
  apply Hback. split_all; try by_computation.
  exists 200. by_computation.
Defined.

Lemma addLiquidity_succeeds_iff_witness :
  exists w', call_pool pool0 (NebuPool.addLiquidity pool0 alice 10 40) w2 = Ok (tt, w').
Proof.
  destruct (addLiquidity_succeeds_iff pool_address w2 pool0 alice (pool_of w2) 10 40
              (token_of w2 tokenA) (token_of w2 tokenB) reachable_w2)
    as [_ Hback];
    [by_computation | by_computation | by_computation
    | apply uint256_small; lia | apply uint256_small; lia |].
  apply Hback. split_all; try by_computation.
  intros _. split_all; by_computation.
Defined.

Lemma removeLiquidity_succeeds_iff_witness :
  exists w', call_pool pool0 (NebuPool.removeLiquidity pool0 alice 20) w3 = Ok (tt, w').
Proof.
  destruct (removeLiquidity_succeeds_iff pool_address w3 pool0 alice (pool_of w3) 20
              (token_of w3 tokenA) (token_of w3 tokenB) reachable_w3)
    as [_ Hback];
    [by_computation | by_computation | by_computation | apply uint256_small; lia |].
  apply Hback. split_all; by_computation.
Defined.

Lemma generateTokenURI_injective_witness :
  (exists uri, AgentNFT.generateTokenURI (fun s => s) 7 = inr uri) /\
  (AgentNFT.generateTokenURI (fun s => s) 7 = AgentNFT.generateTokenURI (fun s => s) 7 ->
   7%N = 7%N).
Proof.
  apply (generateTokenURI_injective (fun s => s) (fun a b H => H) 7 7); by_computation.
Defined.

Lemma createPairs_succeeds_iff_witness :
  exists a w', createPairs pool_address tokenB alice "B" "C" w3 = Ok (a, w').
Proof.
  destruct (createPairs_succeeds_iff pool_address scenario_pool_address_inj w3 tokenB alice
              "B" "C" reachable_w3) as [[_ Hback] _].
  apply Hback. split; by_computation.
Defined.
